(** * Data-Ingestion-API-System: the scheduling core of [index.js]

    A shallow embedding of the priority queue, the status roll-up, the
    [/ingest] handler and the rate-limited dispatcher loop, followed by
    the properties of the specification that concern them. *)

From stdpp Require Import gmap strings list fin_maps sorting.
From Stdlib Require Import ZArith Lia.

Set Warnings "-register-all".

Local Open Scope Z_scope.

(** ** Constants (index.js, lines 44-45) *)

Definition RATE_LIMIT_MS : Z := 5000.
Definition BATCH_SIZE : nat := 3.

(** ** Data model *)

(** The three strings accepted by the priority check of line 104. *)
Inductive Priority := HIGH | MEDIUM | LOW.

(** The three status strings written by the program. *)
Inductive Status := yet_to_start | triggered | completed.

#[global] Instance Priority_eq_dec : EqDecision Priority.
Proof. solve_decision. Defined.

#[global] Instance Status_eq_dec : EqDecision Status.
Proof. solve_decision. Defined.

(** Identifiers produced by [uuidv4()]. *)
Abbreviation uuid := string.

(** The object pushed on the queue at line 118. *)
Record QueueItem := mkQueueItem {
  batch_id : uuid;
  ids : list Z;
  priority : Priority;
  created_time : Z;
  ingestion_id : uuid
}.

(** The value stored in [batchStatuses] (lines 64, 76, 116). *)
Record BatchStatus := mkBatchStatus {
  bs_batch_id : uuid;
  bs_ids : list Z;
  bs_status : Status
}.

(** The value stored in [ingestionJobs] (line 121). *)
Record Job := mkJob {
  j_ingestion_id : uuid;
  j_status : Status;
  j_batches : list uuid;
  j_priority : Priority;
  j_created_time : Z
}.

#[global] Instance QueueItem_eq_dec : EqDecision QueueItem.
Proof. solve_decision. Defined.

#[global] Instance BatchStatus_eq_dec : EqDecision BatchStatus.
Proof. solve_decision. Defined.

#[global] Instance Job_eq_dec : EqDecision Job.
Proof. solve_decision. Defined.

(** ** [Array.prototype.sort]

    The sort of ECMAScript is stable, and for a consistent comparator its
    result is the one stably sorted arrangement of the array: [x] ends
    before [y] when [cmp x y < 0], after it when [cmp x y > 0], and the
    two keep their order when [cmp x y = 0]. *)

Section Sort.
Context {A : Type} (cmp : A → A → Z).

Fixpoint insert_sorted (x : A) (l : list A) : list A :=
  match l with
  | [] => [x]
  | y :: l' => if cmp x y <=? 0 then x :: y :: l' else y :: insert_sorted x l'
  end.

Fixpoint sort (l : list A) : list A :=
  match l with
  | [] => []
  | x :: l' => insert_sorted x (sort l')
  end.
End Sort.

(** The elements whose key is [k]; with a key that the comparator cannot
    tell apart, these are the elements the sort must keep in order. *)
Definition tied {A K : Type} (key : A → K) (k : K) (a : A) : Prop := key a = k.

#[global] Instance tied_dec {A K : Type} `{EqDecision K} (key : A → K) k a :
  Decision (tied key k a).
Proof. unfold tied. apply _. Defined.

#[global] Typeclasses Opaque tied.

(** ** [class PriorityQueue] (lines 9-27) *)

Section PriorityQueue.
Context {A : Type} (comparator : A → A → Z).

Record PriorityQueue := mkPriorityQueue { items : list A }.

(** [constructor]: [this.items = []]. *)
Definition new_queue : PriorityQueue := {| items := [] |}.

(** [enqueue(item)]: push, then sort with the comparator. *)
Definition enqueue (item : A) (q : PriorityQueue) : PriorityQueue :=
  {| items := sort comparator (items q ++ [item]) |}.

(** [dequeue()]: [this.items.shift()]; [None] is the [undefined] that
    [shift] returns on an empty array. *)
Definition dequeue (q : PriorityQueue) : option A * PriorityQueue :=
  match items q with
  | [] => (None, q)
  | x :: rest => (Some x, {| items := rest |})
  end.

(** [get length()]. *)
Definition queue_length (q : PriorityQueue) : nat := length (items q).
End PriorityQueue.

Arguments PriorityQueue : clear implicits.
Arguments new_queue {A}.
Arguments dequeue {A} q.
Arguments queue_length {A} q.
Arguments mkPriorityQueue {A} _.
Arguments items {A} _.

(** ** The comparator of the global queue (lines 34-40) *)

Definition priorityOrder (p : Priority) : Z :=
  match p with HIGH => 0 | MEDIUM => 1 | LOW => 2 end.

Definition queue_comparator (a b : QueueItem) : Z :=
  if negb (priorityOrder (priority a) =? priorityOrder (priority b))
  then priorityOrder (priority a) - priorityOrder (priority b)
  else created_time a - created_time b.

(** ** Sequences of queue operations *)

Inductive queue_op := Enqueue (e : QueueItem) | Dequeue.

(** Runs the operations on the program's queue; the second component is
    what each [dequeue()] returned, in call order. *)
Fixpoint run_ops (ops : list queue_op) (q : PriorityQueue QueueItem)
  : PriorityQueue QueueItem * list (option QueueItem) :=
  match ops with
  | [] => (q, [])
  | Enqueue e :: ops' => run_ops ops' (enqueue queue_comparator e q)
  | Dequeue :: ops' =>
      let '(r, q') := dequeue q in
      let '(qf, out) := run_ops ops' q' in (qf, r :: out)
  end.

(** The entries handed to [enqueue], in call order. *)
Fixpoint enqueued (ops : list queue_op) : list QueueItem :=
  match ops with
  | [] => []
  | Enqueue e :: ops' => e :: enqueued ops'
  | Dequeue :: ops' => enqueued ops'
  end.

(** The entries a list of [dequeue()] results holds. *)
Definition returned (out : list (option QueueItem)) : list QueueItem :=
  omap id out.

(** ** The scheduler as the specification words it

    Pending entries are kept in insertion order; [dequeue] takes the
    entry that is least by priority, then by [created_time], and among
    equals the one inserted first. The order of the priorities is written
    here as the specification gives it, [HIGH] before [MEDIUM] before
    [LOW], and not through the table of the program. *)

(** [p1] has strict precedence over [p2]. *)
Definition precedes (p1 p2 : Priority) : bool :=
  match p1, p2 with
  | HIGH, MEDIUM | HIGH, LOW | MEDIUM, LOW => true
  | _, _ => false
  end.

Definition rank_time_le (a b : QueueItem) : bool :=
  precedes (priority a) (priority b)
  || (bool_decide (priority a = priority b)
      && (created_time a <=? created_time b)).

(** [a] is served strictly before [b]: its priority has precedence, or
    the priorities are the same and its [created_time] is earlier. *)
Definition spec_before (a b : QueueItem) : Prop :=
  precedes (priority a) (priority b) = true
  ∨ (priority a = priority b ∧ created_time a < created_time b).

(** First least entry of [x :: l], and the others in their order. *)
Fixpoint spec_extract (x : QueueItem) (l : list QueueItem)
  : QueueItem * list QueueItem :=
  match l with
  | [] => (x, [])
  | y :: l' =>
      let '(m, r) := spec_extract y l' in
      if rank_time_le x m then (x, l) else (m, x :: r)
  end.

Definition spec_dequeue (pending : list QueueItem)
  : option QueueItem * list QueueItem :=
  match pending with
  | [] => (None, [])
  | x :: l => let '(m, r) := spec_extract x l in (Some m, r)
  end.

Fixpoint spec_run (ops : list queue_op) (pending : list QueueItem)
  : list QueueItem * list (option QueueItem) :=
  match ops with
  | [] => (pending, [])
  | Enqueue e :: ops' => spec_run ops' (pending ++ [e])
  | Dequeue :: ops' =>
      let '(r, p') := spec_dequeue pending in
      let '(pf, out) := spec_run ops' p' in (pf, r :: out)
  end.

(** ** The in-memory store (lines 29-43)

    [trace] is not a variable of the program: it records, in order, the
    effects the program has on the outside (calls of the external
    operation, lines written by [console.error]) and the moments at which
    a batch is marked. *)

Inductive Event :=
| Dispatched (batch : uuid) (at_time : Z)   (* line 64 *)
| FetchCall (id : Z)                        (* line 70 *)
| ConsoleError (id : Z)                     (* line 72 *)
| Completed (batch : uuid) (at_time : Z)    (* lines 76-78 *)
| RunError.                                 (* the [.catch] of line 125 *)

Record Store := mkStore {
  ingestionJobs : gmap string Job;
  batchStatuses : gmap string BatchStatus;
  queue : PriorityQueue QueueItem;
  lastProcessedTime : Z;
  trace : list Event
}.

Definition initial_store : Store :=
  {| ingestionJobs := ∅; batchStatuses := ∅; queue := new_queue;
     lastProcessedTime := 0; trace := [] |}.

Definition set_ingestionJobs (m : gmap string Job) (st : Store) : Store :=
  {| ingestionJobs := m; batchStatuses := batchStatuses st; queue := queue st;
     lastProcessedTime := lastProcessedTime st; trace := trace st |}.

Definition set_batchStatuses (m : gmap string BatchStatus) (st : Store) : Store :=
  {| ingestionJobs := ingestionJobs st; batchStatuses := m; queue := queue st;
     lastProcessedTime := lastProcessedTime st; trace := trace st |}.

Definition set_queue (q : PriorityQueue QueueItem) (st : Store) : Store :=
  {| ingestionJobs := ingestionJobs st; batchStatuses := batchStatuses st; queue := q;
     lastProcessedTime := lastProcessedTime st; trace := trace st |}.

Definition set_lastProcessedTime (t : Z) (st : Store) : Store :=
  {| ingestionJobs := ingestionJobs st; batchStatuses := batchStatuses st;
     queue := queue st; lastProcessedTime := t; trace := trace st |}.

Definition emit (e : Event) (st : Store) : Store :=
  {| ingestionJobs := ingestionJobs st; batchStatuses := batchStatuses st;
     queue := queue st; lastProcessedTime := lastProcessedTime st;
     trace := trace st ++ [e] |}.

(** ** [updateIngestionStatus] (lines 83-94)

    [batches] may hold [undefined] (here [None]) where a batch id is not
    in [batchStatuses]; reading [.status] of it throws a [TypeError].
    [every] and [some] stop at the first element that decides them, so
    whether the throw happens depends on what stands before. The result
    [None] is that throw; it happens before the job is written. *)

Fixpoint js_every (p : BatchStatus → bool) (l : list (option BatchStatus))
  : option bool :=
  match l with
  | [] => Some true
  | None :: _ => None
  | Some b :: l' => if p b then js_every p l' else Some false
  end.

Fixpoint js_some (p : BatchStatus → bool) (l : list (option BatchStatus))
  : option bool :=
  match l with
  | [] => Some false
  | None :: _ => None
  | Some b :: l' => if p b then Some true else js_some p l'
  end.

Definition has_status (s : Status) (b : BatchStatus) : bool :=
  bool_decide (bs_status b = s).

Definition with_status (s : Status) (job : Job) : Job :=
  {| j_ingestion_id := j_ingestion_id job; j_status := s;
     j_batches := j_batches job; j_priority := j_priority job;
     j_created_time := j_created_time job |}.

Definition updateIngestionStatus (ingestion_id : uuid) (st : Store)
  : option Store :=
  match ingestionJobs st !! ingestion_id with
  | None => Some st
  | Some job =>
      let batches := (λ b, batchStatuses st !! b) <$> j_batches job in
      allYetToStart ← js_every (has_status yet_to_start) batches;
      anyTriggered ← js_some (has_status triggered) batches;
      allCompleted ← js_every (has_status completed) batches;
      let status :=
        if allYetToStart : bool then yet_to_start
        else if anyTriggered : bool then triggered else completed in
      Some (set_ingestionJobs
              (<[ingestion_id := with_status status job]> (ingestionJobs st)) st)
  end.

(** ** [processBatches] (lines 54-80)

    The function is asynchronous: it runs until its next [await], is
    suspended there, and is resumed by the timer or by the settling of
    the external call. A [Continuation] is a suspended run. The clock is
    read once for each stretch of synchronous code. *)

Inductive Continuation :=
| AwaitRateLimit (wake : Z)
    (* line 58: the timer fires at [wake]; the run goes on at line 61 *)
| AwaitFetch (batch : QueueItem) (id : Z) (rest : list Z).
    (* line 70: [fetchExternalData(id)] is pending; [rest] is what the
       iterator of line 68 has not yet produced *)

Inductive Outcome :=
| Suspended (k : Continuation)
| Returned          (* the loop found the queue empty *)
| Thrown            (* an exception left the function *)
| OutOfFuel.        (* never produced with the fuel used below *)

Inductive Point :=
| LoopHead                                   (* line 55 *)
| AfterGate                                  (* line 61 *)
| ItemLoop (batch : QueueItem) (rest : list Z).   (* line 68, next item *)

Definition set_batch (batch : QueueItem) (s : Status) (st : Store) : Store :=
  set_batchStatuses
    (<[batch_id batch :=
        {| bs_batch_id := batch_id batch; bs_ids := ids batch; bs_status := s |}]>
       (batchStatuses st)) st.

Fixpoint run_sync (fuel : nat) (pt : Point) (now : Z) (st : Store)
  : Store * Outcome :=
  match fuel with
  | O => (st, OutOfFuel)
  | S fuel' =>
      match pt with
      | LoopHead =>
          if bool_decide (0 < queue_length (queue st))%nat then
            if now - lastProcessedTime st <? RATE_LIMIT_MS then
              (st, Suspended (AwaitRateLimit
                     (now + (RATE_LIMIT_MS - (now - lastProcessedTime st)))))
            else run_sync fuel' AfterGate now st
          else (st, Returned)
      | AfterGate =>
          match dequeue (queue st) with
          | (None, _) => (st, Thrown)     (* destructuring [undefined] *)
          | (Some batch, q') =>
              let st1 := set_queue q' st in
              let st2 := emit (Dispatched (batch_id batch) now)
                              (set_batch batch triggered st1) in
              match updateIngestionStatus (ingestion_id batch) st2 with
              | None => (st2, Thrown)
              | Some st3 => run_sync fuel' (ItemLoop batch (ids batch)) now st3
              end
          end
      | ItemLoop batch [] =>
          let st1 := set_batch batch completed st in
          match updateIngestionStatus (ingestion_id batch) st1 with
          | None => (st1, Thrown)
          | Some st2 =>
              let st3 := emit (Completed (batch_id batch) now)
                              (set_lastProcessedTime now st2) in
              run_sync fuel' LoopHead now st3
          end
      | ItemLoop batch (id :: rest) =>
          (emit (FetchCall id) st, Suspended (AwaitFetch batch id rest))
      end
  end.

(** Four stretches are the most that run without an [await]: line 61,
    an item loop over no item, line 55, and the gate, which then holds
    the run since no time has passed. *)
Definition sync_fuel : nat := 5.

(** The call [processBatches()] of line 125, up to its first [await]. *)
Definition processBatches (now : Z) (st : Store) : Store * Outcome :=
  run_sync sync_fuel LoopHead now st.

(** Resuming a suspended run. [ok] tells whether the external call was
    fulfilled; it is not read when the run waited on the timer. *)
Definition resume (k : Continuation) (ok : bool) (now : Z) (st : Store)
  : Store * Outcome :=
  match k with
  | AwaitRateLimit _ => run_sync sync_fuel AfterGate now st
  | AwaitFetch batch id rest =>
      let st1 := if ok then st else emit (ConsoleError id) st in
      run_sync sync_fuel (ItemLoop batch rest) now st1
  end.

(** ** Request bodies

    What [express.json()] hands to the handler, as far as the handler
    looks at it. [JsInt n] is a number whose value is the integer [n];
    [JsOtherNumber] stands for every number that [Number.isInteger]
    refuses. A key that is absent from the body reads [JsUndefined]. *)

Inductive JsValue :=
| JsUndefined
| JsNull
| JsBool (b : bool)
| JsInt (n : Z)
| JsOtherNumber
| JsString (s : string)
| JsArray (elems : list JsValue)
| JsObject.

Record Body := mkBody { body_ids : JsValue; body_priority : JsValue }.

Inductive ResponseBody :=
| ErrorJson (error : string)
| IngestJson (ingestion_id : uuid)
| StatusJson (ingestion_id : uuid) (status : Status)
             (batches : list (option BatchStatus)).

Record Response := mkResponse { res_status : Z; res_json : ResponseBody }.

(** ** [POST /ingest] (lines 97-129) *)

(** The test of line 101 on one element. *)
Definition id_ok (v : JsValue) : bool :=
  match v with
  | JsInt n => (1 <=? n) && (n <=? 1000000007)
  | _ => false
  end.

(** [['HIGH', 'MEDIUM', 'LOW'].includes(priority)], with the member found. *)
Definition known_priority (v : JsValue) : option Priority :=
  match v with
  | JsString s =>
      if String.eqb s "HIGH" then Some HIGH
      else if String.eqb s "MEDIUM" then Some MEDIUM
      else if String.eqb s "LOW" then Some LOW
      else None
  | _ => None
  end.

(** The default of line 98: it applies to a key that reads [undefined],
    and to nothing else. *)
Definition default_LOW (v : JsValue) : JsValue :=
  match v with
  | JsUndefined => JsString "LOW"
  | _ => v
  end.

(** The numbers of an array that passed line 101. *)
Definition numbers (l : list JsValue) : list Z :=
  omap (λ v, match v with JsInt n => Some n | _ => None end) l.

(** [ids.slice(i, j)]. *)
Definition slice {A} (i j : nat) (l : list A) : list A :=
  take (j - i) (drop i l).

(** The loop of lines 113-119. [n] counts the calls of [uuidv4()] made
    so far in the request; [uuidv4 n] is what the next call returns. The
    loop ends within [length ids] rounds, which is the fuel it is run with. *)
Fixpoint split_loop (fuel : nat) (i n : nat) (ids : list Z)
    (priority : Priority) (created_time : Z) (ingestion_id : uuid)
    (uuidv4 : nat → uuid) (batches : list uuid) (st : Store)
  : list uuid * Store :=
  match fuel with
  | O => (batches, st)
  | S fuel' =>
      if bool_decide (i < length ids)%nat then
        let batch_ids := slice i (i + BATCH_SIZE) ids in
        let batch_id := uuidv4 n in
        let st1 :=
          set_batchStatuses
            (<[batch_id := {| bs_batch_id := batch_id; bs_ids := batch_ids;
                              bs_status := yet_to_start |}]> (batchStatuses st))
            st in
        let batches1 := batches ++ [batch_id] in
        let st2 :=
          set_queue
            (enqueue queue_comparator
               {| batch_id := batch_id; ids := batch_ids; priority := priority;
                  created_time := created_time; ingestion_id := ingestion_id |}
               (queue st1)) st1 in
        split_loop fuel' (i + BATCH_SIZE) (S n) ids priority created_time
                   ingestion_id uuidv4 batches1 st2
      else (batches, st)
  end.

(** Lines 108-121: the job and its batches are written and enqueued. *)
Definition create_job (ids : list Z) (priority : Priority) (now : Z)
    (uuidv4 : nat → uuid) (st : Store) : uuid * list uuid * Store :=
  let ingestion_id := uuidv4 0%nat in
  let created_time := now in
  let '(batches, st1) :=
    split_loop (length ids) 0 1 ids priority created_time ingestion_id
               uuidv4 [] st in
  let st2 :=
    set_ingestionJobs
      (<[ingestion_id :=
          {| j_ingestion_id := ingestion_id; j_status := yet_to_start;
             j_batches := batches; j_priority := priority;
             j_created_time := created_time |}]> (ingestionJobs st1)) st1 in
  (ingestion_id, batches, st2).

(** Whether line 125 was reached, and how the call ended. *)
Inductive Trigger := NotStarted | Started (o : Outcome).

(** Lines 123-126. *)
Definition trigger (batches : list uuid) (now : Z) (st : Store)
  : Store * Trigger :=
  if bool_decide (queue_length (queue st) = length batches) then
    let '(st', o) := processBatches now st in (st', Started o)
  else (st, NotStarted).

Definition ingest (body : Body) (now : Z) (uuidv4 : nat → uuid) (st : Store)
  : Response * Store * Trigger :=
  let ids := body_ids body in
  let priority := default_LOW (body_priority body) in
  match ids with
  | JsArray elems =>
      if bool_decide (length elems = 0%nat) || negb (forallb id_ok elems) then
        ({| res_status := 400; res_json := ErrorJson "Invalid IDs" |},
         st, NotStarted)
      else
        match known_priority priority with
        | None =>
            ({| res_status := 400; res_json := ErrorJson "Invalid priority" |},
             st, NotStarted)
        | Some p =>
            let '(ingestion_id, batches, st1) :=
              create_job (numbers elems) p now uuidv4 st in
            let '(st2, t) := trigger batches now st1 in
            ({| res_status := 200; res_json := IngestJson ingestion_id |},
             st2, t)
        end
  | _ =>
      ({| res_status := 400; res_json := ErrorJson "Invalid IDs" |},
       st, NotStarted)
  end.

(** ** [GET /status/:ingestion_id] (lines 132-146) *)

Definition get_status (ingestion_id : uuid) (st : Store) : Response :=
  match ingestionJobs st !! ingestion_id with
  | None =>
      {| res_status := 404; res_json := ErrorJson "Ingestion ID not found" |}
  | Some job =>
      {| res_status := 200;
         res_json := StatusJson ingestion_id (j_status job)
                       ((λ b, batchStatuses st !! b) <$> j_batches job) |}
  end.

(** ** The server as a transition system

    Between two [await]s the program runs alone; what interleaves are the
    requests and the resumptions of the suspended runs. [runs] holds the
    runs of [processBatches] that are suspended, oldest first. *)

Record System := mkSystem {
  store : Store;
  runs : list Continuation;
  clock : Z
}.

Definition initial_system : System :=
  {| store := initial_store; runs := []; clock := 0 |}.

(** The store and the runs once a stretch of a run has ended. A run that
    threw is reported by the [.catch] of line 125 and is gone. *)
Definition settle (i : option nat) (r : Store * Outcome) (rs : list Continuation)
  : Store * list Continuation :=
  let rs' := match i with Some i => delete i rs | None => rs end in
  match r with
  | (st, Suspended k) =>
      (st, match i with Some i => <[i := k]> rs | None => rs ++ [k] end)
  | (st, Returned) => (st, rs')
  | (st, Thrown) => (emit RunError st, rs')
  | (st, OutOfFuel) => (st, rs')
  end.

(** The identifiers [uuidv4] returns for its first [k] calls. *)
Definition drawn (uuidv4 : nat → uuid) (k : nat) : list uuid :=
  uuidv4 <$> seq 0 k.

(** What is assumed of [uuidv4]: the identifiers it returns are distinct
    and are not keys of the store yet. *)
Definition fresh (uuidv4 : nat → uuid) (k : nat) (st : Store) : Prop :=
  NoDup (drawn uuidv4 k)
  ∧ Forall (λ u, ingestionJobs st !! u = None ∧ batchStatuses st !! u = None)
           (drawn uuidv4 k).

#[global] Instance fresh_dec uuidv4 k st : Decision (fresh uuidv4 k st).
Proof. unfold fresh. apply _. Defined.

(** An upper bound on the calls of [uuidv4()] a request makes. *)
Definition draws (body : Body) : nat :=
  match body_ids body with
  | JsArray elems => S (length elems)
  | _ => O
  end.

Inductive Action :=
| PostIngest (body : Body) (uuidv4 : nat → uuid)
| GetStatus (ingestion_id : uuid)
| TimerFires (i : nat)
| FetchSettles (i : nat) (ok : bool).

(** [step s a now s']: at time [now] the action [a] takes [s] to [s'].
    Time does not run backwards, a timer does not fire early. *)
Inductive step : System → Action → Z → System → Prop :=
| step_ingest s body uuidv4 now resp st' t st'' rs'' :
    clock s ≤ now →
    fresh uuidv4 (draws body) (store s) →
    ingest body now uuidv4 (store s) = (resp, st', t) →
    (st'', rs'') = match t with
                   | NotStarted => (st', runs s)
                   | Started o => settle None (st', o) (runs s)
                   end →
    step s (PostIngest body uuidv4) now
         {| store := st''; runs := rs''; clock := now |}
| step_status s ingestion_id now :
    clock s ≤ now →
    step s (GetStatus ingestion_id) now
         {| store := store s; runs := runs s; clock := now |}
| step_timer s i wake now st' rs' :
    clock s ≤ now →
    runs s !! i = Some (AwaitRateLimit wake) →
    wake ≤ now →
    (st', rs') = settle (Some i) (resume (AwaitRateLimit wake) true now (store s))
                        (runs s) →
    step s (TimerFires i) now {| store := st'; runs := rs'; clock := now |}
| step_fetch s i batch id rest ok now st' rs' :
    clock s ≤ now →
    runs s !! i = Some (AwaitFetch batch id rest) →
    (st', rs') = settle (Some i) (resume (AwaitFetch batch id rest) ok now (store s))
                        (runs s) →
    step s (FetchSettles i ok) now {| store := st'; runs := rs'; clock := now |}.

Inductive reachable : System → Prop :=
| reachable_initial : reachable initial_system
| reachable_step s a now s' : reachable s → step s a now s' → reachable s'.

(** Runs a list of timed actions from a state, when each is enabled. *)
Inductive steps : System → list (Action * Z) → System → Prop :=
| steps_nil s : steps s [] s
| steps_cons s a now s' l s'' :
    step s a now s' → steps s' l s'' → steps s ((a, now) :: l) s''.

(** ** The order of the scheduler, as propositions *)

(** The pair the comparator looks at. *)
Definition rank_time (e : QueueItem) : Priority * Z :=
  (priority e, created_time e).

(** [a] goes strictly before [b]: lower rank, or the same rank and an
    earlier [created_time]. *)
Definition strictly_before (a b : QueueItem) : Prop :=
  priorityOrder (priority a) < priorityOrder (priority b)
  ∨ (priorityOrder (priority a) = priorityOrder (priority b)
     ∧ created_time a < created_time b).


(** ** The groups of a submission, as the specification words them

    Consecutive groups of [BATCH_SIZE] identifiers in input order, the
    last one holding what is left. *)

Definition group_count (ids : list Z) : nat :=
  ((length ids + (BATCH_SIZE - 1)) / BATCH_SIZE)%nat.

Definition group (k : nat) (ids : list Z) : list Z :=
  take BATCH_SIZE (drop (k * BATCH_SIZE) ids).

Definition groups (ids : list Z) : list (list Z) :=
  (λ k, group k ids) <$> seq 0 (group_count ids).

(** The queue entry of the [k]-th group of a submission: the identifier
    of the job is the first one drawn, that of the group the [k+2]-th. *)
Definition job_item (ids : list Z) (p : Priority) (now : Z)
    (uuidv4 : nat → uuid) (k : nat) : QueueItem :=
  {| batch_id := uuidv4 (S k); ids := group k ids; priority := p;
     created_time := now; ingestion_id := uuidv4 0%nat |}.

Definition job_items (ids : list Z) (p : Priority) (now : Z)
    (uuidv4 : nat → uuid) : list QueueItem :=
  job_item ids p now uuidv4 <$> seq 0 (group_count ids).

(** One round of the loop of lines 113-119, for a given entry. *)
Definition add_batch (st : Store) (e : QueueItem) : Store :=
  let st1 :=
    set_batchStatuses
      (<[batch_id e := {| bs_batch_id := batch_id e; bs_ids := ids e;
                          bs_status := yet_to_start |}]> (batchStatuses st)) st in
  set_queue (enqueue queue_comparator e (queue st1)) st1.

(** The string a priority is written with. *)
Definition priority_string (p : Priority) : string :=
  match p with HIGH => "HIGH" | MEDIUM => "MEDIUM" | LOW => "LOW" end.

(** A submission the specification calls valid: a non-empty array of
    integers between 1 and 1000000007, and a priority that is absent or
    one of the three names. *)
Definition valid_submission (body : Body) : Prop :=
  ∃ (nums : list Z) (p : Priority),
    nums ≠ []
    ∧ Forall (λ n, 1 ≤ n ≤ 1000000007) nums
    ∧ body_ids body = JsArray (JsInt <$> nums)
    ∧ (body_priority body = JsUndefined
       ∨ body_priority body = JsString (priority_string p)).

(** The priority a valid submission asks for. *)
Definition priority_of (v : JsValue) (p : Priority) : Prop :=
  (v = JsUndefined ∧ p = LOW) ∨ v = JsString (priority_string p).


(** The statuses [updateIngestionStatus] reads for a job: one per batch
    id, [None] where the batch is not in [batchStatuses]. *)
Definition statuses_read (job : Job) (st : Store) : list (option Status) :=
  (λ b, bs_status <$> batchStatuses st !! b) <$> j_batches job.


(** ** Sample inputs

    Identifiers for the samples: a tag followed by one letter that counts
    the calls of [uuidv4()]. *)

Definition sample_uuid (tag : string) (n : nat) : uuid :=
  tag +:+ String (Ascii.ascii_of_nat (97 + n)) "".

(** Scenario A of the specification: [ids = [1,2,3,4]], [priority = "HIGH"]. *)
Definition body_A : Body :=
  {| body_ids := JsArray [JsInt 1; JsInt 2; JsInt 3; JsInt 4];
     body_priority := JsString "HIGH" |}.

(** The job of scenario A with its first batch done and its second one
    still waiting: the state between two rounds of the dispatcher. *)
Definition job_A : Job :=
  {| j_ingestion_id := "A-a"; j_status := triggered;
     j_batches := ["A-b"; "A-c"]; j_priority := HIGH;
     j_created_time := 1000000 |}.

Definition records_between_rounds : list BatchStatus :=
  [ {| bs_batch_id := "A-b"; bs_ids := [1; 2; 3]; bs_status := completed |};
    {| bs_batch_id := "A-c"; bs_ids := [4]; bs_status := yet_to_start |} ].

Definition store_between_rounds : Store :=
  {| ingestionJobs := {[ "A-a" := job_A ]};
     batchStatuses :=
       list_to_map ((λ r, (bs_batch_id r, r)) <$> records_between_rounds);
     queue :=
       {| items := [ {| batch_id := "A-c"; ids := [4]; priority := HIGH;
                        created_time := 1000000; ingestion_id := "A-a" |} ] |};
     lastProcessedTime := 1003000;
     trace := [] |}.


(** ** Reading the trace *)

Definition fetch_calls (tr : list Event) : list Z :=
  omap (λ e, match e with FetchCall id => Some id | _ => None end) tr.

Definition console_errors (tr : list Event) : list Z :=
  omap (λ e, match e with ConsoleError id => Some id | _ => None end) tr.

(** The batches marked [triggered], with the time of line 64, in order. *)
Definition dispatches (tr : list Event) : list (uuid * Z) :=
  omap (λ e, match e with Dispatched b t => Some (b, t) | _ => None end) tr.

(** The time recorded at line 78 for a batch, if it was. *)
Definition completion_time (tr : list Event) (b : uuid) : option Z :=
  head (omap (λ e, match e with
                   | Completed b' t => if decide (b' = b) then Some t else None
                   | _ => None
                   end) tr).

(** The spacing the specification asks of two batches dispatched one
    after the other: the first was completed, and the second was marked
    [triggered] no sooner than [RATE_LIMIT_MS] after that. *)
Definition spaced (tr : list Event) : Prop :=
  ∀ i b1 t1 b2 t2,
    dispatches tr !! i = Some (b1, t1) →
    dispatches tr !! S i = Some (b2, t2) →
    ∃ tc, completion_time tr b1 = Some tc ∧ tc + RATE_LIMIT_MS ≤ t2.

(** ** Settling the external calls of one run

    Each element of [results] settles the call the run is waiting on: it
    tells whether the call was fulfilled and when. *)

Fixpoint settle_calls (results : list (bool * Z)) (r : Store * Outcome)
  : Store * Outcome :=
  match results, r with
  | (ok, now) :: results', (st, Suspended (AwaitFetch batch id rest)) =>
      settle_calls results' (resume (AwaitFetch batch id rest) ok now st)
  | _, _ => r
  end.

(** The identifiers whose call was rejected. *)
Fixpoint failed_ids (l : list Z) (results : list (bool * Z)) : list Z :=
  match l, results with
  | id :: l', (ok, _) :: results' =>
      if ok then failed_ids l' results' else id :: failed_ids l' results'
  | _, _ => []
  end.

(** ** Invariants of the store *)

Definition status_rank (s : Status) : Z :=
  match s with yet_to_start => 0 | triggered => 1 | completed => 2 end.

(** Every batch a job lists has its record. *)
Definition jobs_recorded (st : Store) : Prop :=
  ∀ id job, ingestionJobs st !! id = Some job →
    Forall (λ b, is_Some (batchStatuses st !! b)) (j_batches job).

Definition queue_ids (st : Store) : list uuid := batch_id <$> items (queue st).

(** The queue holds each batch once, and only batches not started. *)
Definition store_ok (st : Store) : Prop :=
  NoDup (queue_ids st)
  ∧ Forall (λ u, bs_status <$> (batchStatuses st !! u) = Some yet_to_start)
           (queue_ids st)
  ∧ jobs_recorded st.

(** The batch of a run that waits on the external call has left the
    queue and has its record. *)
Definition batch_in_flight (st : Store) (b : QueueItem) : Prop :=
  (batch_id b ∉ queue_ids st) ∧ is_Some (batchStatuses st !! batch_id b).

Definition run_ok (st : Store) (k : Continuation) : Prop :=
  match k with
  | AwaitFetch b _ _ => batch_in_flight st b
  | AwaitRateLimit _ => True
  end.

Definition point_ok (st : Store) (pt : Point) : Prop :=
  match pt with
  | ItemLoop b _ => batch_in_flight st b
  | _ => True
  end.

Definition outcome_ok (st : Store) (o : Outcome) : Prop :=
  match o with
  | Suspended k => run_ok st k
  | _ => True
  end.

Definition system_ok (s : System) : Prop :=
  store_ok (store s) ∧ Forall (run_ok (store s)) (runs s).

(** No record is lost and no status goes back. *)
Definition statuses_advance (st st' : Store) : Prop :=
  ∀ u r, batchStatuses st !! u = Some r →
    ∃ r', batchStatuses st' !! u = Some r'
          ∧ status_rank (bs_status r) ≤ status_rank (bs_status r').


(** The store of scenario A at line 121, and the results of the three
    calls of its first batch: the second call is rejected. *)
Definition store_A : Store :=
  (create_job [1; 2; 3; 4] HIGH 1000000 (sample_uuid "A-") initial_store).2.

Definition results_A : list (bool * Z) :=
  [(true, 1001000); (false, 1002000); (true, 1003000)].


(** The changes a stretch of the dispatcher makes: the store stays well
    formed, no status goes back, nothing enters the queue. *)
Definition evolves (st st' : Store) : Prop :=
  store_ok st' ∧ statuses_advance st st' ∧ queue_ids st' ⊆ queue_ids st.


(** ** Running the server

    [do_action] computes the state a step leads to, when the step is
    enabled; it serves to run the samples. *)

Definition do_action (a : Action) (now : Z) (s : System) : option System :=
  if bool_decide (clock s ≤ now) then
    match a with
    | PostIngest body uuidv4 =>
        if bool_decide (fresh uuidv4 (draws body) (store s)) then
          let r := ingest body now uuidv4 (store s) in
          let r' := match r.2 with
                    | NotStarted => (r.1.2, runs s)
                    | Started o => settle None (r.1.2, o) (runs s)
                    end in
          Some {| store := r'.1; runs := r'.2; clock := now |}
        else None
    | GetStatus _ => Some {| store := store s; runs := runs s; clock := now |}
    | TimerFires i =>
        match runs s !! i with
        | Some (AwaitRateLimit wake) =>
            if bool_decide (wake ≤ now) then
              let r' := settle (Some i)
                          (resume (AwaitRateLimit wake) true now (store s)) (runs s) in
              Some {| store := r'.1; runs := r'.2; clock := now |}
            else None
        | _ => None
        end
    | FetchSettles i ok =>
        match runs s !! i with
        | Some (AwaitFetch batch id rest) =>
            let r' := settle (Some i)
                        (resume (AwaitFetch batch id rest) ok now (store s)) (runs s) in
            Some {| store := r'.1; runs := r'.2; clock := now |}
        | _ => None
        end
    end
  else None.

Fixpoint do_actions (l : list (Action * Z)) (s : System) : option System :=
  match l with
  | [] => Some s
  | (a, now) :: l' =>
      match do_action a now s with
      | Some s' => do_actions l' s'
      | None => None
      end
  end.

(** Two submissions of one identifier each, half a second apart, on a
    server that has just started; then the call of the first one is
    fulfilled. Times are milliseconds since the epoch. *)
Definition body_one : Body :=
  {| body_ids := JsArray [JsInt 1]; body_priority := JsUndefined |}.

Definition body_two : Body :=
  {| body_ids := JsArray [JsInt 2]; body_priority := JsUndefined |}.

Definition overlap : list (Action * Z) :=
  [ (PostIngest body_one (sample_uuid "A-"), 1700000000000);
    (PostIngest body_two (sample_uuid "B-"), 1700000000500);
    (FetchSettles 0 true, 1700000001000) ].


(** The state the server is in after the given actions. *)
Definition after (l : list (Action * Z)) : System :=
  default initial_system (do_actions l initial_system).


(** A stretch of the dispatcher either leaves the run suspended or ends
    it on an empty queue. *)
Definition suspended_or_drained (r : Store * Outcome) : Prop :=
  (∃ k, r.2 = Suspended k)
  ∨ ((r.2 = Returned ∨ r.2 = Thrown) ∧ items (queue r.1) = []).

(** Entries in the queue have a run that will come to them. *)
Definition has_worker (s : System) : Prop :=
  items (queue (store s)) ≠ [] → runs s ≠ [].


(** ** Further notions for the properties below *)

(** An [ids] value line 101 lets through. *)
Definition valid_ids (v : JsValue) : Prop :=
  ∃ nums : list Z,
    nums ≠ [] ∧ Forall (λ n, 1 ≤ n ≤ 1000000007) nums ∧ v = JsArray (JsInt <$> nums).

(** The order the queue is kept in: no later entry goes strictly
    before an earlier one. *)
Definition in_queue_order (l : list QueueItem) : Prop :=
  StronglySorted (λ a b, ¬ strictly_before b a) l.

(** The records, or [undefined], that line 87 collects for a job. *)
Definition records_read (job : Job) (st : Store) : list (option BatchStatus) :=
  (λ b, batchStatuses st !! b) <$> j_batches job.


(** The record lines 64, 76 and 116 write for an entry. *)
Definition record_of (e : QueueItem) (s : Status) : BatchStatus :=
  {| bs_batch_id := batch_id e; bs_ids := ids e; bs_status := s |}.

(** The expression of line 92, on records that are all there. *)
Definition roll_up (recs : list BatchStatus) : Status :=
  if forallb (has_status yet_to_start) recs then yet_to_start
  else if existsb (has_status triggered) recs then triggered
  else completed.

(** The status of the job is what the roll-up gives on its batches. *)
Definition job_consistent (st : Store) (job : Job) : Prop :=
  ∃ recs, records_read job st = Some <$> recs ∧ j_status job = roll_up recs.

(** Only the job an entry names lists the batch of the entry. *)
Definition owned (st : Store) (e : QueueItem) : Prop :=
  ∀ id job, ingestionJobs st !! id = Some job →
    batch_id e ∈ j_batches job → id = ingestion_id e.

Definition keys_match (st : Store) : Prop :=
  ∀ u r, batchStatuses st !! u = Some r → bs_batch_id r = u.

Definition entries_ok (st : Store) : Prop :=
  Forall (λ e, batchStatuses st !! batch_id e = Some (record_of e yet_to_start)
               ∧ owned st e)
         (items (queue st)).

Definition jobs_ok (st : Store) : Prop :=
  ∀ id job, ingestionJobs st !! id = Some job →
    j_ingestion_id job = id ∧ job_consistent st job.

(** The batches marked [triggered] so far, in order. *)
Definition dispatched (st : Store) : list uuid := (dispatches (trace st)).*1.

Definition dispatched_ok (st : Store) : Prop :=
  NoDup (dispatched st)
  ∧ Forall (λ b, (b ∉ queue_ids st) ∧ is_Some (batchStatuses st !! b))
           (dispatched st).

Definition sound (st : Store) : Prop :=
  store_ok st ∧ keys_match st ∧ entries_ok st ∧ jobs_ok st ∧ dispatched_ok st.

(** What holds of the batch a run is working on. *)
Definition flying (st : Store) (b : QueueItem) : Prop :=
  batch_in_flight st b
  ∧ (∃ s, batchStatuses st !! batch_id b = Some (record_of b s))
  ∧ owned st b.

Definition run_flying (st : Store) (k : Continuation) : Prop :=
  match k with
  | AwaitFetch b _ _ => flying st b
  | AwaitRateLimit _ => True
  end.

Definition point_flying (st : Store) (pt : Point) : Prop :=
  match pt with
  | ItemLoop b _ => flying st b
  | _ => True
  end.

Definition outcome_flying (st : Store) (o : Outcome) : Prop :=
  match o with
  | Suspended k => run_flying st k
  | _ => True
  end.

(** Records keep their identifiers and never lose ground. *)
Definition records_kept (st st' : Store) : Prop :=
  ∀ u r, batchStatuses st !! u = Some r →
    ∃ r', batchStatuses st' !! u = Some r'
          ∧ bs_batch_id r' = bs_batch_id r ∧ bs_ids r' = bs_ids r
          ∧ status_rank (bs_status r) ≤ status_rank (bs_status r').

(** Jobs keep their identifier, their batches, their priority and their
    time; only their status moves. *)
Definition jobs_kept (st st' : Store) : Prop :=
  ∀ id job, ingestionJobs st !! id = Some job →
    ∃ s, ingestionJobs st' !! id = Some (with_status s job).

Definition proceeds (st st' : Store) : Prop :=
  sound st' ∧ (∀ b, flying st b → flying st' b)
  ∧ records_kept st st' ∧ jobs_kept st st'.

Definition system_sound (s : System) : Prop :=
  sound (store s) ∧ Forall (run_flying (store s)) (runs s).

(** The events that mark no batch. *)
Definition is_log (e : Event) : Prop :=
  match e with
  | FetchCall _ | ConsoleError _ | RunError => True
  | _ => False
  end.


(** ** One run at a time *)

(** At most one run of [processBatches] is suspended. *)
Definition solo (s : System) : Prop := (length (runs s) ≤ 1)%nat.

(** Steps of the server after each of which at most one run is there. *)
Inductive solo_steps : System → list (Action * Z) → System → Prop :=
| solo_steps_nil s : solo_steps s [] s
| solo_steps_cons s a now s' l s'' :
    step s a now s' → solo s' → solo_steps s' l s'' →
    solo_steps s ((a, now) :: l) s''.

(** The batch dispatched last, if any, has been completed. *)
Definition last_done (tr : list Event) : Prop :=
  ∀ b t, last (dispatches tr) = Some (b, t) → is_Some (completion_time tr b).

(** The trace is spaced, and no completion is later than [lastT]. *)
Definition paced_trace (tr : list Event) (lastT : Z) : Prop :=
  spaced tr ∧ ∀ b tc, completion_time tr b = Some tc → tc ≤ lastT.

(** Where the one run stands, if there is one. *)
Definition run_paced (st : Store) (rs : list Continuation) : Prop :=
  match rs with
  | [] => last_done (trace st)
  | [AwaitRateLimit wake] =>
      last_done (trace st) ∧ lastProcessedTime st + RATE_LIMIT_MS ≤ wake
  | [AwaitFetch b _ _] =>
      ∃ t, last (dispatches (trace st)) = Some (batch_id b, t)
  | _ => True
  end.

(** No entry of the queue is a batch without ids. *)
Definition nonempty_batches (st : Store) : Prop :=
  Forall (λ e, ids e ≠ []) (items (queue st)).

Definition store_paced (now : Z) (st : Store) : Prop :=
  paced_trace (trace st) (lastProcessedTime st)
  ∧ lastProcessedTime st ≤ now
  ∧ nonempty_batches st
  ∧ jobs_recorded st.

Definition paced (s : System) : Prop :=
  store_paced (clock s) (store s) ∧ run_paced (store s) (runs s).

(** What a stretch of the one run leaves. *)
Definition stretch_paced (now : Z) (r : Store * Outcome) : Prop :=
  store_paced now r.1
  ∧ match r.2 with
    | Suspended k => run_paced r.1 [k]
    | Returned | Thrown => last_done (trace r.1)
    | OutOfFuel => False
    end.


(** [do_actions], refusing a step that leaves more than one run. *)
Fixpoint do_solo_actions (l : list (Action * Z)) (s : System) : option System :=
  match l with
  | [] => Some s
  | (a, now) :: l' =>
      match do_action a now s with
      | Some s' =>
          if bool_decide (length (runs s') ≤ 1)%nat then do_solo_actions l' s'
          else None
      | None => None
      end
  end.

(** Scenario A with nobody else around: the three calls of the first
    batch, the wait at the gate, the call of the second batch. *)
Definition alone : list (Action * Z) :=
  [ (PostIngest body_A (sample_uuid "A-"), 1700000000000);
    (FetchSettles 0 true, 1700000001000);
    (FetchSettles 0 true, 1700000002000);
    (FetchSettles 0 true, 1700000003000);
    (TimerFires 0, 1700000008000);
    (FetchSettles 0 true, 1700000009000) ].


(** The records of a submission whose first batch has been dispatched
    and whose other batches wait. *)
Definition first_triggered (es : list QueueItem) : list BatchStatus :=
  match es with
  | [] => []
  | e0 :: tl => record_of e0 triggered :: ((λ e, record_of e yet_to_start) <$> tl)
  end.

(** The records of a submission none of whose batches has started. *)
Definition none_started (es : list QueueItem) : list BatchStatus :=
  (λ e, record_of e yet_to_start) <$> es.


(** No run has thrown so far. *)
Definition quiet (st : Store) : Prop := RunError ∉ trace st.

(** A stretch that neither throws nor leaves a run at the gate of an
    empty queue. *)
Definition stretch_calm (r : Store * Outcome) : Prop :=
  quiet r.1
  ∧ match r.2 with
    | Suspended (AwaitRateLimit _) => items (queue r.1) ≠ []
    | Suspended (AwaitFetch _ _ _) | Returned => True
    | Thrown | OutOfFuel => False
    end.

Definition calm (s : System) : Prop :=
  quiet (store s)
  ∧ ∀ wake, runs s = [AwaitRateLimit wake] → items (queue (store s)) ≠ [].


(** ** What is left to do *)

(** The outside resuming a run: a timer fires, or a call settles. *)
Definition is_event (a : Action) : Prop :=
  match a with
  | TimerFires _ | FetchSettles _ _ => True
  | PostIngest _ _ | GetStatus _ => False
  end.

(** The resumptions a suspended run can still take for the batch it
    holds: one for the call that is pending, one for each id the
    iterator has not produced, one for the wait at the gate after the
    batch. A run at the gate takes one. *)
Definition run_work (k : Continuation) : nat :=
  match k with
  | AwaitRateLimit _ => 1
  | AwaitFetch _ _ rest => 2 + length rest
  end.

(** The resumptions a queued entry costs the run that takes it: one for
    each of its ids, one for the wait at the gate after it. *)
Definition item_work (e : QueueItem) : nat := 1 + length (ids e).

Definition point_work (pt : Point) : nat :=
  match pt with
  | LoopHead => 1
  | AfterGate => 0
  | ItemLoop _ rest => 1 + length rest
  end.

Definition outcome_work (o : Outcome) : nat :=
  match o with
  | Suspended k => run_work k
  | _ => 0
  end.

Definition queue_work (st : Store) : nat :=
  sum_list_with item_work (items (queue st)).

Definition work (s : System) : nat :=
  sum_list_with run_work (runs s) + queue_work (store s).

(** A run is sending the batch [u]. *)
Definition sending (rs : list Continuation) (u : uuid) : Prop :=
  ∃ b id rest, AwaitFetch b id rest ∈ rs ∧ batch_id b = u.

Definition at_point (pt : Point) (u : uuid) : Prop :=
  match pt with
  | ItemLoop b _ => batch_id b = u
  | _ => False
  end.

Definition at_outcome (o : Outcome) (u : uuid) : Prop :=
  match o with
  | Suspended (AwaitFetch b _ _) => batch_id b = u
  | _ => False
  end.

(** Every record that is not [completed] is accounted for: the batch is
    in the queue if it is [yet_to_start], and with one of the holders [P]
    if it is [triggered]. And no job is without batches. *)
Definition accounted_for (st : Store) (P : uuid → Prop) : Prop :=
  (∀ u r, batchStatuses st !! u = Some r →
     match bs_status r with
     | yet_to_start => u ∈ queue_ids st
     | triggered => P u
     | completed => True
     end)
  ∧ ∀ id job, ingestionJobs st !! id = Some job → j_batches job ≠ [].

Definition accounted (s : System) : Prop :=
  accounted_for (store s) (sending (runs s)).

(** Every job of the store reads [completed], and so does every record. *)
Definition all_completed (st : Store) : Prop :=
  (∀ u r, batchStatuses st !! u = Some r → bs_status r = completed)
  ∧ ∀ id job, ingestionJobs st !! id = Some job → j_status job = completed.




(** ** Runs of the queue class, whatever its comparator *)

(** [enqueue] called on each item of a list in turn. *)
Definition enqueue_all {A} (cmp : A → A → Z) (es : list A) (q : PriorityQueue A)
  : PriorityQueue A :=
  foldl (λ q e, enqueue cmp e q) q es.

(** [dequeue] called [n] times: what the calls returned, in call order,
    and the queue they leave. *)
Fixpoint dequeue_n {A} (n : nat) (q : PriorityQueue A)
  : list (option A) * PriorityQueue A :=
  match n with
  | O => ([], q)
  | S n' =>
      let '(r, q') := dequeue q in
      let '(out, q'') := dequeue_n n' q' in (r :: out, q'')
  end.

(** * Properties *)

(** ** The stable sort *)

Section SortFacts.
Context {A K : Type} `{EqDecision K} (cmp : A → A → Z) (key : A → K).

Hypothesis cmp_tie : ∀ a b, key a = key b → cmp a b ≤ 0.
Hypothesis cmp_total : ∀ a b, cmp a b ≤ 0 ∨ cmp b a ≤ 0.
Hypothesis cmp_trans : ∀ a b c, cmp a b ≤ 0 → cmp b c ≤ 0 → cmp a c ≤ 0.
Hypothesis cmp_antisym : ∀ a b, cmp a b ≤ 0 → cmp b a ≤ 0 → key a = key b.

Let before (a b : A) : Prop := cmp a b ≤ 0.

Lemma insert_sorted_perm x l : insert_sorted cmp x l ≡ₚ x :: l.
Proof.
  induction l as [|y l IH]; simpl; [done|].
  destruct (cmp x y <=? 0); [done|].
  rewrite IH. apply Permutation_swap.
Qed.

Lemma sort_perm l : sort cmp l ≡ₚ l.
Proof.
  induction l as [|x l IH]; simpl; [done|].
  by rewrite insert_sorted_perm, IH.
Qed.

Lemma insert_sorted_tied k x l :
  filter (tied key k) (insert_sorted cmp x l) = filter (tied key k) (x :: l).
Proof.
  induction l as [|y l IH]; simpl; [done|].
  destruct (cmp x y <=? 0) eqn:Hxy; [done|].
  apply Z.leb_gt in Hxy.
  rewrite (filter_cons _ y), IH, !filter_cons.
  destruct (decide (tied key k y)) as [Hy|Hy], (decide (tied key k x)) as [Hx|Hx];
    try done.
  unfold tied in *. assert (cmp x y ≤ 0) by (apply cmp_tie; congruence). lia.
Qed.

Lemma sort_tied k l : filter (tied key k) (sort cmp l) = filter (tied key k) l.
Proof.
  induction l as [|x l IH]; simpl; [done|].
  by rewrite insert_sorted_tied, !filter_cons, IH.
Qed.

Lemma insert_sorted_sorted x l :
  StronglySorted before l → StronglySorted before (insert_sorted cmp x l).
Proof.
  induction 1 as [|y l Hl IH Hy]; simpl.
  - repeat constructor.
  - destruct (cmp x y <=? 0) eqn:Hxy.
    + apply Z.leb_le in Hxy. constructor; [by constructor|].
      constructor; [done|].
      eapply Forall_impl; [exact Hy|]. intros z Hz. by eapply cmp_trans.
    + apply Z.leb_gt in Hxy. constructor; [done|].
      rewrite insert_sorted_perm. constructor; [|done].
      unfold before. destruct (cmp_total x y); lia.
Qed.

Lemma sort_sorted l : StronglySorted before (sort cmp l).
Proof.
  induction l; simpl; [constructor|by apply insert_sorted_sorted].
Qed.

Lemma tied_elem_of k (x : A) (l : list A) : x ∈ filter (tied key k) l → x ∈ l.
Proof. rewrite list_elem_of_filter. tauto. Qed.

(** A sorted list is determined by its classes of tied elements. *)
Lemma sorted_tied_unique l1 l2 :
  StronglySorted before l1 → StronglySorted before l2 →
  (∀ k, filter (tied key k) l1 = filter (tied key k) l2) → l1 = l2.
Proof.
  intros H1. revert l2.
  induction H1 as [|a l1 Hl1 IH Ha]; intros l2 H2 Hf.
  - destruct l2 as [|b l2]; [done|].
    specialize (Hf (key b)). rewrite filter_cons_True in Hf by done. done.
  - destruct H2 as [|b l2 Hl2 Hb].
    + specialize (Hf (key a)). rewrite filter_cons_True in Hf by done. done.
    + assert (key a = key b) as Hk.
      { destruct (decide (key a = key b)) as [|Hne]; [done|].
        assert (a ∈ l2) as Ha2.
        { pose proof (Hf (key a)) as E.
          rewrite filter_cons_True, filter_cons_False in E by (unfold tied; done).
          eapply tied_elem_of. rewrite <- E. left. }
        assert (b ∈ l1) as Hb1.
        { pose proof (Hf (key b)) as E.
          rewrite filter_cons_False, filter_cons_True in E by (unfold tied; done).
          eapply tied_elem_of. rewrite E. left. }
        rewrite Forall_forall in Ha, Hb.
        apply cmp_antisym; [by apply Ha|by apply Hb]. }
      assert (a = b) as ->.
      { pose proof (Hf (key a)) as E.
        rewrite !filter_cons_True in E by (unfold tied; done). congruence. }
      f_equal. apply IH; [done|]. intros k. specialize (Hf k).
      rewrite !filter_cons in Hf. destruct (decide (tied key k b)); congruence.
Qed.

(** Sorting again after a push gives what one sort of everything gives. *)
Lemma sort_push l e : sort cmp (sort cmp l ++ [e]) = sort cmp (l ++ [e]).
Proof.
  apply sorted_tied_unique; [apply sort_sorted..|].
  intros k. by rewrite !sort_tied, !filter_app, sort_tied.
Qed.
End SortFacts.

(** ** The comparator of the queue *)

Lemma priorityOrder_inj p1 p2 : priorityOrder p1 = priorityOrder p2 → p1 = p2.
Proof. by destruct p1, p2. Qed.

Lemma queue_comparator_le a b :
  queue_comparator a b ≤ 0 ↔ ¬ strictly_before b a.
Proof.
  unfold queue_comparator, strictly_before.
  destruct (priorityOrder (priority a) =? priorityOrder (priority b)) eqn:E; simpl.
  - apply Z.eqb_eq in E. lia.
  - apply Z.eqb_neq in E. lia.
Qed.

(** The table of the program gives the order of the specification. *)
Lemma precedes_priorityOrder p1 p2 :
  precedes p1 p2 = true ↔ priorityOrder p1 < priorityOrder p2.
Proof. destruct p1, p2; simpl; split; done || lia. Qed.

Lemma spec_before_strictly a b : spec_before a b ↔ strictly_before a b.
Proof.
  unfold spec_before, strictly_before. rewrite precedes_priorityOrder.
  split; (intros [H|[H1 H2]]; [by left|right; split; [|done]]).
  - by rewrite H1.
  - by apply priorityOrder_inj.
Qed.

Lemma rank_time_le_comparator a b :
  rank_time_le a b = (queue_comparator a b <=? 0).
Proof.
  unfold rank_time_le, queue_comparator.
  destruct (created_time a <=? created_time b) eqn:E1,
           (created_time a - created_time b <=? 0) eqn:E2;
    try lia; by destruct (priority a), (priority b).
Qed.

Lemma rank_time_le_true a b : rank_time_le a b = true ↔ ¬ strictly_before b a.
Proof.
  rewrite rank_time_le_comparator, Z.leb_le. apply queue_comparator_le.
Qed.

Lemma rank_time_le_false a b : rank_time_le a b = false ↔ strictly_before b a.
Proof.
  rewrite <- not_true_iff_false, rank_time_le_true.
  unfold strictly_before. lia.
Qed.

Lemma queue_comparator_tie a b :
  rank_time a = rank_time b → queue_comparator a b ≤ 0.
Proof.
  intros [= Hp Ht]. apply queue_comparator_le. unfold strictly_before.
  rewrite Hp, Ht. lia.
Qed.

Lemma queue_comparator_total a b :
  queue_comparator a b ≤ 0 ∨ queue_comparator b a ≤ 0.
Proof. rewrite !queue_comparator_le. unfold strictly_before. lia. Qed.

Lemma queue_comparator_trans a b c :
  queue_comparator a b ≤ 0 → queue_comparator b c ≤ 0 → queue_comparator a c ≤ 0.
Proof. rewrite !queue_comparator_le. unfold strictly_before. lia. Qed.

Lemma queue_comparator_antisym a b :
  queue_comparator a b ≤ 0 → queue_comparator b a ≤ 0 → rank_time a = rank_time b.
Proof.
  rewrite !queue_comparator_le. unfold strictly_before, rank_time. intros H1 H2.
  assert (priorityOrder (priority a) = priorityOrder (priority b)) as Hp by lia.
  f_equal; [by apply priorityOrder_inj|lia].
Qed.

Lemma queue_sort_push l e :
  sort queue_comparator (sort queue_comparator l ++ [e])
  = sort queue_comparator (l ++ [e]).
Proof.
  apply (sort_push queue_comparator rank_time);
    eauto using queue_comparator_tie, queue_comparator_total,
                queue_comparator_trans, queue_comparator_antisym.
Qed.

(** ** The queue against the scheduler of the specification *)

Lemma spec_extract_sort l x :
  sort queue_comparator (x :: l)
  = (spec_extract x l).1 :: sort queue_comparator (spec_extract x l).2.
Proof.
  revert x. induction l as [|y l IH]; intros x; [done|].
  change (sort queue_comparator (x :: y :: l))
    with (insert_sorted queue_comparator x (sort queue_comparator (y :: l))).
  pose proof (IH y) as IHy. rewrite IHy. simpl.
  destruct (spec_extract y l) as [m r]. simpl in *.
  rewrite rank_time_le_comparator.
  destruct (queue_comparator x m <=? 0); simpl; [|done].
  by rewrite IHy.
Qed.

Lemma spec_extract_least_first l x :
  ∃ l1 l2, x :: l = l1 ++ (spec_extract x l).1 :: l2
    ∧ (spec_extract x l).2 = l1 ++ l2
    ∧ Forall (strictly_before (spec_extract x l).1) l1
    ∧ Forall (λ y, ¬ strictly_before y (spec_extract x l).1) l2.
Proof.
  revert x. induction l as [|y l IH]; intros x.
  - by exists [], [].
  - simpl. destruct (IH y) as (l1 & l2 & E & Er & H1 & H2).
    destruct (spec_extract y l) as [m r]. simpl in *.
    destruct (rank_time_le x m) eqn:Hxm; simpl.
    + exists [], (y :: l). split; [done|]. split; [done|].
      split; [constructor|]. rewrite E.
      apply rank_time_le_true in Hxm.
      rewrite Forall_app, Forall_cons. split; [|split]; [|done|].
      * eapply Forall_impl; [exact H1|]. unfold strictly_before in *. intros; lia.
      * eapply Forall_impl; [exact H2|]. unfold strictly_before in *. intros; lia.
    + exists (x :: l1), l2. rewrite E, Er. split; [done|]. split; [done|].
      split; [|done]. constructor; [|done]. by apply rank_time_le_false.
Qed.

Lemma run_ops_refines ops q pending :
  items q = sort queue_comparator pending →
  (run_ops ops q).2 = (spec_run ops pending).2
  ∧ items (run_ops ops q).1 = sort queue_comparator (spec_run ops pending).1.
Proof.
  revert q pending. induction ops as [|[e|] ops IH]; intros q pending Hq; simpl.
  - done.
  - apply IH. simpl. by rewrite Hq, queue_sort_push.
  - unfold dequeue, spec_dequeue. destruct pending as [|x l].
    + rewrite Hq. simpl. specialize (IH q [] Hq).
      destruct (run_ops ops q), (spec_run ops []). simpl in *.
      destruct IH as [-> ->]. done.
    + rewrite Hq, spec_extract_sort.
      destruct (spec_extract x l) as [m r]. simpl.
      specialize (IH {| items := sort queue_comparator r |} r eq_refl).
      destruct (run_ops ops _), (spec_run ops r). simpl in *.
      destruct IH as [-> ->]. done.
Qed.

(** Nothing is lost and nothing is doubled: what went in is what came
    out together with what is still there. *)
Lemma run_ops_conserves ops q :
  items q ++ enqueued ops ≡ₚ returned (run_ops ops q).2 ++ items (run_ops ops q).1.
Proof.
  revert q. induction ops as [|[e|] ops IH]; intros q; simpl.
  - by rewrite app_nil_r.
  - rewrite <- IH. simpl.
    rewrite (sort_perm queue_comparator). rewrite <- app_assoc. done.
  - unfold dequeue. destruct (items q) as [|x rest] eqn:Hq.
    + specialize (IH q). destruct (run_ops ops q) as [qf out]. simpl in *.
      by rewrite Hq in IH.
    + specialize (IH {| items := rest |}).
      destruct (run_ops ops _) as [qf out]. simpl in *.
      unfold returned in *. simpl. by rewrite <- IH.
Qed.

(** C1. From the empty queue and after any operations, the results of
    [dequeue] are those of the scheduler that keeps the pending entries in
    insertion order and takes the first least one, where [HIGH] goes
    before [MEDIUM] and [MEDIUM] before [LOW], and an earlier
    [created_time] goes first within one priority; the queue holds the
    pending entries; every entry enqueued was returned once or is still
    queued; and the next [dequeue] reports the empty queue exactly when
    nothing is pending, and otherwise returns the pending entry [e] such
    that each entry inserted before it has a priority that [e]'s
    precedes, or the same priority and a later [created_time], and no
    entry inserted after it has a priority that precedes [e]'s, or the
    same priority and an earlier [created_time]; the others stay. *)
Theorem scheduler_dequeues_first_least (ops : list queue_op) :
  let q := (run_ops ops new_queue).1 in
  let out := (run_ops ops new_queue).2 in
  let pending := (spec_run ops []).1 in
  out = (spec_run ops []).2
  ∧ items q ≡ₚ pending
  ∧ enqueued ops ≡ₚ returned out ++ items q
  ∧ match dequeue q with
    | (None, q') => pending = [] ∧ q' = q
    | (Some e, q') =>
        ∃ l1 l2, pending = l1 ++ e :: l2
          ∧ Forall (spec_before e) l1
          ∧ Forall (λ x, ¬ spec_before x e) l2
          ∧ items q' ≡ₚ l1 ++ l2
    end.
Proof.
  intros q out pending.
  destruct (run_ops_refines ops new_queue [] eq_refl) as [Hout Hq].
  fold q in Hq. fold pending in Hq.
  split; [done|]. split; [by rewrite Hq, (sort_perm queue_comparator)|].
  split; [apply (run_ops_conserves ops new_queue)|].
  unfold dequeue. rewrite Hq. destruct pending as [|x l].
  - simpl. done.
  - rewrite spec_extract_sort.
    destruct (spec_extract_least_first l x) as (l1 & l2 & E & Er & H1 & H2).
    exists l1, l2. simpl. rewrite (sort_perm queue_comparator), Er.
    split; [done|]. split; [|split; [|done]].
    + eapply Forall_impl; [exact H1|]. intros y. apply spec_before_strictly.
    + eapply Forall_impl; [exact H2|]. intros y Hy Hs. apply Hy.
      by apply spec_before_strictly.
Qed.

(** ** Entries that the comparator cannot tell apart *)

Lemma sort_tied_queue k l :
  filter (tied rank_time k) (sort queue_comparator l) = filter (tied rank_time k) l.
Proof. apply sort_tied, queue_comparator_tie. Qed.

Lemma run_ops_tied_fifo ops q0 k :
  filter (tied rank_time k) (returned (run_ops ops q0).2)
    ++ filter (tied rank_time k) (items (run_ops ops q0).1)
  = filter (tied rank_time k) (items q0)
    ++ filter (tied rank_time k) (enqueued ops).
Proof.
  revert q0. induction ops as [|[e|] ops IH]; intros q0; simpl.
  - by rewrite app_nil_r.
  - rewrite IH. simpl. rewrite sort_tied_queue, filter_app, <- app_assoc.
    f_equal. rewrite !filter_cons, filter_nil.
    by destruct (decide (tied rank_time k e)).
  - unfold dequeue. destruct (items q0) as [|x rest] eqn:Hq.
    + specialize (IH q0). destruct (run_ops ops q0) as [qf out]. simpl in *.
      by rewrite Hq in IH.
    + specialize (IH {| items := rest |}).
      destruct (run_ops ops _) as [qf out]. simpl in *.
      unfold returned in *. simpl. rewrite !filter_cons.
      destruct (decide (tied rank_time k x)); simpl; by rewrite IH.
Qed.

(** ** The loop that splits a submission *)

Lemma group_count_lt ids k : (k < group_count ids ↔ k * BATCH_SIZE < length ids)%nat.
Proof.
  unfold group_count, BATCH_SIZE. split; intros H.
  - destruct (decide (k * 3 < length ids)%nat) as [|Hn]; [done|].
    assert ((length ids + (3 - 1)) / 3 < S k)%nat; [|lia].
    apply Nat.Div0.div_lt_upper_bound. lia.
  - assert (S k ≤ (length ids + (3 - 1)) / 3)%nat; [|lia].
    apply Nat.div_le_lower_bound; lia.
Qed.

Lemma group_count_le ids : (group_count ids ≤ length ids)%nat.
Proof.
  destruct (decide (group_count ids ≤ length ids)%nat) as [|Hn]; [done|].
  assert (length ids < group_count ids)%nat as H by lia.
  apply group_count_lt in H. unfold BATCH_SIZE in H. lia.
Qed.

Lemma slice_group k ids :
  slice (k * BATCH_SIZE) (k * BATCH_SIZE + BATCH_SIZE) ids = group k ids.
Proof. unfold slice, group. f_equal. lia. Qed.

Lemma split_loop_rounds ids p now uuidv4 fuel k batches st :
  (group_count ids ≤ k + fuel)%nat →
  split_loop fuel (k * BATCH_SIZE) (S k) ids p now (uuidv4 0%nat) uuidv4 batches st
  = (batches ++ (batch_id <$> (job_item ids p now uuidv4
                                 <$> seq k (group_count ids - k))),
     foldl add_batch st (job_item ids p now uuidv4 <$> seq k (group_count ids - k))).
Proof.
  revert k batches st. induction fuel as [|fuel IH]; intros k batches st Hf; simpl.
  - replace (group_count ids - k)%nat with 0%nat by lia. simpl.
    by rewrite app_nil_r.
  - case_bool_decide as Hlt.
    + apply group_count_lt in Hlt.
      replace (group_count ids - k)%nat with (S (group_count ids - S k)) by lia.
      simpl. rewrite slice_group.
      replace (k * BATCH_SIZE + BATCH_SIZE)%nat with (S k * BATCH_SIZE)%nat by lia.
      rewrite IH by lia. by rewrite <- app_assoc.
    + rewrite <- group_count_lt in Hlt.
      replace (group_count ids - k)%nat with 0%nat by lia. simpl.
      by rewrite app_nil_r.
Qed.

Lemma create_job_rounds ids p now uuidv4 st :
  create_job ids p now uuidv4 st
  = (uuidv4 0%nat, batch_id <$> job_items ids p now uuidv4,
     set_ingestionJobs
       (<[uuidv4 0%nat :=
           {| j_ingestion_id := uuidv4 0%nat; j_status := yet_to_start;
              j_batches := batch_id <$> job_items ids p now uuidv4;
              j_priority := p; j_created_time := now |}]>
          (ingestionJobs (foldl add_batch st (job_items ids p now uuidv4))))
       (foldl add_batch st (job_items ids p now uuidv4))).
Proof.
  unfold create_job.
  pose proof (split_loop_rounds ids p now uuidv4 (length ids) 0 [] st) as H.
  simpl in H. rewrite H by (pose proof (group_count_le ids); lia).
  rewrite Nat.sub_0_r. done.
Qed.

Lemma add_batches_queue es st :
  queue (foldl add_batch st es) = (run_ops (Enqueue <$> es) (queue st)).1.
Proof.
  revert st. induction es as [|e es IH]; intros st; simpl; [done|].
  by rewrite IH.
Qed.

Lemma add_batches_jobs es st :
  ingestionJobs (foldl add_batch st es) = ingestionJobs st.
Proof.
  revert st. induction es as [|e es IH]; intros st; simpl; [done|].
  by rewrite IH.
Qed.

Lemma add_batches_time es st :
  lastProcessedTime (foldl add_batch st es) = lastProcessedTime st
  ∧ trace (foldl add_batch st es) = trace st.
Proof.
  revert st. induction es as [|e es IH]; intros st; simpl; [done|].
  by rewrite !(proj1 (IH _)), !(proj2 (IH _)).
Qed.

Lemma add_batches_items es st :
  items (queue (foldl add_batch st es)) ≡ₚ items (queue st) ++ es.
Proof.
  revert st. induction es as [|e es IH]; intros st; simpl.
  - by rewrite app_nil_r.
  - rewrite IH. simpl. rewrite (sort_perm queue_comparator), <- app_assoc. done.
Qed.

Lemma queue_comparator_zero a b :
  priority a = priority b → created_time a = created_time b →
  queue_comparator a b = 0.
Proof.
  intros Hp Ht. unfold queue_comparator. rewrite Hp, Ht, Z.eqb_refl. simpl. lia.
Qed.

Lemma run_ops_enqueues es q :
  returned (run_ops (Enqueue <$> es) q).2 = []
  ∧ enqueued (Enqueue <$> es) = es.
Proof.
  revert q. induction es as [|e es IH]; intros q; [done|].
  rewrite fmap_cons. simpl. destruct (IH (enqueue queue_comparator e q)) as [-> ->].
  done.
Qed.

Lemma filter_all {A} (P : A → Prop) `{∀ x, Decision (P x)} (l : list A) :
  Forall P l → filter P l = l.
Proof.
  induction 1 as [|x l Hx _ IH]; [done|]. by rewrite filter_cons_True, IH.
Qed.

Lemma job_items_tied nums p now uuidv4 :
  Forall (tied rank_time (p, now)) (job_items nums p now uuidv4).
Proof. unfold job_items. apply Forall_fmap, Forall_forall. done. Qed.

Lemma job_leaves_in_group_order nums p now uuidv4 st ops :
  filter (tied rank_time (p, now))
         (returned (run_ops ops (queue (create_job nums p now uuidv4 st).2)).2)
    ++ filter (tied rank_time (p, now))
              (items (run_ops ops (queue (create_job nums p now uuidv4 st).2)).1)
  = filter (tied rank_time (p, now)) (items (queue st))
    ++ job_items nums p now uuidv4
    ++ filter (tied rank_time (p, now)) (enqueued ops).
Proof.
  rewrite run_ops_tied_fifo, create_job_rounds. cbn [snd queue set_ingestionJobs].
  rewrite add_batches_queue.
  pose proof (run_ops_tied_fifo (Enqueue <$> job_items nums p now uuidv4)
                (queue st) (p, now)) as H.
  destruct (run_ops_enqueues (job_items nums p now uuidv4) (queue st)) as [E1 E2].
  rewrite E1, E2 in H. simpl in H. rewrite H.
  rewrite (filter_all _ _ (job_items_tied nums p now uuidv4)).
  by rewrite <- app_assoc.
Qed.

Lemma run_ops_app ops1 ops2 q :
  run_ops (ops1 ++ ops2) q
  = ((run_ops ops2 (run_ops ops1 q).1).1,
     (run_ops ops1 q).2 ++ (run_ops ops2 (run_ops ops1 q).1).2).
Proof.
  revert q. induction ops1 as [|[e|] ops1 IH]; intros q; simpl.
  - by destruct (run_ops ops2 q).
  - apply IH.
  - destruct (dequeue q) as [r q']. rewrite IH.
    by destruct (run_ops ops1 q') as [q1 out1].
Qed.

(** As many calls of [dequeue] as the queue is long return its entries
    from the head on, and leave it empty. *)
Lemma run_ops_drain (q : PriorityQueue QueueItem) :
  run_ops (replicate (queue_length q) Dequeue) q
  = ({| items := [] |}, Some <$> items q).
Proof.
  destruct q as [l]. unfold queue_length. simpl.
  induction l as [|x l IH]; simpl; [done|]. by rewrite IH.
Qed.

Lemma returned_somes (l : list QueueItem) : returned (Some <$> l) = l.
Proof.
  induction l as [|x l IH]; [done|]. unfold returned in *. simpl. by f_equal.
Qed.

Lemma returned_app out1 out2 : returned (out1 ++ out2) = returned out1 ++ returned out2.
Proof. apply omap_app. Qed.

Lemma run_ops_then_drain ops q0 k :
  let r := run_ops ops q0 in
  let r' := run_ops (ops ++ replicate (queue_length r.1) Dequeue) q0 in
  items r'.1 = []
  ∧ returned r'.2 = returned r.2 ++ items r.1
  ∧ filter (tied rank_time k) (returned r'.2)
    = filter (tied rank_time k) (items q0)
      ++ filter (tied rank_time k) (enqueued ops).
Proof.
  intros r r'. unfold r'. rewrite run_ops_app. fold r. rewrite run_ops_drain.
  cbn [fst snd items]. rewrite returned_app, returned_somes.
  split; [done|]. split; [done|].
  rewrite filter_app. apply run_ops_tied_fifo.
Qed.

(** C10. The comparator returns 0 on two entries of one priority and one
    [created_time]. Among such entries, those that [dequeue] has returned
    followed by those still queued are, in this order, those that were
    there or were enqueued, in the order of their insertion; and when
    [dequeue] is then called as often as the queue is long, the queue is
    empty, what had been queued has been returned, and the entries of
    that priority and time have been returned in the order of their
    insertion. The handler enqueues the groups of a submission one after
    the other in the order of the groups, all with the priority and the
    [created_time] of the submission; so, whatever is enqueued and
    dequeued afterwards, the entries of the submission leave the queue
    in the order of its groups, and once the queue is drained they have
    all been returned, in that order. *)
Theorem tied_entries_leave_in_insertion_order :
  (∀ a b : QueueItem,
     priority a = priority b → created_time a = created_time b →
     queue_comparator a b = 0)
  ∧ (∀ (ops : list queue_op) (q0 : PriorityQueue QueueItem) (p : Priority) (t : Z),
       filter (tied rank_time (p, t)) (returned (run_ops ops q0).2)
         ++ filter (tied rank_time (p, t)) (items (run_ops ops q0).1)
       = filter (tied rank_time (p, t)) (items q0)
         ++ filter (tied rank_time (p, t)) (enqueued ops))
  ∧ (∀ (nums : list Z) (p : Priority) (now : Z) (uuidv4 : nat → uuid) (st : Store),
       queue (create_job nums p now uuidv4 st).2
       = (run_ops (Enqueue <$> job_items nums p now uuidv4) (queue st)).1
       ∧ Forall (tied rank_time (p, now)) (job_items nums p now uuidv4)
       ∧ ids <$> job_items nums p now uuidv4 = groups nums
       ∧ ∀ ops : list queue_op,
           let r := run_ops ops (queue (create_job nums p now uuidv4 st).2) in
           filter (tied rank_time (p, now)) (returned r.2)
             ++ filter (tied rank_time (p, now)) (items r.1)
           = filter (tied rank_time (p, now)) (items (queue st))
             ++ job_items nums p now uuidv4
             ++ filter (tied rank_time (p, now)) (enqueued ops))
  ∧ (∀ (ops : list queue_op) (q0 : PriorityQueue QueueItem) (p : Priority) (t : Z),
       let r := run_ops ops q0 in
       let r' := run_ops (ops ++ replicate (queue_length r.1) Dequeue) q0 in
       items r'.1 = []
       ∧ returned r'.2 = returned r.2 ++ items r.1
       ∧ filter (tied rank_time (p, t)) (returned r'.2)
         = filter (tied rank_time (p, t)) (items q0)
           ++ filter (tied rank_time (p, t)) (enqueued ops))
  ∧ (∀ (nums : list Z) (p : Priority) (now : Z) (uuidv4 : nat → uuid) (st : Store)
       (ops : list queue_op),
       let q1 := queue (create_job nums p now uuidv4 st).2 in
       let r := run_ops ops q1 in
       let r' := run_ops (ops ++ replicate (queue_length r.1) Dequeue) q1 in
       items r'.1 = []
       ∧ filter (tied rank_time (p, now)) (returned r'.2)
         = filter (tied rank_time (p, now)) (items (queue st))
           ++ job_items nums p now uuidv4
           ++ filter (tied rank_time (p, now)) (enqueued ops)).
Proof.
  split; [apply queue_comparator_zero|].
  split; [intros; apply run_ops_tied_fifo|].
  split.
  { intros nums p now uuidv4 st.
    split; [rewrite create_job_rounds; apply add_batches_queue|].
    split; [apply job_items_tied|].
    split; [|intros ops; apply job_leaves_in_group_order].
    unfold job_items, groups. by rewrite <- list_fmap_compose. }
  split; [intros ops q0 p t; apply run_ops_then_drain|].
  intros nums p now uuidv4 st ops q1 r r'.
  destruct (run_ops_then_drain ops q1 (p, now)) as (Hempty & Hall & Htied).
  fold r in Hempty, Hall, Htied. fold r' in Hempty, Hall, Htied.
  split; [exact Hempty|].
  pose proof (job_leaves_in_group_order nums p now uuidv4 st ops) as Hjob.
  fold q1 in Hjob. fold r in Hjob.
  rewrite Hall, filter_app. exact Hjob.
Qed.

(** ** The status roll-up *)

Lemma js_every_defined p recs : js_every p (Some <$> recs) = Some (forallb p recs).
Proof.
  induction recs as [|r recs IH]; simpl; [done|]. by destruct (p r).
Qed.

Lemma js_some_defined p recs : js_some p (Some <$> recs) = Some (existsb p recs).
Proof.
  induction recs as [|r recs IH]; simpl; [done|]. by destruct (p r).
Qed.

Lemma forallb_has_status s recs :
  forallb (has_status s) recs = true ↔ Forall (λ r, bs_status r = s) recs.
Proof.
  rewrite forallb_forall, Forall_forall. unfold has_status.
  split; intros H r Hr.
  - apply list_elem_of_In in Hr. apply H in Hr. by apply bool_decide_eq_true in Hr.
  - apply list_elem_of_In in Hr. apply bool_decide_eq_true. by apply H.
Qed.

Lemma existsb_has_status s recs :
  existsb (has_status s) recs = true ↔ Exists (λ r, bs_status r = s) recs.
Proof.
  rewrite existsb_exists, Exists_exists. unfold has_status.
  split; intros (r & Hr & H); exists r.
  - apply list_elem_of_In in Hr. by apply bool_decide_eq_true in H.
  - rewrite <- list_elem_of_In. by rewrite bool_decide_eq_true.
Qed.

Lemma js_every_statuses s (l l' : list (option BatchStatus)) :
  (λ o : option BatchStatus, bs_status <$> o) <$> l
  = (λ o : option BatchStatus, bs_status <$> o) <$> l' →
  js_every (has_status s) l = js_every (has_status s) l'.
Proof.
  revert l'. induction l as [|[r|] l IH]; intros [|[r'|] l'] [=]; simpl; try done.
  unfold has_status at 1 3. rewrite H0.
  case_bool_decide; [by apply IH|done].
Qed.

Lemma js_some_statuses s (l l' : list (option BatchStatus)) :
  (λ o : option BatchStatus, bs_status <$> o) <$> l
  = (λ o : option BatchStatus, bs_status <$> o) <$> l' →
  js_some (has_status s) l = js_some (has_status s) l'.
Proof.
  revert l'. induction l as [|[r|] l IH]; intros [|[r'|] l'] [=]; simpl; try done.
  unfold has_status at 1 3. rewrite H0.
  case_bool_decide; [done|by apply IH].
Qed.

Lemma with_status_twice s s0 job : with_status s (with_status s0 job) = with_status s job.
Proof. done. Qed.

(** C2. When the job is in the store and each of its batches has a
    record, [updateIngestionStatus] returns normally, and the job then
    stored under the identifier has the status [yet_to_start] if every
    batch is [yet_to_start], else [triggered] if some batch is
    [triggered], else [completed]; so a job whose batches are [completed]
    or [yet_to_start], one at least being [completed], reads
    [completed]. The other fields of the job, the other jobs, the
    records, the queue and [lastProcessedTime] are left as they were.
    This holds for a job without batches too, for which the first case
    applies. *)
Theorem recompute_follows_rule
    (st : Store) (ingestion_id : uuid) (job : Job) (recs : list BatchStatus) :
  ingestionJobs st !! ingestion_id = Some job →
  (λ b, batchStatuses st !! b) <$> j_batches job = Some <$> recs →
  ∃ (st' : Store) (job' : Job),
    updateIngestionStatus ingestion_id st = Some st'
    ∧ ingestionJobs st' !! ingestion_id = Some job'
    ∧ (Forall (λ r, bs_status r = yet_to_start) recs →
       j_status job' = yet_to_start)
    ∧ (¬ Forall (λ r, bs_status r = yet_to_start) recs →
       Exists (λ r, bs_status r = triggered) recs → j_status job' = triggered)
    ∧ (¬ Forall (λ r, bs_status r = yet_to_start) recs →
       ¬ Exists (λ r, bs_status r = triggered) recs → j_status job' = completed)
    ∧ (Forall (λ r, bs_status r = completed ∨ bs_status r = yet_to_start) recs →
       Exists (λ r, bs_status r = completed) recs → j_status job' = completed)
    ∧ j_ingestion_id job' = j_ingestion_id job
    ∧ j_batches job' = j_batches job
    ∧ j_priority job' = j_priority job
    ∧ j_created_time job' = j_created_time job
    ∧ (∀ j, j ≠ ingestion_id → ingestionJobs st' !! j = ingestionJobs st !! j)
    ∧ batchStatuses st' = batchStatuses st
    ∧ queue st' = queue st
    ∧ lastProcessedTime st' = lastProcessedTime st
    ∧ trace st' = trace st.
Proof.
  intros Hjob Hrecs. unfold updateIngestionStatus. rewrite Hjob, Hrecs.
  rewrite !js_every_defined, js_some_defined. simpl.
  eexists _, _. split; [reflexivity|].
  split; [simpl; apply lookup_insert_eq|]. simpl.
  assert (Forall (λ r, bs_status r = yet_to_start) recs →
          ¬ Exists (λ r, bs_status r = completed) recs) as Hnodone.
  { intros Hy (r & Hr & Hc)%Exists_exists.
    rewrite Forall_forall in Hy. specialize (Hy r Hr). congruence. }
  assert (Forall (λ r, bs_status r = completed ∨ bs_status r = yet_to_start) recs →
          ¬ Exists (λ r, bs_status r = triggered) recs) as Hnotrig.
  { intros Hmix (r & Hr & Hc)%Exists_exists.
    rewrite Forall_forall in Hmix. destruct (Hmix r Hr); congruence. }
  match goal with
  | |- ?A ∧ ?B ∧ ?C ∧ ?D ∧ _ =>
      cut (A ∧ B ∧ C ∧ D);
        [intros (? & ? & ? & ?); repeat split; try done;
         intros j Hj; by apply lookup_insert_ne|]
  end.
  destruct (forallb (has_status yet_to_start) recs) eqn:Eall.
  - apply forallb_has_status in Eall. simpl. tauto.
  - assert (¬ Forall (λ r, bs_status r = yet_to_start) recs) as Hall.
    { intros H%forallb_has_status. congruence. }
    destruct (existsb (has_status triggered) recs) eqn:Eany; simpl.
    + apply existsb_has_status in Eany. tauto.
    + assert (¬ Exists (λ r, bs_status r = triggered) recs) as Hany.
      { intros H%existsb_has_status. congruence. }
      tauto.
Qed.

Lemma recompute_follows_rule_sample :
  ∃ (st' : Store) (job' : Job),
    updateIngestionStatus "A-a" store_between_rounds = Some st'
    ∧ ingestionJobs st' !! "A-a" = Some job'
    ∧ j_status job' = completed
    ∧ j_batches job' = ["A-b"; "A-c"].
Proof.
  destruct (recompute_follows_rule store_between_rounds "A-a" job_A
              records_between_rounds
              ltac:(vm_compute; reflexivity) ltac:(vm_compute; reflexivity))
    as (st' & job' & Hu & Hj & _ & _ & _ & Hmix & _ & Hb & _).
  exists st', job'. split; [exact Hu|]. split; [exact Hj|]. split; [|exact Hb].
  apply Hmix.
  - apply Forall_cons_2; [by left|]. apply Forall_cons_2; [by right|]. constructor.
  - apply Exists_cons_hd. reflexivity.
Defined.

(** The job that is [completed] although a batch has not started. *)
Example recompute_between_rounds :
  j_status <$> (updateIngestionStatus "A-a" store_between_rounds
                  ≫= λ st, ingestionJobs st !! "A-a")
  = Some completed.
Proof. vm_compute. reflexivity. Qed.

Lemma updateIngestionStatus_statuses id st st' job job' :
  ingestionJobs st !! id = Some job →
  ingestionJobs st' !! id = Some job' →
  statuses_read job st = statuses_read job' st' →
  (λ st1, j_status <$> ingestionJobs st1 !! id) <$> updateIngestionStatus id st
  = (λ st1, j_status <$> ingestionJobs st1 !! id) <$> updateIngestionStatus id st'.
Proof.
  intros Hj Hj' Hread. unfold updateIngestionStatus. rewrite Hj, Hj'.
  unfold statuses_read in Hread.
  assert ((λ o : option BatchStatus, bs_status <$> o)
            <$> ((λ b, batchStatuses st !! b) <$> j_batches job)
          = (λ o : option BatchStatus, bs_status <$> o)
            <$> ((λ b, batchStatuses st' !! b) <$> j_batches job')) as E.
  { by rewrite <- !list_fmap_compose. }
  rewrite (js_every_statuses yet_to_start _ _ E),
          (js_every_statuses completed _ _ E),
          (js_some_statuses triggered _ _ E).
  destruct (js_every (has_status yet_to_start) _) as [a|]; simpl; [|done].
  destruct (js_some (has_status triggered) _) as [t|]; simpl; [|done].
  destruct (js_every (has_status completed) _) as [c|]; simpl; [|done].
  by rewrite !lookup_insert_eq.
Qed.

Lemma updateIngestionStatus_forgets id st job s0 :
  ingestionJobs st !! id = Some job →
  updateIngestionStatus id
    (set_ingestionJobs (<[id := with_status s0 job]> (ingestionJobs st)) st)
  = updateIngestionStatus id st.
Proof.
  intros Hj. unfold updateIngestionStatus. simpl.
  rewrite lookup_insert_eq, Hj. simpl.
  destruct (js_every (has_status yet_to_start) _) as [a|]; simpl; [|done].
  destruct (js_some (has_status triggered) _) as [t|]; simpl; [|done].
  destruct (js_every (has_status completed) _) as [c|]; simpl; [|done].
  unfold set_ingestionJobs. simpl. by rewrite insert_insert_eq.
Qed.

Lemma updateIngestionStatus_again id st st1 :
  updateIngestionStatus id st = Some st1 →
  updateIngestionStatus id st1 = Some st1.
Proof.
  unfold updateIngestionStatus at 1.
  destruct (ingestionJobs st !! id) as [job|] eqn:Hj.
  - destruct (js_every (has_status yet_to_start) _) as [a|] eqn:Ea; simpl; [|done].
    destruct (js_some (has_status triggered) _) as [t|] eqn:Et; simpl; [|done].
    destruct (js_every (has_status completed) _) as [c|] eqn:Ec; simpl; [|done].
    intros [= <-]. rewrite updateIngestionStatus_forgets by done.
    unfold updateIngestionStatus. rewrite Hj, Ea, Et, Ec. done.
  - intros [= <-]. unfold updateIngestionStatus. by rewrite Hj.
Qed.

(** C9. What [updateIngestionStatus] leaves as the status of a job is
    fixed by the statuses it reads for the batches of the job, whatever
    else the two stores hold; the status the job had before plays no
    part; and a second call on the store the first one left changes
    nothing. *)
Theorem recompute_is_pure_and_idempotent :
  (∀ (id : uuid) (st st' : Store) (job job' : Job),
     ingestionJobs st !! id = Some job →
     ingestionJobs st' !! id = Some job' →
     statuses_read job st = statuses_read job' st' →
     (λ st1, j_status <$> ingestionJobs st1 !! id) <$> updateIngestionStatus id st
     = (λ st1, j_status <$> ingestionJobs st1 !! id) <$> updateIngestionStatus id st')
  ∧ (∀ (id : uuid) (st : Store) (job : Job) (s0 : Status),
       ingestionJobs st !! id = Some job →
       updateIngestionStatus id
         (set_ingestionJobs (<[id := with_status s0 job]> (ingestionJobs st)) st)
       = updateIngestionStatus id st)
  ∧ (∀ (id : uuid) (st st1 : Store),
       updateIngestionStatus id st = Some st1 →
       updateIngestionStatus id st1 = Some st1).
Proof.
  split; [exact updateIngestionStatus_statuses|].
  split; [exact updateIngestionStatus_forgets|exact updateIngestionStatus_again].
Qed.

Lemma recompute_is_pure_and_idempotent_sample :
  ∃ st1 : Store,
    updateIngestionStatus "A-a" store_between_rounds = Some st1
    ∧ updateIngestionStatus "A-a" st1 = Some st1.
Proof.
  destruct (updateIngestionStatus "A-a" store_between_rounds) as [st1|] eqn:E.
  - exists st1. split; [reflexivity|].
    exact (proj2 (proj2 recompute_is_pure_and_idempotent)
             "A-a" store_between_rounds st1 E).
  - vm_compute in E. discriminate E.
Defined.

(** ** Validation of a submission *)

Lemma id_ok_spec v : id_ok v = true ↔ ∃ n, v = JsInt n ∧ 1 ≤ n ≤ 1000000007.
Proof.
  destruct v; simpl; split; try done; try (by intros (? & ? & ?)).
  - intros H. exists n. split; [done|]. lia.
  - intros (m & [= <-] & H). lia.
Qed.

Lemma forallb_id_ok elems :
  forallb id_ok elems = true ↔
  ∃ nums, elems = JsInt <$> nums ∧ Forall (λ n, 1 ≤ n ≤ 1000000007) nums.
Proof.
  induction elems as [|v elems IH]; simpl.
  - split; [intros _; by exists []|done].
  - rewrite andb_true_iff, id_ok_spec, IH. split.
    + intros ((n & -> & Hn) & (nums & -> & Hnums)).
      exists (n :: nums). split; [done|by constructor].
    + intros ([|n nums] & [=] & Hnums). subst.
      apply Forall_cons in Hnums as [Hn Hnums]. split; eauto.
Qed.

Lemma numbers_ints nums : numbers (JsInt <$> nums) = nums.
Proof.
  induction nums as [|n nums IH]; [done|].
  change (n :: numbers (JsInt <$> nums) = n :: nums). by rewrite IH.
Qed.

Lemma known_priority_string p : known_priority (JsString (priority_string p)) = Some p.
Proof. by destruct p. Qed.

Lemma known_priority_spec v p :
  known_priority v = Some p ↔ v = JsString (priority_string p).
Proof.
  split; [|intros ->; apply known_priority_string].
  destruct v; simpl; try done.
  destruct (String.eqb s "HIGH") eqn:E1; [apply String.eqb_eq in E1; by intros [= <-]; subst|].
  destruct (String.eqb s "MEDIUM") eqn:E2; [apply String.eqb_eq in E2; by intros [= <-]; subst|].
  destruct (String.eqb s "LOW") eqn:E3; [apply String.eqb_eq in E3; by intros [= <-]; subst|].
  done.
Qed.

(** The value line 104 tests: the priority of the body, or ["LOW"]. *)
Lemma defaulted_priority v p :
  known_priority (default_LOW v) = Some p ↔ priority_of v p.
Proof.
  unfold priority_of. destruct v; simpl; try (split; [done|by intros [[? ?]|?]]).
  - split; [intros [= <-]; by left|]. by intros [[_ ->]|?].
  - rewrite (known_priority_spec (JsString s) p). split; [by right|].
    by intros [[? ?]|?].
Qed.

Lemma valid_submission_spec body :
  valid_submission body ↔
  ∃ nums p, nums ≠ [] ∧ Forall (λ n, 1 ≤ n ≤ 1000000007) nums
            ∧ body_ids body = JsArray (JsInt <$> nums)
            ∧ priority_of (body_priority body) p.
Proof.
  unfold valid_submission, priority_of. split.
  - intros (nums & p & H1 & H2 & H3 & [H4|H4]).
    + exists nums, LOW. eauto 10.
    + exists nums, p. eauto 10.
  - intros (nums & p & H1 & H2 & H3 & [[H4 _]|H4]); exists nums, p; eauto 10.
Qed.

Lemma ingest_accepts nums p body now uuidv4 st :
  nums ≠ [] →
  Forall (λ n, 1 ≤ n ≤ 1000000007) nums →
  body_ids body = JsArray (JsInt <$> nums) →
  priority_of (body_priority body) p →
  ingest body now uuidv4 st
  = ({| res_status := 200; res_json := IngestJson (uuidv4 0%nat) |},
     (trigger (create_job nums p now uuidv4 st).1.2 now
              (create_job nums p now uuidv4 st).2).1,
     (trigger (create_job nums p now uuidv4 st).1.2 now
              (create_job nums p now uuidv4 st).2).2).
Proof.
  intros Hne Hrange Hids Hp. unfold ingest. rewrite Hids.
  rewrite bool_decide_eq_false_2 by (rewrite length_fmap; by destruct nums).
  assert (forallb id_ok (JsInt <$> nums) = true) as ->.
  { apply forallb_id_ok. by exists nums. }
  apply defaulted_priority in Hp. rewrite Hp, numbers_ints.
  cbn [orb negb]. destruct (create_job nums p now uuidv4 st) as [[iid bs] st1] eqn:E.
  rewrite create_job_rounds in E. injection E as <- <- <-.
  cbn [fst snd]. by destruct (trigger _ now _).
Qed.

Lemma ingest_refuses body now uuidv4 st :
  ¬ valid_submission body →
  ∃ msg, ingest body now uuidv4 st
         = ({| res_status := 400; res_json := ErrorJson msg |}, st, NotStarted).
Proof.
  rewrite valid_submission_spec. intros Hinv. unfold ingest.
  destruct (body_ids body) as [| | | | | |elems|] eqn:Hids; try by eexists.
  case_bool_decide as Hlen; simpl; [by eexists|].
  destruct (forallb id_ok elems) eqn:Hok; simpl; [|by eexists].
  destruct (known_priority _) as [p|] eqn:Hp; [|by eexists].
  exfalso. apply Hinv. apply forallb_id_ok in Hok as (nums & -> & Hnums).
  apply defaulted_priority in Hp. exists nums, p.
  split; [|done]. intros ->. done.
Qed.

Lemma valid_submission_or_not body : valid_submission body ∨ ¬ valid_submission body.
Proof.
  rewrite valid_submission_spec.
  destruct (body_ids body) as [| | | | | |elems|] eqn:Hids;
    try (right; intros (nums & p & _ & _ & H & _); congruence).
  destruct (forallb id_ok elems) eqn:Hok.
  - apply forallb_id_ok in Hok as (nums & -> & Hnums).
    destruct nums as [|n nums].
    { right. intros (nums' & p & Hne & _ & [= H] & _).
      symmetry in H. apply fmap_nil_inv in H. done. }
    destruct (known_priority (default_LOW (body_priority body))) as [p|] eqn:Hp.
    + left. apply defaulted_priority in Hp. exists (n :: nums), p. done.
    + right. intros (nums' & p & _ & _ & _ & H%defaulted_priority). congruence.
  - right. intros (nums & p & _ & Hnums & [= ->] & _).
    assert (forallb id_ok (JsInt <$> nums) = true); [|congruence].
    apply forallb_id_ok. by exists nums.
Qed.

(** C6. The handler answers 400 exactly when the submission is not a
    valid one, and 200 when it is; when it answers 400 the store is the
    one it was given and the dispatcher is not started. *)
Theorem ingest_rejects_exactly_the_invalid
    (body : Body) (now : Z) (uuidv4 : nat → uuid) (st : Store) :
  (res_status (ingest body now uuidv4 st).1.1 = 400 ↔ ¬ valid_submission body)
  ∧ (res_status (ingest body now uuidv4 st).1.1 = 200 ↔ valid_submission body)
  ∧ (res_status (ingest body now uuidv4 st).1.1 = 400 →
     (ingest body now uuidv4 st).1.2 = st
     ∧ (ingest body now uuidv4 st).2 = NotStarted
     ∧ ∃ msg, res_json (ingest body now uuidv4 st).1.1 = ErrorJson msg).
Proof.
  assert (valid_submission body → res_status (ingest body now uuidv4 st).1.1 = 200)
    as Hyes.
  { intros (nums & p & H1 & H2 & H3 & H4)%valid_submission_spec.
    by rewrite (ingest_accepts nums p). }
  assert (¬ valid_submission body →
          ∃ msg, ingest body now uuidv4 st
                 = ({| res_status := 400; res_json := ErrorJson msg |}, st, NotStarted))
    as Hno by apply ingest_refuses.
  pose proof (valid_submission_or_not body) as Hdec.
  destruct Hdec as [Hv|Hv].
  - rewrite (Hyes Hv). split; [split; [lia|done]|]. split; [done|lia].
  - destruct (Hno Hv) as [msg ->]. simpl.
    split; [done|]. split; [split; [lia|done]|]. eauto.
Qed.

(** ** The groups of a submission *)

Lemma groups_shift n (l : list Z) :
  (λ k, take BATCH_SIZE (drop (k * BATCH_SIZE) l)) <$> seq 1 n
  = (λ k, take BATCH_SIZE (drop (k * BATCH_SIZE) (drop BATCH_SIZE l))) <$> seq 0 n.
Proof.
  rewrite <- (fmap_S_seq 0 n), <- list_fmap_compose.
  apply list_fmap_ext. intros _ k _. simpl. rewrite drop_drop. done.
Qed.

Lemma groups_concat_upto n (l : list Z) :
  (length l ≤ n * BATCH_SIZE)%nat →
  concat ((λ k, take BATCH_SIZE (drop (k * BATCH_SIZE) l)) <$> seq 0 n) = l.
Proof.
  revert l. induction n as [|n IH]; intros l Hl.
  - destruct l; [done|]. simpl in Hl. lia.
  - change (seq 0 (S n)) with (0%nat :: seq 1 n).
    rewrite fmap_cons, groups_shift. simpl concat.
    rewrite IH; [apply take_drop|].
    rewrite length_drop. unfold BATCH_SIZE in *. lia.
Qed.

Lemma groups_concat nums : concat (groups nums) = nums.
Proof.
  apply groups_concat_upto.
  destruct (decide (length nums ≤ group_count nums * BATCH_SIZE)%nat) as [|Hn]; [done|].
  assert (group_count nums * BATCH_SIZE < length nums)%nat as H by lia.
  apply group_count_lt in H. lia.
Qed.

Lemma groups_lookup nums k g :
  groups nums !! k = Some g ↔ (k < group_count nums)%nat ∧ g = group k nums.
Proof.
  unfold groups. rewrite list_lookup_fmap. split.
  - intros H. destruct (seq 0 (group_count nums) !! k) as [k'|] eqn:E; [|done].
    apply lookup_seq in E as [-> ?]. simpl in H. by injection H as <-.
  - intros [Hk ->]. by rewrite lookup_seq_lt.
Qed.

Lemma groups_sizes nums :
  Forall (λ g : list Z, (1 ≤ length g ≤ BATCH_SIZE)%nat) (groups nums).
Proof.
  apply Forall_lookup. intros k g [Hk ->]%groups_lookup.
  apply group_count_lt in Hk. unfold group.
  rewrite length_take, length_drop. unfold BATCH_SIZE in *. lia.
Qed.

Lemma groups_length nums : length (groups nums) = group_count nums.
Proof. unfold groups. by rewrite length_fmap, length_seq. Qed.

(** ** The store after the loop *)

Lemma add_batches_lookup_other es st u :
  u ∉ batch_id <$> es →
  batchStatuses (foldl add_batch st es) !! u = batchStatuses st !! u.
Proof.
  revert st. induction es as [|e es IH]; intros st Hu; simpl; [done|].
  rewrite fmap_cons, not_elem_of_cons in Hu. destruct Hu as [Hne Hu].
  rewrite IH by done. simpl. by rewrite lookup_insert_ne.
Qed.

Lemma add_batches_lookup es st e :
  NoDup (batch_id <$> es) → e ∈ es →
  batchStatuses (foldl add_batch st es) !! batch_id e
  = Some {| bs_batch_id := batch_id e; bs_ids := ids e; bs_status := yet_to_start |}.
Proof.
  revert st. induction es as [|e0 es IH]; intros st Hnd He; [by apply elem_of_nil in He|].
  rewrite fmap_cons in Hnd. apply NoDup_cons in Hnd as [Hnew Hnd].
  simpl. apply elem_of_cons in He as [->|Hin].
  - rewrite add_batches_lookup_other by done. simpl. by rewrite lookup_insert_eq.
  - by apply IH.
Qed.

Lemma job_items_batch_ids nums p now uuidv4 :
  batch_id <$> job_items nums p now uuidv4
  = (λ k, uuidv4 (S k)) <$> seq 0 (group_count nums).
Proof. unfold job_items. by rewrite <- list_fmap_compose. Qed.

Lemma drawn_split uuidv4 n m :
  (n ≤ m)%nat →
  drawn uuidv4 (S m)
  = uuidv4 0%nat :: ((λ k, uuidv4 (S k)) <$> seq 0 n)
      ++ ((λ k, uuidv4 (S k)) <$> seq n (m - n)).
Proof.
  intros Hnm. unfold drawn. change (seq 0 (S m)) with (0%nat :: seq 1 m).
  rewrite fmap_cons. f_equal. rewrite <- fmap_app, <- (fmap_S_seq 0 m).
  rewrite <- list_fmap_compose.
  replace m with (n + (m - n))%nat at 1 by lia. by rewrite seq_app.
Qed.

Lemma fresh_batch_ids uuidv4 nums m st :
  (length nums ≤ m)%nat →
  fresh uuidv4 (S m) st →
  NoDup ((λ k, uuidv4 (S k)) <$> seq 0 (group_count nums))
  ∧ Forall (λ u, batchStatuses st !! u = None)
           ((λ k, uuidv4 (S k)) <$> seq 0 (group_count nums))
  ∧ ingestionJobs st !! uuidv4 0%nat = None.
Proof.
  intros Hm [Hnd Hnew]. pose proof (group_count_le nums) as Hle.
  rewrite (drawn_split uuidv4 (group_count nums) m) in Hnd, Hnew by lia.
  apply NoDup_cons in Hnd as [_ Hnd]. apply NoDup_app in Hnd as (Hnd & _ & _).
  apply Forall_cons in Hnew as [[Hjob _] Hnew].
  apply Forall_app in Hnew as [Hnew _].
  split; [done|]. split; [|done].
  eapply Forall_impl; [exact Hnew|]. by intros u [_ ?].
Qed.

(** C5. For a valid submission and identifiers that are new, the
    handler answers 200 with the first identifier drawn; the groups are
    consecutive, cover the [ids] in input order and hold one to three of
    them each; at line 121 each group has its record in [batchStatuses]
    with status [yet_to_start] under the identifier drawn for it, no
    other record has been touched, the job is stored with status
    [yet_to_start] and the identifiers of its batches in the order of
    the groups, and the queue holds one more entry per group. What
    lines 123-126 then do to that store is [trigger]. *)
Theorem ingest_creates_job_and_batches
    (nums : list Z) (p : Priority) (body : Body) (now : Z)
    (uuidv4 : nat → uuid) (st : Store) :
  nums ≠ [] →
  Forall (λ n, 1 ≤ n ≤ 1000000007) nums →
  body_ids body = JsArray (JsInt <$> nums) →
  priority_of (body_priority body) p →
  fresh uuidv4 (draws body) st →
  let batches := (λ k, uuidv4 (S k)) <$> seq 0 (length (groups nums)) in
  ∃ st1 : Store,
    create_job nums p now uuidv4 st = (uuidv4 0%nat, batches, st1)
    ∧ ingest body now uuidv4 st
      = ({| res_status := 200; res_json := IngestJson (uuidv4 0%nat) |},
         (trigger batches now st1).1, (trigger batches now st1).2)
    ∧ concat (groups nums) = nums
    ∧ Forall (λ g : list Z, (1 ≤ length g ≤ 3)%nat) (groups nums)
    ∧ (∀ k g, groups nums !! k = Some g →
         g = take 3 (drop (3 * k) nums)
         ∧ batchStatuses st1 !! uuidv4 (S k)
           = Some {| bs_batch_id := uuidv4 (S k); bs_ids := g;
                     bs_status := yet_to_start |})
    ∧ NoDup batches
    ∧ (∀ u, u ∉ batches → batchStatuses st1 !! u = batchStatuses st !! u)
    ∧ ingestionJobs st1
      = <[uuidv4 0%nat :=
           {| j_ingestion_id := uuidv4 0%nat; j_status := yet_to_start;
              j_batches := batches; j_priority := p; j_created_time := now |}]>
          (ingestionJobs st)
    ∧ items (queue st1) ≡ₚ items (queue st) ++ job_items nums p now uuidv4
    ∧ ids <$> job_items nums p now uuidv4 = groups nums.
Proof.
  intros Hne Hrange Hids Hp Hfresh batches.
  unfold draws in Hfresh. rewrite Hids, length_fmap in Hfresh.
  destruct (fresh_batch_ids uuidv4 nums (length nums) st) as (Hnd & Hnew & Hjob);
    [done..|].
  assert (batches = batch_id <$> job_items nums p now uuidv4) as Hb.
  { unfold batches. by rewrite groups_length, job_items_batch_ids. }
  eexists. split; [rewrite create_job_rounds, <- Hb; reflexivity|].
  split.
  { rewrite (ingest_accepts nums p) by done.
    rewrite create_job_rounds, <- Hb. reflexivity. }
  split; [apply groups_concat|]. split; [apply groups_sizes|].
  simpl. split; [|split; [|split; [|split; [|split]]]].
  - intros k g [Hk ->]%groups_lookup. split.
    { unfold group, BATCH_SIZE. do 2 f_equal. lia. }
    pose proof (add_batches_lookup (job_items nums p now uuidv4) st
                  (job_item nums p now uuidv4 k)) as H.
    simpl in H. apply H.
    + by rewrite job_items_batch_ids.
    + unfold job_items. apply list_elem_of_fmap. exists k. split; [done|].
      apply elem_of_seq. lia.
  - unfold batches. by rewrite groups_length.
  - intros u Hu. apply add_batches_lookup_other. by rewrite <- Hb.
  - by rewrite add_batches_jobs.
  - apply add_batches_items.
  - unfold job_items, groups. by rewrite <- list_fmap_compose.
Qed.

Lemma ingest_creates_job_and_batches_scenario_A :
  ∃ st1 : Store,
    create_job [1; 2; 3; 4] HIGH 1000000 (sample_uuid "A-") initial_store
    = ("A-a", ["A-b"; "A-c"], st1)
    ∧ groups [1; 2; 3; 4] = [[1; 2; 3]; [4]]
    ∧ batchStatuses st1 !! "A-b"
      = Some {| bs_batch_id := "A-b"; bs_ids := [1; 2; 3]; bs_status := yet_to_start |}
    ∧ batchStatuses st1 !! "A-c"
      = Some {| bs_batch_id := "A-c"; bs_ids := [4]; bs_status := yet_to_start |}
    ∧ (∀ u, u ∉ ["A-b"; "A-c"] → batchStatuses st1 !! u = None)
    ∧ ingestionJobs st1
      = {[ "A-a" := {| j_ingestion_id := "A-a"; j_status := yet_to_start;
                       j_batches := ["A-b"; "A-c"]; j_priority := HIGH;
                       j_created_time := 1000000 |} ]}.
Proof.
  destruct (ingest_creates_job_and_batches [1; 2; 3; 4] HIGH body_A 1000000
              (sample_uuid "A-") initial_store)
    as (st1 & Hcreate & _ & _ & _ & Hrec & _ & Hother & Hjob & _).
  - discriminate.
  - repeat constructor; lia.
  - reflexivity.
  - right. reflexivity.
  - apply (bool_decide_unpack _). vm_compute. reflexivity.
  - exists st1. split; [exact Hcreate|]. split; [reflexivity|].
    split; [exact (proj2 (Hrec 0%nat [1; 2; 3] eq_refl))|].
    split; [exact (proj2 (Hrec 1%nat [4] eq_refl))|].
    split; [exact Hother|exact Hjob].
Defined.

(** In scenario A the handler goes on to start the dispatcher, which
    finds the gate open and dispatches the first batch: when the answer
    is sent, the job is already [triggered]. *)
Example scenario_A_when_answered :
  let st := (ingest body_A 1000000 (sample_uuid "A-") initial_store).1.2 in
  j_status <$> ingestionJobs st !! "A-a" = Some triggered
  ∧ bs_status <$> batchStatuses st !! "A-b" = Some triggered
  ∧ bs_status <$> batchStatuses st !! "A-c" = Some yet_to_start
  ∧ batch_id <$> items (queue st) = ["A-c"].
Proof. vm_compute. done. Qed.

(** ** The trigger of the dispatcher *)

Lemma create_job_lengths nums p now uuidv4 st :
  queue_length (queue (create_job nums p now uuidv4 st).2)
  = (queue_length (queue st) + length (create_job nums p now uuidv4 st).1.2)%nat.
Proof.
  rewrite create_job_rounds. simpl. unfold queue_length.
  rewrite (Permutation_length (add_batches_items _ st)).
  by rewrite length_app, !length_fmap.
Qed.

(** C8. On a valid submission, line 125 is reached exactly when the
    queue, once the batches of the submission are in, is as long as the
    list of these batches, which is exactly when the queue was empty when
    the request came in. The run then started is the call of
    [processBatches] on the store of line 121. Otherwise no run is
    started and the store of line 121, with the new entries in its
    queue, is left as it is. *)
Theorem trigger_starts_run_iff_queue_was_empty
    (nums : list Z) (p : Priority) (body : Body) (now : Z)
    (uuidv4 : nat → uuid) (st : Store) :
  nums ≠ [] →
  Forall (λ n, 1 ≤ n ≤ 1000000007) nums →
  body_ids body = JsArray (JsInt <$> nums) →
  priority_of (body_priority body) p →
  let batches := (create_job nums p now uuidv4 st).1.2 in
  let st1 := (create_job nums p now uuidv4 st).2 in
  let r := ingest body now uuidv4 st in
  ((∃ o, r.2 = Started o) ↔ queue_length (queue st1) = length batches)
  ∧ (queue_length (queue st1) = length batches ↔ queue_length (queue st) = 0%nat)
  ∧ (queue_length (queue st) = 0%nat →
     r.1.2 = (processBatches now st1).1 ∧ r.2 = Started (processBatches now st1).2)
  ∧ (queue_length (queue st) ≠ 0%nat →
     r.1.2 = st1 ∧ r.2 = NotStarted
     ∧ ∀ e, e ∈ job_items nums p now uuidv4 → e ∈ items (queue r.1.2)).
Proof.
  intros Hne Hrange Hids Hp batches st1 r.
  pose proof (create_job_lengths nums p now uuidv4 st) as Hlen.
  fold st1 in Hlen. fold batches in Hlen.
  assert (r = ({| res_status := 200; res_json := IngestJson (uuidv4 0%nat) |},
               (trigger batches now st1).1, (trigger batches now st1).2)) as Hr.
  { unfold r. by rewrite (ingest_accepts nums p). }
  rewrite Hr. cbn [fst snd]. unfold trigger.
  case_bool_decide as Heq.
  - destruct (processBatches now st1) as [st2 o] eqn:Hrun. cbn [fst snd].
    split; [split; eauto|]. split; [split; [lia|done]|].
    split; [done|]. lia.
  - cbn [fst snd]. split; [split; [by intros [o ?]|done]|].
    split; [split; [done|lia]|]. split; [lia|].
    intros _. split; [done|]. split; [done|].
    intros e He. unfold st1. rewrite create_job_rounds. simpl.
    rewrite (add_batches_items _ st). apply elem_of_app. by right.
Qed.

Lemma trigger_starts_run_iff_queue_was_empty_scenario_A :
  (ingest body_A 1000000 (sample_uuid "A-") initial_store).2
  = Started (Suspended (AwaitFetch
      {| batch_id := "A-b"; ids := [1; 2; 3]; priority := HIGH;
         created_time := 1000000; ingestion_id := "A-a" |} 1 [2; 3])).
Proof.
  destruct (trigger_starts_run_iff_queue_was_empty [1; 2; 3; 4] HIGH body_A
              1000000 (sample_uuid "A-") initial_store)
    as (_ & _ & Hstart & _).
  - discriminate.
  - repeat constructor; lia.
  - reflexivity.
  - right. reflexivity.
  - rewrite (proj2 (Hstart eq_refl)). vm_compute. reflexivity.
Defined.

(** ** What [updateIngestionStatus] leaves alone *)

Lemma updateIngestionStatus_frame id st st' :
  updateIngestionStatus id st = Some st' →
  batchStatuses st' = batchStatuses st ∧ queue st' = queue st
  ∧ lastProcessedTime st' = lastProcessedTime st ∧ trace st' = trace st
  ∧ ∀ j job', ingestionJobs st' !! j = Some job' →
      ∃ job, ingestionJobs st !! j = Some job ∧ j_batches job' = j_batches job.
Proof.
  unfold updateIngestionStatus.
  destruct (ingestionJobs st !! id) as [job|] eqn:Hj.
  - destruct (js_every (has_status yet_to_start) _) as [a|]; simpl; [|done].
    destruct (js_some (has_status triggered) _) as [t|]; simpl; [|done].
    destruct (js_every (has_status completed) _) as [c|]; simpl; [|done].
    intros [= <-]. simpl. repeat split; try done.
    intros j job'. rewrite lookup_insert. case_decide as Hid.
    + subst j. intros [= <-]. by exists job.
    + intros H. by exists job'.
  - intros [= <-]. repeat split; try done. intros j job' H. by exists job'.
Qed.

Lemma jobs_recorded_lookups st id job :
  jobs_recorded st → ingestionJobs st !! id = Some job →
  ∃ recs, (λ b, batchStatuses st !! b) <$> j_batches job = Some <$> recs.
Proof.
  intros Hrec Hj. specialize (Hrec id job Hj).
  induction (j_batches job) as [|b bs IH]; [by exists []|].
  apply Forall_cons in Hrec as [[r Hr] Hbs].
  destruct (IH Hbs) as [recs Hrecs]. exists (r :: recs).
  rewrite !fmap_cons. by rewrite Hr, Hrecs.
Qed.

Lemma updateIngestionStatus_defined id st :
  jobs_recorded st → is_Some (updateIngestionStatus id st).
Proof.
  intros Hrec. unfold updateIngestionStatus.
  destruct (ingestionJobs st !! id) as [job|] eqn:Hj; [|done].
  destruct (jobs_recorded_lookups st id job Hrec Hj) as [recs ->].
  rewrite !js_every_defined, js_some_defined. simpl. done.
Qed.

Lemma updateIngestionStatus_recorded id st st' :
  updateIngestionStatus id st = Some st' → jobs_recorded st → jobs_recorded st'.
Proof.
  intros Hu Hrec j job' Hj.
  destruct (updateIngestionStatus_frame id st st' Hu) as (Hb & _ & _ & _ & Hjobs).
  destruct (Hjobs j job' Hj) as (job & Hjob & ->). rewrite Hb. by eapply Hrec.
Qed.

Lemma set_batch_recorded b s st : jobs_recorded st → jobs_recorded (set_batch b s st).
Proof.
  intros Hrec j job Hj. simpl in Hj. specialize (Hrec j job Hj).
  eapply Forall_impl; [exact Hrec|]. intros u Hu. simpl.
  rewrite lookup_insert. by case_decide.
Qed.

Lemma emit_recorded e st : jobs_recorded st → jobs_recorded (emit e st).
Proof. done. Qed.

(** ** The item loop *)

Lemma fetch_calls_app tr1 tr2 : fetch_calls (tr1 ++ tr2) = fetch_calls tr1 ++ fetch_calls tr2.
Proof. apply omap_app. Qed.

Lemma console_errors_app tr1 tr2 :
  console_errors (tr1 ++ tr2) = console_errors tr1 ++ console_errors tr2.
Proof. apply omap_app. Qed.

(** The end of a round: lines 76-78, then the head of the loop, which
    returns on an empty queue and otherwise waits the full interval. *)
Lemma round_end fuel batch now st :
  (2 ≤ fuel)%nat → jobs_recorded st →
  ∃ st', run_sync fuel (ItemLoop batch []) now st
         = (st', if bool_decide (0 < queue_length (queue st))%nat
                 then Suspended (AwaitRateLimit (now + RATE_LIMIT_MS))
                 else Returned)
    ∧ batchStatuses st' = <[batch_id batch :=
          {| bs_batch_id := batch_id batch; bs_ids := ids batch;
             bs_status := completed |}]> (batchStatuses st)
    ∧ queue st' = queue st
    ∧ lastProcessedTime st' = now
    ∧ trace st' = trace st ++ [Completed (batch_id batch) now]
    ∧ jobs_recorded st'.
Proof.
  intros Hfuel Hrec. destruct fuel as [|[|fuel]]; [lia..|].
  cbn [run_sync].
  destruct (updateIngestionStatus_defined (ingestion_id batch)
              (set_batch batch completed st)) as [st2 Hu];
    [by apply set_batch_recorded|].
  rewrite Hu.
  destruct (updateIngestionStatus_frame _ _ _ Hu) as (Hb & Hq & Hl & Ht & _).
  exists (emit (Completed (batch_id batch) now) (set_lastProcessedTime now st2)).
  split.
  - cbn [queue emit set_lastProcessedTime lastProcessedTime]. rewrite Hq.
    cbn [queue set_batch set_batchStatuses].
    case_bool_decide; [|reflexivity].
    rewrite Z.sub_diag, Z.sub_0_r. reflexivity.
  - pose proof (updateIngestionStatus_recorded _ _ _ Hu
                  (set_batch_recorded batch completed st Hrec)) as Hrec2.
    simpl. rewrite Hb, Hq, Ht. repeat split; try done.
Qed.

Lemma item_loop_settles batch rest :
  ∀ fuel now st results,
    (2 ≤ fuel)%nat → jobs_recorded st → length results = length rest →
    let r := settle_calls results (run_sync fuel (ItemLoop batch rest) now st) in
    fetch_calls (trace r.1) = fetch_calls (trace st) ++ rest
    ∧ console_errors (trace r.1)
      = console_errors (trace st) ++ failed_ids rest results
    ∧ batchStatuses r.1
      = <[batch_id batch :=
           {| bs_batch_id := batch_id batch; bs_ids := ids batch;
              bs_status := completed |}]> (batchStatuses st)
    ∧ queue r.1 = queue st
    ∧ r.2 = (if bool_decide (0 < queue_length (queue st))%nat
             then Suspended (AwaitRateLimit (lastProcessedTime r.1 + RATE_LIMIT_MS))
             else Returned)
    ∧ jobs_recorded r.1.
Proof.
  induction rest as [|id rest IH]; intros fuel now st results Hfuel Hrec Hlen.
  - destruct results; [|done].
    destruct (round_end fuel batch now st Hfuel Hrec)
      as (st' & -> & Hb & Hq & Hl & Ht & Hrec').
    simpl. rewrite Ht, Hl, fetch_calls_app, console_errors_app. simpl.
    by rewrite !app_nil_r.
  - destruct results as [|[ok t] results]; [done|].
    destruct fuel as [|fuel]; [lia|]. cbn [run_sync settle_calls resume].
    specialize (IH sync_fuel t (if ok then emit (FetchCall id) st
                                else emit (ConsoleError id) (emit (FetchCall id) st))
                   results).
    destruct IH as (Hf & Hc & Hb & Hq & Ho & Hr).
    { unfold sync_fuel. lia. }
    { by destruct ok. }
    { simpl in Hlen. lia. }
    cbn zeta. rewrite Hf, Hc, Hb, Hq, Ho.
    destruct ok; simpl; rewrite ?fetch_calls_app, ?console_errors_app; simpl;
      rewrite <- ?app_assoc, ?app_nil_r; done.
Qed.

Lemma run_sync_after_gate fuel now st batch q' :
  dequeue (queue st) = (Some batch, q') →
  run_sync (S fuel) AfterGate now st
  = let st2 := emit (Dispatched (batch_id batch) now)
                 (set_batch batch triggered (set_queue q' st)) in
    match updateIngestionStatus (ingestion_id batch) st2 with
    | None => (st2, Thrown)
    | Some st3 => run_sync fuel (ItemLoop batch (ids batch)) now st3
    end.
Proof. intros H. cbn [run_sync]. rewrite H. reflexivity. Qed.

(** C7. When the gate is passed with [batch] at the head of the queue,
    and whatever the results of the external calls are, the run calls
    the external operation once for each identifier of the batch, in
    their order, and for nothing else; it logs the identifiers whose
    call was rejected and goes on; the batch ends with the record
    [completed]; and the run then ends if the queue is empty and waits
    for the next round if it is not, the results playing no part in
    that. The jobs of the store are assumed to list recorded batches
    only, which holds in every state the server reaches. *)
Theorem dispatch_attempts_every_item
    (st : Store) (now : Z) (batch : QueueItem) (q' : PriorityQueue QueueItem)
    (results : list (bool * Z)) :
  jobs_recorded st →
  dequeue (queue st) = (Some batch, q') →
  length results = length (ids batch) →
  let r := settle_calls results (run_sync sync_fuel AfterGate now st) in
  fetch_calls (trace r.1) = fetch_calls (trace st) ++ ids batch
  ∧ console_errors (trace r.1)
    = console_errors (trace st) ++ failed_ids (ids batch) results
  ∧ batchStatuses r.1 !! batch_id batch
    = Some {| bs_batch_id := batch_id batch; bs_ids := ids batch;
              bs_status := completed |}
  ∧ queue r.1 = q'
  ∧ ((items q' = [] ∧ r.2 = Returned)
     ∨ (items q' ≠ []
        ∧ r.2 = Suspended (AwaitRateLimit (lastProcessedTime r.1 + RATE_LIMIT_MS)))).
Proof.
  intros Hrec Hdeq Hlen. unfold sync_fuel.
  rewrite (run_sync_after_gate _ now st batch q' Hdeq). cbn zeta.
  set (st2 := emit (Dispatched (batch_id batch) now)
                (set_batch batch triggered (set_queue q' st))).
  assert (jobs_recorded st2) as Hrec2.
  { apply emit_recorded, set_batch_recorded. exact Hrec. }
  destruct (updateIngestionStatus_defined (ingestion_id batch) st2 Hrec2)
    as [st3 Hu].
  rewrite Hu.
  destruct (updateIngestionStatus_frame _ _ _ Hu) as (Hb & Hq & Hl & Ht & _).
  pose proof (updateIngestionStatus_recorded _ _ _ Hu Hrec2) as Hrec3.
  destruct (item_loop_settles batch (ids batch) 4 now st3 results)
    as (Hf & Hc & Hbs & Hqs & Ho & _); [lia|done|done|].
  cbn zeta in *. rewrite Hf, Hc, Hbs, Hqs, Ho, Ht, Hq. simpl.
  rewrite fetch_calls_app, console_errors_app. simpl. rewrite !app_nil_r.
  split; [done|]. split; [done|].
  split; [by rewrite lookup_insert_eq|]. split; [done|].
  unfold queue_length. destruct (items q') as [|e l].
  - left. done.
  - right. split; [done|]. rewrite bool_decide_eq_true_2; [done|]. simpl. lia.
Qed.

Lemma jobs_recorded_decide st :
  map_Forall (λ _ job, Forall (λ b, is_Some (batchStatuses st !! b)) (j_batches job))
             (ingestionJobs st) →
  jobs_recorded st.
Proof. intros H id job Hj. exact (H id job Hj). Qed.

Lemma dispatch_attempts_every_item_scenario_A :
  let r := settle_calls results_A (run_sync sync_fuel AfterGate 1000000 store_A) in
  fetch_calls (trace r.1) = [1; 2; 3]
  ∧ console_errors (trace r.1) = [2]
  ∧ batchStatuses r.1 !! "A-b"
    = Some {| bs_batch_id := "A-b"; bs_ids := [1; 2; 3]; bs_status := completed |}
  ∧ r.2 = Suspended (AwaitRateLimit 1008000).
Proof.
  destruct (dispatch_attempts_every_item store_A 1000000
              {| batch_id := "A-b"; ids := [1; 2; 3]; priority := HIGH;
                 created_time := 1000000; ingestion_id := "A-a" |}
              {| items := [ {| batch_id := "A-c"; ids := [4]; priority := HIGH;
                               created_time := 1000000; ingestion_id := "A-a" |} ] |}
              results_A)
    as (Hf & Hc & Hb & Hq & Ho).
  - apply jobs_recorded_decide. apply (bool_decide_unpack _). vm_compute. reflexivity.
  - vm_compute. reflexivity.
  - reflexivity.
  - cbn zeta. split; [exact Hf|]. split; [exact Hc|]. split; [exact Hb|].
    vm_compute. reflexivity.
Defined.

(** ** The invariant of the server *)

Lemma statuses_advance_refl st : statuses_advance st st.
Proof. intros u r Hr. exists r. split; [done|lia]. Qed.

Lemma statuses_advance_trans st1 st2 st3 :
  statuses_advance st1 st2 → statuses_advance st2 st3 → statuses_advance st1 st3.
Proof.
  intros H12 H23 u r Hr. destruct (H12 u r Hr) as (r2 & Hr2 & Hle2).
  destruct (H23 u r2 Hr2) as (r3 & Hr3 & Hle3). exists r3. split; [done|lia].
Qed.

Lemma statuses_advance_same st st' :
  batchStatuses st' = batchStatuses st → statuses_advance st st'.
Proof. intros E u r Hr. exists r. rewrite E. split; [done|lia]. Qed.

Lemma status_rank_bounds s : 0 ≤ status_rank s ≤ 2.
Proof. destruct s; simpl; lia. Qed.

Lemma batch_in_flight_later st st' b :
  statuses_advance st st' → queue_ids st' ⊆ queue_ids st →
  batch_in_flight st b → batch_in_flight st' b.
Proof.
  intros Hadv Hsub [Hout [r Hr]]. split.
  - intros Hin. apply Hout, Hsub, Hin.
  - destruct (Hadv _ _ Hr) as (r' & Hr' & _). by exists r'.
Qed.

Lemma run_ok_later st st' k :
  statuses_advance st st' → queue_ids st' ⊆ queue_ids st →
  run_ok st k → run_ok st' k.
Proof. destruct k; [done|]. apply batch_in_flight_later. Qed.

Lemma evolves_refl st : store_ok st → evolves st st.
Proof. intros H. split; [done|]. split; [apply statuses_advance_refl|done]. Qed.

Lemma evolves_trans st1 st2 st3 : evolves st1 st2 → evolves st2 st3 → evolves st1 st3.
Proof.
  intros (_ & Ha & Hs) (Hok & Ha' & Hs'). split; [done|].
  split; [by eapply statuses_advance_trans|].
  intros u Hu. apply Hs, Hs', Hu.
Qed.

Lemma evolves_update id st st' :
  store_ok st → updateIngestionStatus id st = Some st' → evolves st st'.
Proof.
  intros (Hnd & Hyts & Hrec) Hu.
  destruct (updateIngestionStatus_frame _ _ _ Hu) as (Hb & Hq & _ & _ & _).
  unfold evolves, store_ok, queue_ids. rewrite Hq, Hb.
  split; [|split; [by apply statuses_advance_same|done]].
  split; [done|]. split; [done|]. by eapply updateIngestionStatus_recorded.
Qed.

Lemma evolves_emit e st : store_ok st → evolves st (emit e st).
Proof.
  intros H. split; [exact H|]. split; [by apply statuses_advance_same|done].
Qed.

Lemma evolves_time t st : store_ok st → evolves st (set_lastProcessedTime t st).
Proof.
  intros H. split; [exact H|]. split; [by apply statuses_advance_same|done].
Qed.

Lemma dequeue_some (q q' : PriorityQueue QueueItem) b :
  dequeue q = (Some b, q') → items q = b :: items q'.
Proof.
  unfold dequeue. destruct (items q) as [|x rest]; [done|].
  intros H. by simplify_eq.
Qed.

Lemma dequeue_none (q q' : PriorityQueue QueueItem) :
  dequeue q = (None, q') → items q = [] ∧ q' = q.
Proof.
  unfold dequeue. destruct (items q) as [|x rest]; [|done]. by intros [= <-].
Qed.

(** Lines 61-64: the batch leaves the queue and is marked [triggered]. *)
Lemma evolves_dispatch st b q' :
  store_ok st → dequeue (queue st) = (Some b, q') →
  evolves st (set_batch b triggered (set_queue q' st))
  ∧ batch_in_flight (set_batch b triggered (set_queue q' st)) b.
Proof.
  intros (Hnd & Hyts & Hrec) Hdeq%dequeue_some.
  unfold queue_ids in *. rewrite Hdeq, fmap_cons in Hnd, Hyts.
  apply NoDup_cons in Hnd as [Hout Hnd].
  apply Forall_cons in Hyts as [Hb Hyts].
  assert (batch_in_flight (set_batch b triggered (set_queue q' st)) b) as Hfl.
  { split; [exact Hout|]. simpl. rewrite lookup_insert_eq. done. }
  split; [|exact Hfl]. split; [|split].
  - split; [exact Hnd|]. split.
    + simpl. apply Forall_forall. intros u Hu.
      assert (batch_id b ≠ u) as Hne by (intros E; apply Hout; by rewrite E).
      rewrite lookup_insert_ne by exact Hne.
      rewrite Forall_forall in Hyts. by apply Hyts.
    + by apply set_batch_recorded.
  - intros u r Hr. simpl. rewrite lookup_insert. case_decide as Hu.
    + subst u. eexists. split; [done|]. rewrite Hr in Hb. simpl in *.
      injection Hb as ->. simpl. lia.
    + exists r. split; [done|lia].
  - unfold queue_ids. simpl. rewrite Hdeq, fmap_cons.
    intros u Hu. by apply elem_of_cons; right.
Qed.

(** Line 76: the batch in flight is marked [completed]. *)
Lemma evolves_complete st b :
  store_ok st → batch_in_flight st b →
  evolves st (set_batch b completed st)
  ∧ batch_in_flight (set_batch b completed st) b.
Proof.
  intros (Hnd & Hyts & Hrec) [Hout Hin].
  assert (batch_in_flight (set_batch b completed st) b) as Hfl.
  { split; [exact Hout|]. simpl. rewrite lookup_insert_eq. done. }
  split; [|exact Hfl]. split; [|split].
  - split; [exact Hnd|]. split.
    + simpl. apply Forall_forall. intros u Hu.
      assert (batch_id b ≠ u) as Hne by (intros E; apply Hout; by rewrite E).
      rewrite lookup_insert_ne by exact Hne.
      rewrite Forall_forall in Hyts. by apply Hyts.
    + by apply set_batch_recorded.
  - intros u r Hr. simpl. rewrite lookup_insert. case_decide as Hu.
    + subst u. eexists. split; [done|]. simpl.
      pose proof (status_rank_bounds (bs_status r)). lia.
    + exists r. split; [done|lia].
  - done.
Qed.

Lemma run_sync_evolves fuel :
  ∀ pt now st,
    store_ok st → point_ok st pt →
    evolves st (run_sync fuel pt now st).1
    ∧ outcome_ok (run_sync fuel pt now st).1 (run_sync fuel pt now st).2.
Proof.
  induction fuel as [|fuel IH]; intros pt now st Hok Hpt.
  { simpl. split; [by apply evolves_refl|done]. }
  destruct pt as [| |b [|id rest]]; cbn [run_sync].
  - case_bool_decide; [|split; [by apply evolves_refl|done]].
    destruct (now - lastProcessedTime st <? RATE_LIMIT_MS).
    + split; [by apply evolves_refl|done].
    + by apply IH.
  - destruct (dequeue (queue st)) as [[b|] q'] eqn:Hdeq;
      [|split; [by apply evolves_refl|done]].
    destruct (evolves_dispatch st b q' Hok Hdeq) as [Hev Hfl].
    set (st1 := set_batch b triggered (set_queue q' st)) in *.
    assert (evolves st (emit (Dispatched (batch_id b) now) st1)) as Hev2.
    { eapply evolves_trans; [exact Hev|]. apply evolves_emit, Hev. }
    destruct (updateIngestionStatus (ingestion_id b) _) as [st3|] eqn:Hu;
      [|split; [exact Hev2|done]].
    pose proof (evolves_update _ _ _ (proj1 Hev2) Hu) as Hev3.
    destruct (IH (ItemLoop b (ids b)) now st3) as [Hev4 Hout].
    { apply Hev3. }
    { simpl. eapply batch_in_flight_later; [apply Hev3..|]. exact Hfl. }
    split; [|exact Hout].
    eapply evolves_trans; [exact Hev2|]. eapply evolves_trans; [exact Hev3|exact Hev4].
  - destruct (evolves_complete st b Hok Hpt) as [Hev Hfl].
    destruct (updateIngestionStatus (ingestion_id b) _) as [st2|] eqn:Hu;
      [|split; [exact Hev|done]].
    pose proof (evolves_update _ _ _ (proj1 Hev) Hu) as Hev2.
    set (st3 := emit (Completed (batch_id b) now) (set_lastProcessedTime now st2)).
    assert (evolves st2 st3) as Hev3.
    { eapply evolves_trans; [apply evolves_time, Hev2|].
      apply evolves_emit. apply (evolves_time now st2), Hev2. }
    destruct (IH LoopHead now st3) as [Hev4 Hout]; [apply Hev3|done|].
    split; [|exact Hout].
    eapply evolves_trans; [exact Hev|]. eapply evolves_trans; [exact Hev2|].
    eapply evolves_trans; [exact Hev3|exact Hev4].
  - split; [by apply evolves_emit|]. exact Hpt.
Qed.

(** ** The handler keeps the invariant *)

Lemma ingest_cases body now uuidv4 st :
  (∃ nums p,
      nums ≠ [] ∧ Forall (λ n, 1 ≤ n ≤ 1000000007) nums
      ∧ body_ids body = JsArray (JsInt <$> nums)
      ∧ priority_of (body_priority body) p
      ∧ ingest body now uuidv4 st
        = ({| res_status := 200; res_json := IngestJson (uuidv4 0%nat) |},
           (trigger (create_job nums p now uuidv4 st).1.2 now
                    (create_job nums p now uuidv4 st).2).1,
           (trigger (create_job nums p now uuidv4 st).1.2 now
                    (create_job nums p now uuidv4 st).2).2))
  ∨ (¬ valid_submission body
     ∧ ∃ msg, ingest body now uuidv4 st
              = ({| res_status := 400; res_json := ErrorJson msg |}, st, NotStarted)).
Proof.
  destruct (valid_submission_or_not body) as [Hv|Hv].
  - left. apply valid_submission_spec in Hv as (nums & p & H1 & H2 & H3 & H4).
    exists nums, p. repeat (split; [done|]). by apply ingest_accepts.
  - right. split; [done|]. by apply ingest_refuses.
Qed.

Lemma add_batches_kept es st u r :
  Forall (λ u, batchStatuses st !! u = None) (batch_id <$> es) →
  batchStatuses st !! u = Some r →
  batchStatuses (foldl add_batch st es) !! u = Some r.
Proof.
  intros Hnew Hr. rewrite add_batches_lookup_other; [done|].
  intros Hu. rewrite Forall_forall in Hnew. specialize (Hnew u Hu). congruence.
Qed.

Lemma add_batches_new es st u r :
  NoDup (batch_id <$> es) →
  batchStatuses st !! u = None →
  batchStatuses (foldl add_batch st es) !! u = Some r →
  u ∈ batch_id <$> es ∧ bs_status r = yet_to_start.
Proof.
  intros Hnd Hnone Hr.
  destruct (decide (u ∈ batch_id <$> es)) as [Hu|Hu].
  - split; [done|]. apply list_elem_of_fmap in Hu as (e & -> & He).
    rewrite (add_batches_lookup es st e Hnd He) in Hr. by injection Hr as <-.
  - rewrite add_batches_lookup_other in Hr by done. congruence.
Qed.

Lemma add_batches_queue_ids es st :
  queue_ids (foldl add_batch st es) ≡ₚ queue_ids st ++ (batch_id <$> es).
Proof.
  unfold queue_ids. by rewrite (add_batches_items es st), fmap_app.
Qed.

(** Lines 108-121 on a well-formed store, with new identifiers. *)
Lemma create_job_ok nums p now uuidv4 st :
  store_ok st →
  fresh uuidv4 (S (length nums)) st →
  let st1 := (create_job nums p now uuidv4 st).2 in
  store_ok st1
  ∧ (∀ u r, batchStatuses st !! u = Some r → batchStatuses st1 !! u = Some r)
  ∧ (∀ u r, batchStatuses st !! u = None → batchStatuses st1 !! u = Some r →
       bs_status r = yet_to_start)
  ∧ (∀ b, batch_in_flight st b → batch_in_flight st1 b).
Proof.
  intros (Hnd & Hyts & Hrec) Hfresh.
  destruct (fresh_batch_ids uuidv4 nums (length nums) st) as (Hnd' & Hnew & Hjob);
    [done..|].
  rewrite <- job_items_batch_ids with (p := p) (now := now) in Hnd', Hnew.
  rewrite create_job_rounds. cbn [snd].
  set (es := job_items nums p now uuidv4) in *.
  assert (∀ u, u ∈ queue_ids st → u ∉ batch_id <$> es) as Hdisj.
  { intros u Hu Hu'. rewrite Forall_forall in Hyts, Hnew.
    specialize (Hyts u Hu). rewrite (Hnew u Hu') in Hyts. done. }
  split; [|split; [|split]].
  - split; [|split].
    + unfold queue_ids. cbn [queue set_ingestionJobs].
      fold (queue_ids (foldl add_batch st es)). rewrite add_batches_queue_ids.
      apply NoDup_app. split; [done|]. split; [exact Hdisj|done].
    + unfold queue_ids. cbn [queue set_ingestionJobs batchStatuses].
      fold (queue_ids (foldl add_batch st es)). rewrite add_batches_queue_ids.
      apply Forall_app. split.
      * apply Forall_forall. intros u Hu.
        rewrite add_batches_lookup_other by (by apply Hdisj).
        rewrite Forall_forall in Hyts. by apply Hyts.
      * apply Forall_forall. intros u (e & -> & He)%list_elem_of_fmap.
        by rewrite (add_batches_lookup es st e Hnd' He).
    + intros j job. cbn [ingestionJobs set_ingestionJobs batchStatuses].
      rewrite add_batches_jobs, lookup_insert. case_decide as Hj.
      * intros [= <-]. simpl. apply Forall_forall.
        intros u (e & -> & He)%list_elem_of_fmap.
        by rewrite (add_batches_lookup es st e Hnd' He).
      * intros Hjob'. specialize (Hrec j job Hjob').
        eapply Forall_impl; [exact Hrec|]. intros u [r Hr].
        exists r. by apply add_batches_kept.
  - intros u r Hr. cbn [batchStatuses set_ingestionJobs]. by apply add_batches_kept.
  - intros u r Hnone Hr. cbn [batchStatuses set_ingestionJobs] in Hr.
    by destruct (add_batches_new es st u r Hnd' Hnone Hr).
  - intros b [Hout [r Hr]]. split.
    + unfold queue_ids. cbn [queue set_ingestionJobs].
      fold (queue_ids (foldl add_batch st es)). rewrite add_batches_queue_ids.
      rewrite elem_of_app. intros [Hin|Hin]; [done|].
      rewrite Forall_forall in Hnew. specialize (Hnew _ Hin). congruence.
    + exists r. cbn [batchStatuses set_ingestionJobs]. by apply add_batches_kept.
Qed.

Lemma statuses_advance_kept st st' :
  (∀ u r, batchStatuses st !! u = Some r → batchStatuses st' !! u = Some r) →
  statuses_advance st st'.
Proof. intros H u r Hr. exists r. split; [by apply H|lia]. Qed.

(** ** The steps of the server keep the invariant *)

Lemma settle_ok i st0 st1 o rs :
  evolves st0 st1 → outcome_ok st1 o → Forall (run_ok st0) rs →
  store_ok (settle i (st1, o) rs).1
  ∧ Forall (run_ok (settle i (st1, o) rs).1) (settle i (st1, o) rs).2
  ∧ statuses_advance st0 (settle i (st1, o) rs).1.
Proof.
  intros Hev Hout Hrs.
  assert (Forall (run_ok st1) rs) as Hrs1.
  { eapply Forall_impl; [exact Hrs|]. intros k. apply run_ok_later; apply Hev. }
  assert (Forall (run_ok st1) (match i with Some i => delete i rs | None => rs end))
    as Hdel.
  { destruct i; [by apply Forall_delete|done]. }
  destruct o as [k| | |]; cbn [settle fst snd].
  - split; [apply Hev|]. split; [|apply Hev].
    destruct i; [by apply Forall_insert|]. apply Forall_app. split; [done|].
    by constructor.
  - split; [apply Hev|]. split; [done|apply Hev].
  - split; [apply Hev|]. split; [done|apply Hev].
  - split; [apply Hev|]. split; [done|apply Hev].
Qed.

Lemma step_keeps_invariant s a now s' :
  system_ok s → step s a now s' →
  system_ok s' ∧ statuses_advance (store s) (store s').
Proof.
  intros [Hok Hruns] Hstep.
  destruct Hstep as [s body uuidv4 now resp st' t st'' rs'' Hclock Hfresh Hing Hset
                    |s id now Hclock
                    |s i wake now st' rs' Hclock Hrun Hwake Hset
                    |s i batch id rest ok now st' rs' Hclock Hrun Hset];
    cbn [store runs].
  - destruct (ingest_cases body now uuidv4 (store s))
      as [(nums & p & Hne & Hrange & Hids & Hp & E)|(_ & msg & E)];
      rewrite E in Hing; injection Hing as <- <- <-.
    + unfold draws in Hfresh. rewrite Hids, length_fmap in Hfresh.
      destruct (create_job_ok nums p now uuidv4 (store s) Hok Hfresh)
        as (Hok1 & Hkept & _ & Hflight).
      set (st1 := (create_job nums p now uuidv4 (store s)).2) in *.
      assert (Forall (run_ok st1) (runs s)) as Hruns1.
      { eapply Forall_impl; [exact Hruns|]. intros [|b ? ?]; [done|]. apply Hflight. }
      pose proof (statuses_advance_kept _ _ Hkept) as Hadv1.
      unfold trigger in Hset. case_bool_decide.
      * unfold processBatches in Hset.
        destruct (run_sync_evolves sync_fuel LoopHead now st1 Hok1 I) as [Hev Hout].
        destruct (run_sync sync_fuel LoopHead now st1) as [st2 o]. cbn [fst snd] in *.
        destruct (settle_ok None st1 st2 o (runs s) Hev Hout Hruns1)
          as (Hok' & Hruns' & Hadv').
        rewrite <- Hset in *. cbn [fst snd] in *.
        split; [by split|]. by eapply statuses_advance_trans.
      * cbn [fst snd] in Hset. injection Hset as -> ->. split; [by split|done].
    + injection Hset as -> ->. split; [by split|apply statuses_advance_refl].
  - split; [by split|apply statuses_advance_refl].
  - unfold resume in Hset.
    destruct (run_sync_evolves sync_fuel AfterGate now (store s) Hok I) as [Hev Hout].
    destruct (run_sync sync_fuel AfterGate now (store s)) as [st2 o].
    cbn [fst snd] in *.
    destruct (settle_ok (Some i) (store s) st2 o (runs s) Hev Hout Hruns)
      as (Hok' & Hruns' & Hadv').
    rewrite <- Hset in *. cbn [fst snd] in *. split; [by split|done].
  - unfold resume in Hset.
    assert (batch_in_flight (store s) batch) as Hfl.
    { rewrite Forall_lookup in Hruns. exact (Hruns i _ Hrun). }
    set (st1 := if ok then store s else emit (ConsoleError id) (store s)) in *.
    assert (evolves (store s) st1) as Hev1.
    { unfold st1. destruct ok; [by apply evolves_refl|by apply evolves_emit]. }
    assert (point_ok st1 (ItemLoop batch rest)) as Hpt.
    { unfold st1. by destruct ok. }
    destruct (run_sync_evolves sync_fuel (ItemLoop batch rest) now st1
                (proj1 Hev1) Hpt) as [Hev Hout].
    destruct (run_sync sync_fuel (ItemLoop batch rest) now st1) as [st2 o].
    cbn [fst snd] in *.
    destruct (settle_ok (Some i) (store s) st2 o (runs s)
                (evolves_trans _ _ _ Hev1 Hev) Hout Hruns)
      as (Hok' & Hruns' & Hadv').
    rewrite <- Hset in *. cbn [fst snd] in *. split; [by split|done].
Qed.

Lemma initial_system_ok : system_ok initial_system.
Proof.
  split; [|constructor]. split; [constructor|]. split; [constructor|].
  intros id job H. change ((∅ : gmap string Job) !! id = Some job) in H.
  by rewrite lookup_empty in H.
Qed.

Lemma reachable_ok s : reachable s → system_ok s.
Proof.
  induction 1 as [|s a now s' _ IH Hstep]; [apply initial_system_ok|].
  by destruct (step_keeps_invariant s a now s' IH Hstep).
Qed.

Lemma steps_advance s l s' :
  system_ok s → steps s l s' →
  system_ok s' ∧ statuses_advance (store s) (store s').
Proof.
  intros Hok Hsteps. induction Hsteps as [s|s a now s' l s'' Hstep _ IH].
  - split; [done|apply statuses_advance_refl].
  - destruct (step_keeps_invariant s a now s' Hok Hstep) as [Hok' Hadv].
    destruct (IH Hok') as [Hok'' Hadv']. split; [done|].
    by eapply statuses_advance_trans.
Qed.

Lemma create_job_statuses nums p now uuidv4 st :
  fresh uuidv4 (S (length nums)) st →
  (∀ u r, batchStatuses st !! u = Some r →
     batchStatuses (create_job nums p now uuidv4 st).2 !! u = Some r)
  ∧ (∀ u r, batchStatuses st !! u = None →
       batchStatuses (create_job nums p now uuidv4 st).2 !! u = Some r →
       bs_status r = yet_to_start).
Proof.
  intros Hfresh.
  destruct (fresh_batch_ids uuidv4 nums (length nums) st) as (Hnd & Hnew & _);
    [done..|].
  rewrite <- job_items_batch_ids with (p := p) (now := now) in Hnd, Hnew.
  rewrite create_job_rounds. cbn [snd batchStatuses set_ingestionJobs]. split.
  - intros u r. by apply add_batches_kept.
  - intros u r Hnone Hr. by destruct (add_batches_new _ st u r Hnd Hnone Hr).
Qed.

Lemma step_who_writes s a now s' :
  step s a now s' →
  match a with
  | GetStatus _ => store s' = store s
  | PostIngest body uuidv4 =>
      store s' = store s
      ∨ ∃ nums p,
          body_ids body = JsArray (JsInt <$> nums)
          ∧ (store s' = (create_job nums p now uuidv4 (store s)).2
             ∨ store s'
               = (settle None
                    (processBatches now (create_job nums p now uuidv4 (store s)).2)
                    (runs s)).1)
  | TimerFires i =>
      ∃ wake, runs s !! i = Some (AwaitRateLimit wake)
        ∧ store s' = (settle (Some i) (resume (AwaitRateLimit wake) true now (store s))
                             (runs s)).1
  | FetchSettles i ok =>
      ∃ batch id rest, runs s !! i = Some (AwaitFetch batch id rest)
        ∧ store s' = (settle (Some i) (resume (AwaitFetch batch id rest) ok now (store s))
                             (runs s)).1
  end.
Proof.
  intros Hstep.
  destruct Hstep as [s body uuidv4 now resp st' t st'' rs'' Hclock Hfresh Hing Hset
                    |s id now Hclock
                    |s i wake now st' rs' Hclock Hrun Hwake Hset
                    |s i batch id rest ok now st' rs' Hclock Hrun Hset];
    cbn [store].
  - destruct (ingest_cases body now uuidv4 (store s))
      as [(nums & p & Hne & Hrange & Hids & Hp & E)|(_ & msg & E)];
      rewrite E in Hing; injection Hing as <- <- <-.
    + right. exists nums, p. split; [done|]. unfold trigger in Hset.
      case_bool_decide.
      * right. destruct (processBatches now _) as [st2 o]. cbn [fst snd] in Hset.
        by rewrite <- Hset.
      * left. cbn [fst snd] in Hset. by injection Hset as -> ->.
    + left. by injection Hset as -> ->.
  - done.
  - exists wake. split; [done|]. by rewrite <- Hset.
  - exists batch, id, rest. split; [done|]. by rewrite <- Hset.
Qed.

(** C3. Along every run of the server from its start, a record of
    [batchStatuses] is never lost and its status never goes back in the
    order [yet_to_start], [triggered], [completed]: a batch seen
    [triggered] is not seen [yet_to_start] later, a batch seen
    [completed] stays so. Lines 108-121 leave every record they find as it
    is and give the ones they add the status [yet_to_start]. A status
    query leaves the store as it is, and what a submission does to the
    store beyond lines 108-121 is the call of [processBatches]; the
    other steps are stretches of the dispatcher. It is assumed that
    [uuidv4] returns identifiers that are new. *)
Theorem batch_status_only_advances :
  (∀ (s : System) (l : list (Action * Z)) (s' : System),
     reachable s → steps s l s' →
     ∀ u r, batchStatuses (store s) !! u = Some r →
       ∃ r', batchStatuses (store s') !! u = Some r'
         ∧ status_rank (bs_status r) ≤ status_rank (bs_status r')
         ∧ (bs_status r = triggered → bs_status r' ≠ yet_to_start)
         ∧ (bs_status r = completed → bs_status r' = completed))
  ∧ (∀ (nums : list Z) (p : Priority) (now : Z) (uuidv4 : nat → uuid) (st : Store),
       fresh uuidv4 (S (length nums)) st →
       (∀ u r, batchStatuses st !! u = Some r →
          batchStatuses (create_job nums p now uuidv4 st).2 !! u = Some r)
       ∧ (∀ u r, batchStatuses st !! u = None →
            batchStatuses (create_job nums p now uuidv4 st).2 !! u = Some r →
            bs_status r = yet_to_start))
  ∧ (∀ (s : System) (a : Action) (now : Z) (s' : System),
       step s a now s' →
       match a with
       | GetStatus _ => store s' = store s
       | PostIngest body uuidv4 =>
           store s' = store s
           ∨ ∃ nums p,
               body_ids body = JsArray (JsInt <$> nums)
               ∧ (store s' = (create_job nums p now uuidv4 (store s)).2
                  ∨ store s'
                    = (settle None
                         (processBatches now
                            (create_job nums p now uuidv4 (store s)).2)
                         (runs s)).1)
       | TimerFires i =>
           ∃ wake, runs s !! i = Some (AwaitRateLimit wake)
             ∧ store s'
               = (settle (Some i) (resume (AwaitRateLimit wake) true now (store s))
                         (runs s)).1
       | FetchSettles i ok =>
           ∃ batch id rest, runs s !! i = Some (AwaitFetch batch id rest)
             ∧ store s'
               = (settle (Some i)
                    (resume (AwaitFetch batch id rest) ok now (store s)) (runs s)).1
       end).
Proof.
  split; [|split; [exact create_job_statuses|exact step_who_writes]].
  intros s l s' Hreach Hsteps u r Hr.
  destruct (steps_advance s l s' (reachable_ok s Hreach) Hsteps) as [_ Hadv].
  destruct (Hadv u r Hr) as (r' & Hr' & Hle). exists r'.
  split; [done|]. split; [done|].
  destruct (bs_status r), (bs_status r'); simpl in Hle; split; intros; try done; lia.
Qed.

(** ** Running the samples *)

Lemma do_action_step a now s s' : do_action a now s = Some s' → step s a now s'.
Proof.
  unfold do_action. case_bool_decide as Hclock; [|done].
  destruct a as [body uuidv4|id|i|i ok].
  - case_bool_decide as Hfresh; [|done]. intros [= <-].
    destruct (ingest body now uuidv4 (store s)) as [[resp st'] t] eqn:Hing.
    eapply step_ingest; [done..|]. cbn [fst snd].
    destruct t as [|o]; [done|]. symmetry. apply surjective_pairing.
  - intros [= <-]. by constructor.
  - destruct (runs s !! i) as [[wake|]|] eqn:Hrun; try done.
    case_bool_decide as Hwake; [|done]. intros [= <-].
    eapply step_timer; [done..|]. symmetry. apply surjective_pairing.
  - destruct (runs s !! i) as [[|batch id rest]|] eqn:Hrun; try done.
    intros [= <-]. eapply step_fetch; [done..|]. symmetry. apply surjective_pairing.
Qed.

Lemma do_actions_steps l s s' : do_actions l s = Some s' → steps s l s'.
Proof.
  revert s. induction l as [|[a now] l IH]; intros s; simpl.
  - intros [= <-]. constructor.
  - destruct (do_action a now s) as [s1|] eqn:Hs1; [|done]. intros H.
    econstructor; [by apply do_action_step|by apply IH].
Qed.

Lemma steps_reachable s l s' : reachable s → steps s l s' → reachable s'.
Proof.
  intros Hreach Hsteps. induction Hsteps as [s|s a now s' l s'' Hstep _ IH]; [done|].
  apply IH. by econstructor.
Qed.

(** C4. Two submissions arrive half a second apart on a server that has
    just started. The first one finds the queue empty and starts a run,
    which dispatches its batch and waits on the external call. The
    second one finds the queue empty again, since the batch of the first
    has left it, and line 125 starts a second run while the first is
    still at work; [lastProcessedTime] is still 0, the gate is open, and
    the second batch is marked [triggered] 500 ms after the first and
    500 ms before the first is completed. The spacing of the
    specification does not hold in this run of the server. *)
Theorem overlapping_runs_break_spacing :
  ∃ s : System,
    reachable s
    ∧ steps initial_system overlap s
    ∧ trace (store s)
      = [ Dispatched "A-b" 1700000000000; FetchCall 1;
          Dispatched "B-b" 1700000000500; FetchCall 2;
          Completed "A-b" 1700000001000 ]
    ∧ lastProcessedTime (store s) = 1700000001000
    ∧ ¬ spaced (trace (store s)).
Proof.
  destruct (do_actions overlap initial_system) as [s|] eqn:Hrun;
    [|vm_compute in Hrun; discriminate Hrun].
  exists s. pose proof (do_actions_steps _ _ _ Hrun) as Hsteps.
  split; [exact (steps_reachable _ _ _ reachable_initial Hsteps)|].
  split; [exact Hsteps|].
  assert (trace (store s)
          = [ Dispatched "A-b" 1700000000000; FetchCall 1;
              Dispatched "B-b" 1700000000500; FetchCall 2;
              Completed "A-b" 1700000001000 ]
          ∧ lastProcessedTime (store s) = 1700000001000) as [Htr Hlast].
  { vm_compute in Hrun. injection Hrun as <-. split; reflexivity. }
  split; [exact Htr|]. split; [exact Hlast|].
  rewrite Htr. intros Hsp.
  destruct (Hsp 0%nat "A-b" 1700000000000 "B-b" 1700000000500 eq_refl eq_refl)
    as (tc & Htc & Hle).
  vm_compute in Htc. injection Htc as <-. unfold RATE_LIMIT_MS in Hle. lia.
Qed.

Lemma batch_status_only_advances_sample :
  bs_status <$> (batchStatuses (store (after (take 2 overlap))) !! "A-b")
  = Some triggered
  ∧ ∃ r', batchStatuses (store (after overlap)) !! "A-b" = Some r'
          ∧ bs_status r' ≠ yet_to_start.
Proof.
  split; [vm_compute; reflexivity|].
  destruct (proj1 batch_status_only_advances
              (after (take 2 overlap)) (drop 2 overlap) (after overlap))
    with (u := "A-b")
         (r := {| bs_batch_id := "A-b"; bs_ids := [1]; bs_status := triggered |})
    as (r' & Hr' & _ & Hnot & _).
  - apply (steps_reachable initial_system (take 2 overlap)); [constructor|].
    apply do_actions_steps. vm_compute. reflexivity.
  - apply do_actions_steps. vm_compute. reflexivity.
  - vm_compute. reflexivity.
  - exists r'. split; [exact Hr'|]. apply Hnot. reflexivity.
Defined.

(** ** Samples of the scheduler *)

(** Scenario B of the specification: a [LOW] batch submitted while two
    [HIGH] batches are pending leaves the queue after them, although it
    was enqueued between them and carries the earliest time. *)
Example scenario_B :
  let high1 := {| batch_id := "h1"; ids := [1; 2; 3]; priority := HIGH;
                  created_time := 200; ingestion_id := "H" |} in
  let low := {| batch_id := "l1"; ids := [5]; priority := LOW;
                created_time := 100; ingestion_id := "L" |} in
  let high2 := {| batch_id := "h2"; ids := [4]; priority := HIGH;
                  created_time := 200; ingestion_id := "H" |} in
  (run_ops [Enqueue high1; Enqueue low; Enqueue high2;
            Dequeue; Dequeue; Dequeue; Dequeue] new_queue).2
  = [Some high1; Some high2; Some low; None].
Proof. vm_compute. reflexivity. Qed.

Lemma tied_entries_leave_in_insertion_order_sample :
  let high1 := {| batch_id := "h1"; ids := [1; 2; 3]; priority := HIGH;
                  created_time := 200; ingestion_id := "H" |} in
  let low := {| batch_id := "l1"; ids := [5]; priority := LOW;
                created_time := 100; ingestion_id := "L" |} in
  let high2 := {| batch_id := "h2"; ids := [4]; priority := HIGH;
                  created_time := 200; ingestion_id := "H" |} in
  let out := (run_ops ([Enqueue low; Enqueue high1; Enqueue high2]
                         ++ replicate 3 Dequeue) new_queue).2 in
  filter (tied rank_time (HIGH, 200)) (returned out) = [high1; high2].
Proof.
  intros high1 low high2 out.
  destruct (proj1 (proj2 (proj2 (proj2 tied_entries_leave_in_insertion_order)))
              [Enqueue low; Enqueue high1; Enqueue high2] new_queue HIGH 200)
    as (_ & _ & H).
  exact H.
Defined.

(** ** The fuel is enough, and queued entries have a run *)

Lemma item_loop_ends fuel b rest now st :
  (2 ≤ fuel)%nat → jobs_recorded st →
  suspended_or_drained (run_sync fuel (ItemLoop b rest) now st).
Proof.
  intros Hfuel Hrec. destruct rest as [|id rest].
  - destruct (round_end fuel b now st Hfuel Hrec) as (st' & -> & _ & Hq & _).
    unfold suspended_or_drained. cbn [fst snd]. rewrite Hq.
    case_bool_decide as Hlen; [left; by eexists|].
    right. split; [by left|]. unfold queue_length in Hlen.
    destruct (items (queue st)); [done|]. simpl in Hlen. lia.
  - destruct fuel; [lia|]. left. by eexists.
Qed.

Lemma after_gate_ends fuel now st :
  (3 ≤ fuel)%nat → jobs_recorded st →
  suspended_or_drained (run_sync fuel AfterGate now st).
Proof.
  intros Hfuel Hrec. destruct fuel as [|fuel]; [lia|].
  destruct (dequeue (queue st)) as [[b|] q'] eqn:Hdeq.
  - rewrite (run_sync_after_gate fuel now st b q' Hdeq). cbn zeta.
    set (st2 := emit (Dispatched (batch_id b) now)
                  (set_batch b triggered (set_queue q' st))).
    assert (jobs_recorded st2) as Hrec2 by by apply emit_recorded, set_batch_recorded.
    destruct (updateIngestionStatus_defined (ingestion_id b) st2 Hrec2) as [st3 Hu].
    rewrite Hu. apply item_loop_ends; [lia|].
    by eapply updateIngestionStatus_recorded.
  - cbn [run_sync]. rewrite Hdeq. apply dequeue_none in Hdeq as [Hq _].
    right. split; [by right|done].
Qed.

Lemma loop_head_ends fuel now st :
  (4 ≤ fuel)%nat → jobs_recorded st →
  suspended_or_drained (run_sync fuel LoopHead now st).
Proof.
  intros Hfuel Hrec. destruct fuel as [|fuel]; [lia|]. cbn [run_sync].
  case_bool_decide as Hlen.
  - destruct (now - lastProcessedTime st <? RATE_LIMIT_MS).
    + left. by eexists.
    + apply after_gate_ends; [lia|done].
  - right. split; [by left|]. unfold queue_length in Hlen. simpl.
    destruct (items (queue st)); [done|]. simpl in Hlen. lia.
Qed.

(** No stretch of the dispatcher runs out of the fuel it is given. *)
Lemma sync_fuel_enough pt now st :
  jobs_recorded st → (run_sync sync_fuel pt now st).2 ≠ OutOfFuel.
Proof.
  intros Hrec.
  assert (suspended_or_drained (run_sync sync_fuel pt now st)) as H.
  { destruct pt; [apply loop_head_ends|apply after_gate_ends|apply item_loop_ends];
      unfold sync_fuel; done || lia. }
  destruct H as [[k ->]|[[-> | ->] _]]; done.
Qed.

Lemma settle_has_worker i st1 o rs :
  suspended_or_drained (st1, o) →
  (∀ j, i = Some j → is_Some (rs !! j)) →
  items (queue (settle i (st1, o) rs).1) ≠ [] → (settle i (st1, o) rs).2 ≠ [].
Proof.
  intros [[k Hk]|[Hend Hq]] Hi; cbn [fst snd] in *.
  - subst o. cbn [settle fst snd]. intros _. destruct i as [j|].
    + destruct (Hi j eq_refl) as [k0 Hk0]. intros Hnil.
      apply (f_equal length) in Hnil. rewrite length_insert in Hnil.
      apply lookup_lt_Some in Hk0. simpl in Hnil. lia.
    + by destruct rs.
  - destruct Hend as [-> | ->]; cbn [settle fst snd]; simpl; by rewrite Hq.
Qed.

Lemma reachable_has_worker s : reachable s → has_worker s.
Proof.
  induction 1 as [|s a now s' Hreach IH Hstep]; [intros H; by destruct H|].
  pose proof (reachable_ok s Hreach) as [Hok Hruns].
  destruct Hstep as [s body uuidv4 now resp st' t st'' rs'' Hclock Hfresh Hing Hset
                    |s id now Hclock
                    |s i wake now st' rs' Hclock Hrun Hwake Hset
                    |s i batch id rest ok now st' rs' Hclock Hrun Hset];
    unfold has_worker; cbn [store runs].
  - destruct (ingest_cases body now uuidv4 (store s))
      as [(nums & p & Hne & Hrange & Hids & Hp & E)|(_ & msg & E)];
      rewrite E in Hing; injection Hing as <- <- <-.
    + unfold draws in Hfresh. rewrite Hids, length_fmap in Hfresh.
      destruct (create_job_ok nums p now uuidv4 (store s) Hok Hfresh)
        as ((_ & _ & Hrec1) & _).
      pose proof (create_job_lengths nums p now uuidv4 (store s)) as Hlen.
      unfold trigger in Hset. case_bool_decide as Heq.
      * unfold processBatches in Hset.
        pose proof (loop_head_ends sync_fuel now _ ltac:(unfold sync_fuel; lia) Hrec1)
          as Hend.
        destruct (run_sync sync_fuel LoopHead now _) as [st2 o].
        cbn [fst snd] in Hset.
        pose proof (settle_has_worker None st2 o (runs s) Hend) as Hw.
        rewrite <- Hset in Hw. apply Hw. by intros j [=].
      * cbn [fst snd] in Hset. injection Hset as -> ->. intros _.
        apply IH. unfold queue_length in *.
        destruct (items (queue (store s))); [simpl in *; lia|done].
    + injection Hset as -> ->. exact IH.
  - exact IH.
  - unfold resume in Hset.
    pose proof (after_gate_ends sync_fuel now (store s)
                  ltac:(unfold sync_fuel; lia) (proj2 (proj2 Hok))) as Hend.
    destruct (run_sync sync_fuel AfterGate now (store s)) as [st2 o].
    pose proof (settle_has_worker (Some i) st2 o (runs s) Hend) as Hw.
    rewrite <- Hset in Hw. apply Hw. intros j [= <-]. by eexists.
  - unfold resume in Hset.
    set (st1 := if ok then store s else emit (ConsoleError id) (store s)) in *.
    assert (jobs_recorded st1) as Hrec1.
    { unfold st1. destruct ok; apply Hok. }
    pose proof (item_loop_ends sync_fuel batch rest now st1
                  ltac:(unfold sync_fuel; lia) Hrec1) as Hend.
    destruct (run_sync sync_fuel (ItemLoop batch rest) now st1) as [st2 o].
    pose proof (settle_has_worker (Some i) st2 o (runs s) Hend) as Hw.
    rewrite <- Hset in Hw. apply Hw. intros j [= <-]. by eexists.
Qed.

(** ** The gate *)

(** At the head of the loop nothing is dispatched before the interval
    has passed since [lastProcessedTime]: the run waits until then. *)
Lemma gate_holds_the_run fuel now st :
  now - lastProcessedTime st < RATE_LIMIT_MS →
  run_sync (S fuel) LoopHead now st
  = (st, if bool_decide (0 < queue_length (queue st))%nat
         then Suspended (AwaitRateLimit (lastProcessedTime st + RATE_LIMIT_MS))
         else Returned).
Proof.
  intros Hgate. cbn [run_sync]. case_bool_decide; [|done].
  apply Z.ltb_lt in Hgate. rewrite Hgate. do 3 f_equal. lia.
Qed.

(** * More of the program *)

(** ** The comparator *)

(** X1. The comparator of the queue is a consistent comparison, as
    [Array.prototype.sort] asks: swapping the arguments negates the
    result, "not after" is transitive, the result is 0 exactly on two
    entries of one priority and one [created_time], and an entry of
    lower rank goes first whatever the times are. *)
Theorem queue_comparator_is_consistent :
  (∀ a b, queue_comparator a b = - queue_comparator b a)
  ∧ (∀ a b c, queue_comparator a b ≤ 0 → queue_comparator b c ≤ 0 →
       queue_comparator a c ≤ 0)
  ∧ (∀ a b, queue_comparator a b = 0
       ↔ priority a = priority b ∧ created_time a = created_time b)
  ∧ (∀ a b, priorityOrder (priority a) < priorityOrder (priority b) →
       queue_comparator a b < 0).
Proof.
  split; [|split; [exact queue_comparator_trans|split]].
  - intros a b. unfold queue_comparator.
    rewrite (Z.eqb_sym (priorityOrder (priority b))).
    destruct (priorityOrder (priority a) =? priorityOrder (priority b)); simpl; lia.
  - intros a b. unfold queue_comparator.
    destruct (priorityOrder (priority a) =? priorityOrder (priority b)) eqn:E; simpl.
    + apply Z.eqb_eq, priorityOrder_inj in E. split; [intros; split; [done|lia]|].
      intros [_ ->]. lia.
    + apply Z.eqb_neq in E. split; [lia|]. intros [Hp _]. by rewrite Hp in E.
  - intros a b Hlt. unfold queue_comparator.
    destruct (priorityOrder (priority a) =? priorityOrder (priority b)) eqn:E; simpl.
    + apply Z.eqb_eq in E. lia.
    + lia.
Qed.

(** ** The queue class, whatever its comparator *)

Lemma enqueue_perm {A} (cmp : A → A → Z) e (q : PriorityQueue A) :
  items (enqueue cmp e q) ≡ₚ items q ++ [e].
Proof. apply sort_perm. Qed.

Lemma enqueue_all_perm {A} (cmp : A → A → Z) es (q : PriorityQueue A) :
  items (enqueue_all cmp es q) ≡ₚ items q ++ es.
Proof.
  revert q. induction es as [|e es IH]; intros q; simpl.
  - by rewrite app_nil_r.
  - unfold enqueue_all in *. simpl. rewrite IH, enqueue_perm, <- app_assoc. done.
Qed.

Lemma dequeue_n_items {A} n (q : PriorityQueue A) :
  dequeue_n n q
  = ((Some <$> take n (items q)) ++ replicate (n - length (items q)) None,
     {| items := drop n (items q) |}).
Proof.
  revert q. induction n as [|n IH]; intros [l]; simpl; [done|].
  destruct l as [|x l]; unfold dequeue; simpl; rewrite IH; simpl.
  - by rewrite take_nil, drop_nil, Nat.sub_0_r.
  - done.
Qed.

(** X2. With any comparator: [enqueue] adds the item and nothing else,
    so the length grows by one; [dequeue] on an empty queue gives
    [undefined] and leaves the queue as it is; on a queue that is not
    empty it gives the first item and leaves the others, so the length
    shrinks by one; an item enqueued on an empty queue is what the next
    [dequeue] gives, which leaves the queue empty again. And nothing is
    lost or made up over many calls: after the items [es] have been
    enqueued, [n] calls of [dequeue] return, one by one, the first [n]
    of an arrangement of the items that were there and of [es], then
    [undefined] once these are used up, and leave the rest of the
    arrangement queued. *)
Theorem queue_class_keeps_its_items
    {A : Type} (cmp : A → A → Z) (e : A) (q : PriorityQueue A) :
  items (enqueue cmp e q) ≡ₚ items q ++ [e]
  ∧ queue_length (enqueue cmp e q) = S (queue_length q)
  ∧ (queue_length q = 0%nat → dequeue q = (None, q))
  ∧ (∀ x q', dequeue q = (Some x, q') →
       items q = x :: items q' ∧ queue_length q = S (queue_length q'))
  ∧ (queue_length q = 0%nat →
     dequeue (enqueue cmp e q) = (Some e, new_queue))
  ∧ (∀ x rest, items q = x :: rest → dequeue q = (Some x, {| items := rest |}))
  ∧ (∀ (es : list A) (n : nat),
       ∃ l, l ≡ₚ items q ++ es
            ∧ dequeue_n n (enqueue_all cmp es q)
              = ((Some <$> take n l) ++ replicate (n - length l) None,
                 {| items := drop n l |})).
Proof.
  split; [apply enqueue_perm|]. split.
  { unfold queue_length. rewrite (Permutation_length (enqueue_perm cmp e q)).
    rewrite length_app. simpl. lia. }
  split; [|split; [|split; [|split]]].
  - unfold queue_length, dequeue. destruct (items q); [done|simpl; lia].
  - unfold queue_length, dequeue. intros x q'.
    destruct (items q) as [|y l]; [done|]. intros [= -> <-]. done.
  - unfold queue_length, dequeue, enqueue.
    destruct (items q); [done|simpl; lia].
  - intros x rest Hq. unfold dequeue. by rewrite Hq.
  - intros es n. exists (items (enqueue_all cmp es q)).
    split; [apply enqueue_all_perm|apply dequeue_n_items].
Qed.

(** ** The order of the queue *)

Lemma sorted_in_queue_order l : in_queue_order (sort queue_comparator l).
Proof.
  pose proof (sort_sorted queue_comparator queue_comparator_total
                queue_comparator_trans l) as H.
  unfold in_queue_order. induction H as [|a l' _ IH Ha]; constructor; [done|].
  eapply Forall_impl; [exact Ha|]. intros b. apply queue_comparator_le.
Qed.

Lemma run_ops_in_queue_order ops q :
  in_queue_order (items q) → in_queue_order (items (run_ops ops q).1).
Proof.
  revert q. induction ops as [|[e|] ops IH]; intros q Hq; simpl; [done| |].
  - apply IH. apply sorted_in_queue_order.
  - unfold dequeue. destruct (items q) as [|x rest] eqn:E.
    + specialize (IH q). rewrite E in IH. specialize (IH Hq).
      by destruct (run_ops ops q).
    + specialize (IH {| items := rest |}). simpl in IH.
      apply StronglySorted_inv in Hq as [Hrest _]. specialize (IH Hrest).
      by destruct (run_ops ops _).
Qed.

(** X3. The array of the queue is in order after every operation: no
    entry stands behind one that goes strictly after it (higher rank, or
    the same rank and a later [created_time]). So the entry at the head,
    which the next [dequeue] takes, has no entry of the queue strictly
    before it. *)
Theorem queue_stays_in_order (ops : list queue_op) :
  let q := (run_ops ops new_queue).1 in
  in_queue_order (items q)
  ∧ ∀ x q', dequeue q = (Some x, q') →
      Forall (λ y, ¬ strictly_before y x) (items q').
Proof.
  intros q.
  assert (in_queue_order (items q)) as Hq.
  { apply run_ops_in_queue_order. constructor. }
  split; [exact Hq|]. intros x q' Hdeq.
  unfold dequeue in Hdeq. destruct (items q) as [|y l]; [done|].
  injection Hdeq as -> <-. simpl.
  by apply StronglySorted_inv in Hq as [_ Hx].
Qed.

(** ** The answers of a refused submission *)

Lemma valid_ids_check elems :
  valid_ids (JsArray elems)
  ↔ (bool_decide (length elems = 0%nat) || negb (forallb id_ok elems)) = false.
Proof.
  unfold valid_ids. rewrite orb_false_iff, negb_false_iff, forallb_id_ok.
  rewrite bool_decide_eq_false. split.
  - intros (nums & Hne & Hrange & [= ->]). split; [|by exists nums].
    rewrite length_fmap. by destruct nums.
  - intros (Hlen & nums & -> & Hrange). exists nums. split; [|done].
    intros ->. done.
Qed.

Lemma ingest_invalid_ids body now uuidv4 st :
  ¬ valid_ids (body_ids body) →
  ingest body now uuidv4 st
  = ({| res_status := 400; res_json := ErrorJson "Invalid IDs" |}, st, NotStarted).
Proof.
  intros Hinv. unfold ingest.
  destruct (body_ids body) as [| | | | | |elems|]; try done.
  destruct (bool_decide (length elems = 0%nat) || negb (forallb id_ok elems)) eqn:E;
    [done|].
  by apply valid_ids_check in E.
Qed.

Lemma ingest_invalid_priority body now uuidv4 st :
  valid_ids (body_ids body) →
  known_priority (default_LOW (body_priority body)) = None →
  ingest body now uuidv4 st
  = ({| res_status := 400; res_json := ErrorJson "Invalid priority" |}, st, NotStarted).
Proof.
  intros Hids Hp. unfold ingest.
  destruct (body_ids body) as [| | | | | |elems|];
    try (by destruct Hids as (? & _ & _ & ?)).
  apply valid_ids_check in Hids. by rewrite Hids, Hp.
Qed.

(** X4. The [ids] are looked at first: when they are not a non-empty
    array of integers from 1 to 1000000007 the answer is 400 with
    "Invalid IDs", whatever the priority is. With good [ids], a priority
    that is neither absent nor one of the three names gives 400 with
    "Invalid priority"; [null], a name in lower case and a number are
    such priorities, since the default of line 98 stands in for
    [undefined] only and line 104 compares strings exactly. In both
    cases the store is left as it is. *)
Theorem refused_submission_answers
    (body : Body) (now : Z) (uuidv4 : nat → uuid) (st : Store) :
  (¬ valid_ids (body_ids body) →
   ingest body now uuidv4 st
   = ({| res_status := 400; res_json := ErrorJson "Invalid IDs" |}, st, NotStarted))
  ∧ (valid_ids (body_ids body) →
     (∀ p, ¬ priority_of (body_priority body) p) →
     ingest body now uuidv4 st
     = ({| res_status := 400; res_json := ErrorJson "Invalid priority" |},
        st, NotStarted))
  ∧ (body_priority body = JsNull ∨ body_priority body = JsString "high"
     ∨ (∃ n, body_priority body = JsInt n) →
     ∀ p, ¬ priority_of (body_priority body) p).
Proof.
  split; [apply ingest_invalid_ids|]. split.
  - intros Hids Hp. apply ingest_invalid_priority; [done|].
    destruct (known_priority _) as [p|] eqn:E; [|done].
    apply defaulted_priority in E. by destruct (Hp p).
  - intros H p Hp. unfold priority_of in Hp.
    destruct H as [H|[H|[n H]]]; rewrite H in Hp;
      destruct Hp as [[? _]|Hp]; try done; by destruct p.
Qed.

(** ** When the roll-up throws *)

Lemma js_some_throws p (l : list (option BatchStatus)) :
  js_some p l = None
  ↔ ∃ i, l !! i = Some None
         ∧ Forall (λ o, ∃ r, o = Some r ∧ p r = false) (take i l).
Proof.
  induction l as [|[r|] l IH]; simpl.
  - split; [done|]. intros (i & Hi & _). by rewrite lookup_nil in Hi.
  - destruct (p r) eqn:Hp.
    + split; [done|]. intros ([|i] & Hi & Hall); [done|].
      simpl in Hall. apply Forall_cons in Hall as [(r' & [= <-] & Hr') _]. congruence.
    + rewrite IH. split.
      * intros (i & Hi & Hall). exists (S i). split; [done|].
        simpl. constructor; [by exists r|done].
      * intros ([|i] & Hi & Hall); [done|]. exists i. split; [done|].
        simpl in Hall. by apply Forall_cons in Hall as [_ ?].
  - split; [|done]. intros _. exists 0%nat. split; [done|constructor].
Qed.

Lemma js_every_throws s (l : list (option BatchStatus)) :
  s ≠ triggered →
  js_every (has_status s) l = None → js_some (has_status triggered) l = None.
Proof.
  intros Hs. induction l as [|[r|] l IH]; simpl; [done| |done].
  unfold has_status at 1 3. case_bool_decide as E; [|done].
  rewrite bool_decide_eq_false_2 by congruence. exact IH.
Qed.

Lemma updateIngestionStatus_throws id st :
  updateIngestionStatus id st = None
  ↔ ∃ job, ingestionJobs st !! id = Some job
           ∧ js_some (has_status triggered) (records_read job st) = None.
Proof.
  unfold updateIngestionStatus, records_read.
  destruct (ingestionJobs st !! id) as [job|]; [|split; [done|by intros (? & ? & _)]].
  split.
  - intros H. exists job. split; [done|].
    destruct (js_every (has_status yet_to_start) _) as [a|] eqn:Ea;
      [|by apply (js_every_throws yet_to_start)].
    destruct (js_some (has_status triggered) _) as [t|] eqn:Et; [|done].
    destruct (js_every (has_status completed) _) as [c|] eqn:Ec;
      [done|]. apply (js_every_throws completed) in Ec; [|done]. congruence.
  - intros (job' & [= <-] & Hsome).
    destruct (js_every (has_status yet_to_start) _) as [a|]; [|done].
    simpl. by rewrite Hsome.
Qed.

(** X5. [updateIngestionStatus] leaves the store as it is when the job
    is unknown. For a known job it throws exactly when one of its batch
    ids has no record and no batch listed before that one is
    [triggered]: a [triggered] batch stops all three scans before they
    reach the missing record. When it does not throw it changes nothing
    but the entry of the job. *)
Theorem recompute_throws_on_unrecorded_batch (id : uuid) (st : Store) :
  (ingestionJobs st !! id = None → updateIngestionStatus id st = Some st)
  ∧ (updateIngestionStatus id st = None
     ↔ ∃ job i,
         ingestionJobs st !! id = Some job
         ∧ records_read job st !! i = Some None
         ∧ Forall (λ o, ∃ r, o = Some r ∧ bs_status r ≠ triggered)
                  (take i (records_read job st)))
  ∧ (∀ st', updateIngestionStatus id st = Some st' →
       batchStatuses st' = batchStatuses st ∧ queue st' = queue st
       ∧ lastProcessedTime st' = lastProcessedTime st ∧ trace st' = trace st
       ∧ ∀ j, j ≠ id → ingestionJobs st' !! j = ingestionJobs st !! j).
Proof.
  split; [|split].
  - intros H. unfold updateIngestionStatus. by rewrite H.
  - rewrite updateIngestionStatus_throws. split.
    + intros (job & Hj & (i & Hi & Hall)%js_some_throws). exists job, i.
      split; [done|]. split; [done|].
      eapply Forall_impl; [exact Hall|]. intros o (r & -> & Hr).
      exists r. split; [done|]. by apply bool_decide_eq_false in Hr.
    + intros (job & i & Hj & Hi & Hall). exists job. split; [done|].
      apply js_some_throws. exists i. split; [done|].
      eapply Forall_impl; [exact Hall|]. intros o (r & -> & Hr).
      exists r. split; [done|]. by apply bool_decide_eq_false.
  - intros st' Hu.
    destruct (updateIngestionStatus_frame id st st' Hu) as (Hb & Hq & Hl & Ht & _).
    repeat (split; [done|]). intros j Hj. revert Hu. unfold updateIngestionStatus.
    destruct (ingestionJobs st !! id) as [job|]; [|by intros [= <-]].
    destruct (js_every (has_status yet_to_start) _) as [a|]; simpl; [|done].
    destruct (js_some (has_status triggered) _) as [t|]; simpl; [|done].
    destruct (js_every (has_status completed) _) as [c|]; simpl; [|done].
    intros [= <-]. simpl. by rewrite lookup_insert_ne.
Qed.

(** ** A stronger invariant of the store *)

Lemma with_status_same job : with_status (j_status job) job = job.
Proof. by destruct job. Qed.

Lemma records_kept_refl st : records_kept st st.
Proof. intros u r Hr. exists r. repeat split; done || lia. Qed.

Lemma records_kept_trans st1 st2 st3 :
  records_kept st1 st2 → records_kept st2 st3 → records_kept st1 st3.
Proof.
  intros H12 H23 u r Hr.
  destruct (H12 u r Hr) as (r2 & Hr2 & Hk2 & Hi2 & Hs2).
  destruct (H23 u r2 Hr2) as (r3 & Hr3 & Hk3 & Hi3 & Hs3).
  exists r3. split; [done|]. split; [congruence|]. split; [congruence|lia].
Qed.

Lemma records_kept_same st st' :
  batchStatuses st' = batchStatuses st → records_kept st st'.
Proof. intros E u r Hr. exists r. rewrite E. repeat split; done || lia. Qed.

Lemma jobs_kept_refl st : jobs_kept st st.
Proof. intros id job Hj. exists (j_status job). by rewrite with_status_same. Qed.

Lemma jobs_kept_trans st1 st2 st3 :
  jobs_kept st1 st2 → jobs_kept st2 st3 → jobs_kept st1 st3.
Proof.
  intros H12 H23 id job Hj. destruct (H12 id job Hj) as [s2 Hj2].
  destruct (H23 id _ Hj2) as [s3 Hj3]. exists s3. by rewrite Hj3.
Qed.

Lemma jobs_kept_same st st' :
  ingestionJobs st' = ingestionJobs st → jobs_kept st st'.
Proof. intros E id job Hj. exists (j_status job). by rewrite E, with_status_same. Qed.

Lemma proceeds_refl st : sound st → proceeds st st.
Proof.
  intros H. split; [done|]. split; [done|].
  split; [apply records_kept_refl|apply jobs_kept_refl].
Qed.

Lemma proceeds_trans st1 st2 st3 : proceeds st1 st2 → proceeds st2 st3 → proceeds st1 st3.
Proof.
  intros (_ & Hf & Hr & Hj) (Hs & Hf' & Hr' & Hj'). split; [done|].
  split; [by auto|]. split; [by eapply records_kept_trans|by eapply jobs_kept_trans].
Qed.

(** What [updateIngestionStatus] does when every batch has its record. *)
Lemma updateIngestionStatus_result id st job :
  jobs_recorded st → ingestionJobs st !! id = Some job →
  ∃ recs, records_read job st = Some <$> recs
    ∧ updateIngestionStatus id st
      = Some (set_ingestionJobs
                (<[id := with_status (roll_up recs) job]> (ingestionJobs st)) st).
Proof.
  intros Hrec Hj. destruct (jobs_recorded_lookups st id job Hrec Hj) as [recs Hrecs].
  exists recs. split; [done|]. unfold updateIngestionStatus. rewrite Hj, Hrecs.
  by rewrite !js_every_defined, js_some_defined.
Qed.

Lemma records_read_same st st' job :
  (∀ u, u ∈ j_batches job → batchStatuses st' !! u = batchStatuses st !! u) →
  records_read job st' = records_read job st.
Proof.
  intros H. unfold records_read. apply list_fmap_ext. intros i u Hu.
  apply H. by eapply list_elem_of_lookup_2.
Qed.

Lemma job_consistent_same st st' job :
  (∀ u, u ∈ j_batches job → batchStatuses st' !! u = batchStatuses st !! u) →
  job_consistent st job → job_consistent st' job.
Proof.
  intros H (recs & Hrecs & Hs). exists recs.
  by rewrite (records_read_same st st' job H).
Qed.

(** A batch is marked, then the job it names is recomputed: every job
    is consistent again. *)
Lemma jobs_ok_marked st st1 st2 b r :
  jobs_ok st → jobs_recorded st → owned st b →
  ingestionJobs st1 = ingestionJobs st →
  batchStatuses st1 = <[batch_id b := r]> (batchStatuses st) →
  updateIngestionStatus (ingestion_id b) st1 = Some st2 →
  jobs_ok st2 ∧ jobs_kept st st2
  ∧ ∀ j job', ingestionJobs st2 !! j = Some job' →
      ∃ job, ingestionJobs st !! j = Some job ∧ j_batches job' = j_batches job.
Proof.
  intros Hjobs Hrec Hown Ej Eb Hu.
  assert (jobs_recorded st1) as Hrec1.
  { intros j job Hj. rewrite Ej in Hj. specialize (Hrec j job Hj).
    eapply Forall_impl; [exact Hrec|]. intros u Hu'. rewrite Eb, lookup_insert.
    by case_decide. }
  destruct (updateIngestionStatus_frame _ _ _ Hu) as (Hb2 & _ & _ & _ & Hfrom).
  assert (∀ j job, j ≠ ingestion_id b → ingestionJobs st !! j = Some job →
            job_consistent st2 job) as Hother.
  { intros j job Hne Hj. destruct (Hjobs j job Hj) as [_ Hc].
    eapply job_consistent_same; [|exact Hc]. intros u Hu'.
    rewrite Hb2, Eb. apply lookup_insert_ne. intros <-.
    by apply Hne, (Hown j job). }
  destruct (ingestionJobs st !! ingestion_id b) as [job0|] eqn:Hj0.
  - destruct (updateIngestionStatus_result (ingestion_id b) st1 job0 Hrec1)
      as (recs & Hrecs & Hu'); [by rewrite Ej|].
    rewrite Hu in Hu'. injection Hu' as ->. simpl. rewrite Ej.
    split; [|split].
    + intros j job'. cbn [ingestionJobs set_ingestionJobs].
      rewrite lookup_insert. case_decide as Hj.
      * subst j. intros [= <-]. split; [by destruct (Hjobs _ _ Hj0)|].
        exists recs. split; [|done]. exact Hrecs.
      * intros Hj'. split; [by destruct (Hjobs j job' Hj')|].
        simpl in Hother. by eapply (Hother j).
    + intros j job Hj. cbn [ingestionJobs set_ingestionJobs].
      rewrite lookup_insert. case_decide as Hne.
      * subst j. rewrite Hj0 in Hj. injection Hj as <-. by eexists.
      * exists (j_status job). by rewrite with_status_same.
    + intros j job'. cbn [ingestionJobs set_ingestionJobs].
      rewrite lookup_insert. case_decide as Hne.
      * subst j. intros [= <-]. by exists job0.
      * intros Hj'. by exists job'.
  - assert (st2 = st1) as ->.
    { revert Hu. unfold updateIngestionStatus. rewrite Ej, Hj0. by intros [= <-]. }
    split; [|split].
    + intros j job Hj. rewrite Ej in Hj. split; [by destruct (Hjobs j job Hj)|].
      apply (Hother j); [|done]. intros ->. congruence.
    + by apply jobs_kept_same.
    + intros j job' Hj'. rewrite Ej in Hj'. by exists job'.
Qed.

Lemma owned_later st st' e :
  (∀ j job', ingestionJobs st' !! j = Some job' →
     ∃ job, ingestionJobs st !! j = Some job ∧ j_batches job' = j_batches job) →
  owned st e → owned st' e.
Proof.
  intros Hfrom Hown j job' Hj' Hin. destruct (Hfrom j job' Hj') as (job & Hj & E).
  rewrite E in Hin. by eapply Hown.
Qed.

Lemma dispatches_app tr1 tr2 : dispatches (tr1 ++ tr2) = dispatches tr1 ++ dispatches tr2.
Proof. apply omap_app. Qed.

Lemma sound_same st st' :
  ingestionJobs st' = ingestionJobs st → batchStatuses st' = batchStatuses st →
  queue st' = queue st → dispatched st' = dispatched st →
  sound st → sound st'.
Proof.
  intros Ej Eb Eq Ed.
  unfold sound, store_ok, jobs_recorded, keys_match, entries_ok, jobs_ok,
    dispatched_ok, queue_ids, owned, job_consistent, records_read.
  by rewrite Ej, Eb, Eq, Ed.
Qed.

Lemma flying_same st st' b :
  ingestionJobs st' = ingestionJobs st → batchStatuses st' = batchStatuses st →
  queue st' = queue st → flying st b → flying st' b.
Proof.
  intros Ej Eb Eq. unfold flying, batch_in_flight, queue_ids, owned.
  by rewrite Ej, Eb, Eq.
Qed.

Lemma proceeds_same st st' :
  ingestionJobs st' = ingestionJobs st → batchStatuses st' = batchStatuses st →
  queue st' = queue st → dispatched st' = dispatched st →
  sound st → proceeds st st'.
Proof.
  intros Ej Eb Eq Ed Hs. split; [by apply (sound_same st)|].
  split; [intros b; by apply flying_same|].
  split; [by apply records_kept_same|by apply jobs_kept_same].
Qed.

Lemma proceeds_log e st : is_log e → sound st → proceeds st (emit e st).
Proof.
  intros He. apply proceeds_same; try done.
  unfold dispatched. simpl. rewrite dispatches_app.
  destruct e; try done; simpl; by rewrite app_nil_r.
Qed.

Lemma sound_dispatch st b q' now st3 :
  sound st → dequeue (queue st) = (Some b, q') →
  updateIngestionStatus (ingestion_id b)
    (emit (Dispatched (batch_id b) now) (set_batch b triggered (set_queue q' st)))
  = Some st3 →
  proceeds st st3 ∧ flying st3 b.
Proof.
  intros (Hok & Hkeys & Hent & Hjobs & Hnd & Hdisp) Hdeq Hu.
  set (st2 := emit (Dispatched (batch_id b) now)
                (set_batch b triggered (set_queue q' st))) in *.
  destruct (evolves_dispatch st b q' Hok Hdeq) as [Hev Hfl].
  assert (evolves st st2) as Hev2.
  { eapply evolves_trans; [exact Hev|]. apply evolves_emit, Hev. }
  pose proof (evolves_update _ _ _ (proj1 Hev2) Hu) as Hev3.
  pose proof (evolves_trans _ _ _ Hev2 Hev3) as (Hok3 & Hadv3 & Hsub3).
  destruct (updateIngestionStatus_frame _ _ _ Hu) as (Hb3 & Hq3 & _ & Ht3 & _).
  apply dequeue_some in Hdeq.
  unfold entries_ok in Hent. rewrite Hdeq in Hent.
  apply Forall_cons in Hent as [[Hrb Hownb] Hent].
  destruct Hok as (Hndq & _ & Hrec).
  unfold queue_ids in Hndq. rewrite Hdeq, fmap_cons in Hndq.
  apply NoDup_cons in Hndq as [Hbout Hndq].
  destruct (jobs_ok_marked st st2 st3 b (record_of b triggered)
              Hjobs Hrec Hownb eq_refl eq_refl Hu) as (Hjobs3 & Hkept3 & Hfrom).
  assert (batchStatuses st3
          = <[batch_id b := record_of b triggered]> (batchStatuses st)) as Eb by done.
  assert (queue_ids st3 = batch_id <$> items q') as Eq.
  { unfold queue_ids. by rewrite Hq3. }
  assert (batch_id b ∈ queue_ids st) as Hbin.
  { unfold queue_ids. rewrite Hdeq, fmap_cons. left. }
  assert (∀ b', flying st b' → flying st3 b') as Hfly.
  { intros b' (Hfl' & [s Hr'] & Hown'). split; [|split].
    - eapply batch_in_flight_later; [exact Hadv3|exact Hsub3|exact Hfl'].
    - exists s. rewrite Eb, lookup_insert_ne; [done|].
      intros E. apply (proj1 Hfl'). by rewrite <- E.
    - by eapply owned_later. }
  assert (flying st3 b) as Hflb.
  { split; [|split].
    - split; [by rewrite Eq|]. rewrite Eb, lookup_insert_eq. done.
    - exists triggered. by rewrite Eb, lookup_insert_eq.
    - by eapply owned_later. }
  split; [|exact Hflb]. split; [|split; [exact Hfly|split; [|exact Hkept3]]].
  - split; [exact Hok3|]. split; [|split; [|split; [exact Hjobs3|]]].
    + intros u r. rewrite Eb, lookup_insert. case_decide as Hu'.
      * by intros [= <-].
      * apply Hkeys.
    + unfold entries_ok. rewrite Hq3. simpl.
      apply Forall_forall. intros e He.
      rewrite Forall_forall in Hent. destruct (Hent e He) as [Hre Howne].
      split; [|by eapply owned_later].
      rewrite Eb, lookup_insert_ne; [done|]. intros E. apply Hbout.
      rewrite E. apply list_elem_of_fmap. by exists e.
    + assert (dispatched st3 = dispatched st ++ [batch_id b]) as Ed.
      { unfold dispatched. rewrite Ht3. simpl. rewrite dispatches_app.
        simpl. by rewrite fmap_app. }
      unfold dispatched_ok. rewrite Ed. split.
      * apply NoDup_app. split; [done|]. split; [|apply NoDup_singleton].
        intros x Hx Hx'. apply list_elem_of_singleton in Hx'. subst x.
        rewrite Forall_forall in Hdisp. by destruct (Hdisp _ Hx).
      * apply Forall_app. split.
        -- apply Forall_forall. intros x Hx. rewrite Forall_forall in Hdisp.
           destruct (Hdisp x Hx) as [Hout [r Hr]]. split.
           ++ intros Hin. apply Hout, Hsub3, Hin.
           ++ destruct (Hadv3 x r Hr) as (r' & Hr' & _). by exists r'.
        -- constructor; [|constructor]. apply Hflb.
  - intros u r Hr. rewrite Eb, lookup_insert. case_decide as Hu'.
    + subst u. rewrite Hrb in Hr. injection Hr as <-.
      eexists. split; [done|]. simpl. repeat split; done || lia.
    + exists r. repeat split; done || lia.
Qed.

Lemma sound_complete st b now st2 :
  sound st → flying st b →
  updateIngestionStatus (ingestion_id b) (set_batch b completed st) = Some st2 →
  proceeds st (emit (Completed (batch_id b) now) (set_lastProcessedTime now st2))
  ∧ flying (emit (Completed (batch_id b) now) (set_lastProcessedTime now st2)) b.
Proof.
  intros (Hok & Hkeys & Hent & Hjobs & Hnd & Hdisp) (Hfl & [s Hrb] & Hownb) Hu.
  destruct (evolves_complete st b Hok Hfl) as [Hev _].
  pose proof (evolves_update _ _ _ (proj1 Hev) Hu) as Hev2.
  pose proof (evolves_trans _ _ _ Hev Hev2) as (Hok2 & Hadv2 & Hsub2).
  destruct (updateIngestionStatus_frame _ _ _ Hu) as (Hb2 & Hq2 & _ & Ht2 & _).
  destruct (jobs_ok_marked st (set_batch b completed st) st2 b
              (record_of b completed) Hjobs (proj2 (proj2 Hok)) Hownb
              eq_refl eq_refl Hu) as (Hjobs2 & Hkept2 & Hfrom).
  set (st3 := emit (Completed (batch_id b) now) (set_lastProcessedTime now st2)).
  assert (batchStatuses st2
          = <[batch_id b := record_of b completed]> (batchStatuses st)) as Eb by done.
  assert (∀ b', flying st b' → flying st2 b') as Hfly.
  { intros b' (Hfl' & [s' Hr'] & Hown'). split; [|split].
    - eapply batch_in_flight_later; [exact Hadv2|exact Hsub2|exact Hfl'].
    - rewrite Eb, lookup_insert. case_decide as E; [|by exists s'].
      exists completed. rewrite <- E, Hrb in Hr'.
      injection Hr' as Hid Hids _. unfold record_of. by rewrite Hid, Hids.
    - by eapply owned_later. }
  assert (sound st2) as Hs2.
  { split; [exact Hok2|]. split; [|split; [|split; [exact Hjobs2|]]].
    - intros u r. rewrite Eb, lookup_insert. case_decide as Hu'.
      + by intros [= <-].
      + apply Hkeys.
    - unfold entries_ok. rewrite Hq2. simpl.
      apply Forall_forall. intros e Hin. unfold entries_ok in Hent.
      rewrite Forall_forall in Hent. destruct (Hent e Hin) as [Hre Howne].
      split; [|by eapply owned_later].
      rewrite Eb, lookup_insert_ne; [done|]. intros E.
      apply (proj1 Hfl). rewrite E. apply list_elem_of_fmap. exists e.
      split; [done|]. exact Hin.
    - assert (dispatched st2 = dispatched st) as Ed.
      { unfold dispatched. by rewrite Ht2. }
      unfold dispatched_ok. rewrite Ed. split; [done|].
      eapply Forall_impl; [exact Hdisp|]. intros x [Hout [r Hr]]. split.
      + intros Hin. apply Hout, Hsub2, Hin.
      + destruct (Hadv2 x r Hr) as (r' & Hr' & _). by exists r'. }
  assert (proceeds st2 st3) as Hp3.
  { apply proceeds_same; try done.
    unfold dispatched, st3. simpl. rewrite dispatches_app. simpl.
    by rewrite app_nil_r. }
  assert (proceeds st st2) as Hp2.
  { split; [exact Hs2|]. split; [exact Hfly|]. split; [|exact Hkept2].
    intros u r Hr. rewrite Eb, lookup_insert. case_decide as Hu'.
    - subst u. rewrite Hrb in Hr. injection Hr as <-.
      eexists. split; [done|]. simpl.
      pose proof (status_rank_bounds s). repeat split; done || lia.
    - exists r. repeat split; done || lia. }
  split; [by eapply proceeds_trans|].
  apply Hp3, Hfly. split; [done|]. split; [by exists s|done].
Qed.

Lemma run_sync_proceeds fuel :
  ∀ pt now st,
    sound st → point_flying st pt →
    proceeds st (run_sync fuel pt now st).1
    ∧ outcome_flying (run_sync fuel pt now st).1 (run_sync fuel pt now st).2.
Proof.
  induction fuel as [|fuel IH]; intros pt now st Hs Hpt.
  { simpl. split; [by apply proceeds_refl|done]. }
  pose proof (proj2 (proj2 (proj1 Hs))) as Hrec.
  destruct pt as [| |b [|id rest]]; cbn [run_sync].
  - case_bool_decide; [|split; [by apply proceeds_refl|done]].
    destruct (now - lastProcessedTime st <? RATE_LIMIT_MS).
    + split; [by apply proceeds_refl|done].
    + by apply IH.
  - destruct (dequeue (queue st)) as [[b|] q'] eqn:Hdeq;
      [|split; [by apply proceeds_refl|done]].
    destruct (updateIngestionStatus_defined (ingestion_id b)
                (emit (Dispatched (batch_id b) now)
                   (set_batch b triggered (set_queue q' st)))) as [st3 Hu].
    { apply emit_recorded, set_batch_recorded. exact Hrec. }
    rewrite Hu. destruct (sound_dispatch st b q' now st3 Hs Hdeq Hu) as [Hp Hfl].
    destruct (IH (ItemLoop b (ids b)) now st3 (proj1 Hp) Hfl) as [Hp' Hout].
    split; [by eapply proceeds_trans|exact Hout].
  - destruct (updateIngestionStatus_defined (ingestion_id b)
                (set_batch b completed st)) as [st2 Hu].
    { by apply set_batch_recorded. }
    rewrite Hu. destruct (sound_complete st b now st2 Hs Hpt Hu) as [Hp Hfl].
    destruct (IH LoopHead now _ (proj1 Hp) I) as [Hp' Hout].
    split; [by eapply proceeds_trans|exact Hout].
  - pose proof (proceeds_log (FetchCall id) st I Hs) as Hp.
    split; [exact Hp|]. by apply Hp.
Qed.

Lemma roll_up_not_started (es : list QueueItem) :
  roll_up ((λ e, record_of e yet_to_start) <$> es) = yet_to_start.
Proof.
  unfold roll_up.
  assert (forallb (has_status yet_to_start)
            ((λ e, record_of e yet_to_start) <$> es) = true) as ->; [|done].
  induction es as [|e es IH]; [done|]. rewrite fmap_cons. simpl. exact IH.
Qed.

(** Lines 108-121 on a sound store, with new identifiers. *)
Lemma create_job_sound nums p now uuidv4 st :
  sound st →
  fresh uuidv4 (S (length nums)) st →
  proceeds st (create_job nums p now uuidv4 st).2.
Proof.
  intros (Hok & Hkeys & Hent & Hjobs & Hnd & Hdisp) Hfresh.
  destruct (create_job_ok nums p now uuidv4 st Hok Hfresh)
    as (Hok1 & Hkept & _ & Hflight).
  destruct (fresh_batch_ids uuidv4 nums (length nums) st) as (Hnd' & Hnew & Hjob);
    [done..|].
  rewrite <- job_items_batch_ids with (p := p) (now := now) in Hnd', Hnew.
  revert Hok1 Hkept Hflight. rewrite create_job_rounds. cbn [snd].
  set (es := job_items nums p now uuidv4) in *.
  set (F := foldl add_batch st es).
  set (newjob := {| j_ingestion_id := uuidv4 0%nat; j_status := yet_to_start;
                    j_batches := batch_id <$> es; j_priority := p;
                    j_created_time := now |}).
  set (st1 := set_ingestionJobs (<[uuidv4 0%nat := newjob]> (ingestionJobs F)) F).
  intros Hok1 Hkept Hflight.
  assert (ingestionJobs st1 = <[uuidv4 0%nat := newjob]> (ingestionJobs st)) as Ej.
  { unfold st1, F. simpl. by rewrite add_batches_jobs. }
  assert (∀ e, e ∈ es → batchStatuses st1 !! batch_id e
                       = Some (record_of e yet_to_start)) as Hnewrec.
  { intros e He. exact (add_batches_lookup es st e Hnd' He). }
  assert (∀ u, is_Some (batchStatuses st !! u) → u ∉ batch_id <$> es) as Hold.
  { intros u [r Hr] Hu. rewrite Forall_forall in Hnew.
    specialize (Hnew u Hu). congruence. }
  assert (∀ x, owned st x → is_Some (batchStatuses st !! batch_id x) → owned st1 x)
    as Hown.
  { intros x Hx Hrx id job. rewrite Ej, lookup_insert. case_decide as Hid.
    - intros [= <-]. simpl. intros Hin. by destruct (Hold _ Hrx).
    - apply Hx. }
  assert (Forall (λ e, ingestion_id e = uuidv4 0%nat) es) as Hing.
  { unfold es, job_items. apply Forall_fmap, Forall_forall. done. }
  assert (dispatched st1 = dispatched st) as Ed.
  { unfold dispatched, st1, F. simpl. by rewrite (proj2 (add_batches_time es st)). }
  split; [|split; [|split]].
  - split; [exact Hok1|]. split; [|split; [|split]].
    + intros u r Hr. destruct (decide (u ∈ batch_id <$> es)) as [Hu|Hu].
      * apply list_elem_of_fmap in Hu as (e & -> & He).
        rewrite (Hnewrec e He) in Hr. by injection Hr as <-.
      * apply Hkeys. unfold st1, F in Hr. cbn [batchStatuses set_ingestionJobs] in Hr.
        by rewrite add_batches_lookup_other in Hr.
    + unfold entries_ok.
      assert (items (queue st1) ≡ₚ items (queue st) ++ es) as ->.
      { unfold st1, F. cbn [queue set_ingestionJobs]. apply add_batches_items. }
      apply Forall_app. split.
      * eapply Forall_impl; [exact Hent|]. intros e [Hre Howne]. split.
        -- by apply Hkept.
        -- apply Hown; [done|]. by rewrite Hre.
      * apply Forall_forall. intros e He. split; [by apply Hnewrec|].
        intros id job. rewrite Ej, lookup_insert. case_decide as Hid.
        -- intros _ _. rewrite Forall_forall in Hing. by rewrite (Hing e He).
        -- intros Hj Hin. destruct Hok as (_ & _ & Hrec).
           specialize (Hrec id job Hj). rewrite Forall_forall in Hrec.
           destruct (Hold _ (Hrec _ Hin)). apply list_elem_of_fmap. by exists e.
    + intros id job. rewrite Ej, lookup_insert. case_decide as Hid.
      * intros [= <-]. split; [done|].
        exists ((λ e, record_of e yet_to_start) <$> es).
        split; [|by rewrite roll_up_not_started].
        unfold records_read. simpl. rewrite <- !list_fmap_compose.
        apply list_fmap_ext. intros i e He. simpl.
        apply Hnewrec. by eapply list_elem_of_lookup_2.
      * intros Hj. destruct (Hjobs id job Hj) as [Hjid Hc]. split; [done|].
        eapply job_consistent_same; [|exact Hc]. intros u Hu.
        destruct Hok as (_ & _ & Hrec). specialize (Hrec id job Hj).
        rewrite Forall_forall in Hrec. destruct (Hrec u Hu) as [r Hr].
        by rewrite Hr, (Hkept u r Hr).
    + unfold dispatched_ok. rewrite Ed. split; [done|].
      eapply Forall_impl; [exact Hdisp|]. intros x [Hout Hrx]. split.
      * unfold queue_ids, st1. cbn [queue set_ingestionJobs].
        fold (queue_ids F). unfold F. rewrite add_batches_queue_ids.
        rewrite elem_of_app. intros [Hin|Hin]; [done|]. by destruct (Hold x Hrx).
      * destruct Hrx as [r Hr]. exists r. by apply Hkept.
  - intros b (Hfl & [s Hr] & Hownb). split; [by apply Hflight|].
    split; [exists s; by apply Hkept|]. apply Hown; [done|]. by rewrite Hr.
  - intros u r Hr. exists r. split; [by apply Hkept|]. repeat split; done || lia.
  - intros id job Hj. exists (j_status job). rewrite with_status_same, Ej.
    rewrite lookup_insert_ne; [done|]. intros <-. congruence.
Qed.

Lemma settle_sound i st0 st1 o rs :
  proceeds st0 st1 → outcome_flying st1 o → Forall (run_flying st0) rs →
  sound (settle i (st1, o) rs).1
  ∧ Forall (run_flying (settle i (st1, o) rs).1) (settle i (st1, o) rs).2
  ∧ records_kept st0 (settle i (st1, o) rs).1
  ∧ jobs_kept st0 (settle i (st1, o) rs).1.
Proof.
  intros Hp Hout Hrs.
  assert (Forall (run_flying st1) rs) as Hrs1.
  { eapply Forall_impl; [exact Hrs|]. intros [|b ? ?]; [done|]. apply Hp. }
  assert (Forall (run_flying st1) (match i with Some i => delete i rs | None => rs end))
    as Hdel.
  { destruct i; [by apply Forall_delete|done]. }
  destruct o as [k| | |]; cbn [settle fst snd].
  - split; [apply Hp|]. split; [|split; apply Hp].
    destruct i; [by apply Forall_insert|]. apply Forall_app. split; [done|].
    by constructor.
  - split; [apply Hp|]. split; [done|split; apply Hp].
  - pose proof (proceeds_log RunError st1 I (proj1 Hp)) as Hp'.
    pose proof (proceeds_trans _ _ _ Hp Hp') as Hp''.
    split; [apply Hp''|]. split; [|split; apply Hp''].
    eapply Forall_impl; [exact Hdel|]. intros [|b ? ?]; [done|]. apply Hp'.
  - split; [apply Hp|]. split; [done|split; apply Hp].
Qed.

Lemma step_keeps_sound s a now s' :
  system_sound s → step s a now s' →
  system_sound s'
  ∧ records_kept (store s) (store s') ∧ jobs_kept (store s) (store s').
Proof.
  intros [Hs Hruns] Hstep.
  destruct Hstep as [s body uuidv4 now resp st' t st'' rs'' Hclock Hfresh Hing Hset
                    |s id now Hclock
                    |s i wake now st' rs' Hclock Hrun Hwake Hset
                    |s i batch id rest ok now st' rs' Hclock Hrun Hset];
    cbn [store runs].
  - destruct (ingest_cases body now uuidv4 (store s))
      as [(nums & p & Hne & Hrange & Hids & Hp & E)|(_ & msg & E)];
      rewrite E in Hing; injection Hing as <- <- <-.
    + unfold draws in Hfresh. rewrite Hids, length_fmap in Hfresh.
      pose proof (create_job_sound nums p now uuidv4 (store s) Hs Hfresh) as Hp1.
      set (st1 := (create_job nums p now uuidv4 (store s)).2) in *.
      assert (Forall (run_flying st1) (runs s)) as Hruns1.
      { eapply Forall_impl; [exact Hruns|]. intros [|b ? ?]; [done|]. apply Hp1. }
      unfold trigger in Hset. case_bool_decide.
      * unfold processBatches in Hset.
        destruct (run_sync_proceeds sync_fuel LoopHead now st1 (proj1 Hp1) I)
          as [Hp2 Hout].
        destruct (run_sync sync_fuel LoopHead now st1) as [st2 o]. cbn [fst snd] in *.
        destruct (settle_sound None st1 st2 o (runs s) Hp2 Hout Hruns1)
          as (Hs' & Hruns' & Hr' & Hj').
        rewrite <- Hset in *. cbn [fst snd] in *.
        split; [by split|]. destruct Hp1 as (_ & _ & Hr1 & Hj1).
        split; [by eapply records_kept_trans|by eapply jobs_kept_trans].
      * cbn [fst snd] in Hset. injection Hset as -> ->.
        split; [split; [apply Hp1|done]|]. split; apply Hp1.
    + injection Hset as -> ->.
      split; [by split|]. split; [apply records_kept_refl|apply jobs_kept_refl].
  - split; [by split|]. split; [apply records_kept_refl|apply jobs_kept_refl].
  - unfold resume in Hset.
    destruct (run_sync_proceeds sync_fuel AfterGate now (store s) Hs I) as [Hp Hout].
    destruct (run_sync sync_fuel AfterGate now (store s)) as [st2 o].
    cbn [fst snd] in *.
    destruct (settle_sound (Some i) (store s) st2 o (runs s) Hp Hout Hruns)
      as (Hs' & Hruns' & Hr' & Hj').
    rewrite <- Hset in *. cbn [fst snd] in *. split; [by split|done].
  - unfold resume in Hset.
    assert (flying (store s) batch) as Hfl.
    { rewrite Forall_lookup in Hruns. exact (Hruns i _ Hrun). }
    set (st1 := if ok then store s else emit (ConsoleError id) (store s)) in *.
    assert (proceeds (store s) st1) as Hp1.
    { unfold st1. destruct ok; [by apply proceeds_refl|by apply proceeds_log]. }
    destruct (run_sync_proceeds sync_fuel (ItemLoop batch rest) now st1
                (proj1 Hp1) (proj1 (proj2 Hp1) _ Hfl)) as [Hp Hout].
    destruct (run_sync sync_fuel (ItemLoop batch rest) now st1) as [st2 o].
    cbn [fst snd] in *.
    destruct (settle_sound (Some i) (store s) st2 o (runs s)
                (proceeds_trans _ _ _ Hp1 Hp) Hout Hruns)
      as (Hs' & Hruns' & Hr' & Hj').
    rewrite <- Hset in *. cbn [fst snd] in *. split; [by split|done].
Qed.

Lemma initial_system_sound : system_sound initial_system.
Proof.
  split; [|constructor].
  split; [apply initial_system_ok|]. split; [|split; [constructor|split]].
  - intros u r H. change ((∅ : gmap string BatchStatus) !! u = Some r) in H.
    by rewrite lookup_empty in H.
  - intros id job H. change ((∅ : gmap string Job) !! id = Some job) in H.
    by rewrite lookup_empty in H.
  - split; constructor.
Qed.

Lemma reachable_sound s : reachable s → system_sound s.
Proof.
  induction 1 as [|s a now s' _ IH Hstep]; [apply initial_system_sound|].
  by destruct (step_keeps_sound s a now s' IH Hstep).
Qed.

Lemma steps_keep_sound s l s' :
  system_sound s → steps s l s' →
  system_sound s'
  ∧ records_kept (store s) (store s') ∧ jobs_kept (store s) (store s').
Proof.
  intros Hs Hsteps. induction Hsteps as [s|s a now s' l s'' Hstep _ IH].
  - split; [done|]. split; [apply records_kept_refl|apply jobs_kept_refl].
  - destruct (step_keeps_sound s a now s' Hs Hstep) as (Hs' & Hr & Hj).
    destruct (IH Hs') as (Hs'' & Hr' & Hj'). split; [done|].
    split; [by eapply records_kept_trans|by eapply jobs_kept_trans].
Qed.

Lemma roll_up_cases recs :
  (Forall (λ r, bs_status r = yet_to_start) recs → roll_up recs = yet_to_start)
  ∧ (¬ Forall (λ r, bs_status r = yet_to_start) recs →
     Exists (λ r, bs_status r = triggered) recs → roll_up recs = triggered)
  ∧ (¬ Forall (λ r, bs_status r = yet_to_start) recs →
     ¬ Exists (λ r, bs_status r = triggered) recs → roll_up recs = completed).
Proof.
  unfold roll_up.
  destruct (forallb (has_status yet_to_start) recs) eqn:Eall.
  - apply forallb_has_status in Eall. tauto.
  - assert (¬ Forall (λ r, bs_status r = yet_to_start) recs) as Hall.
    { intros H%forallb_has_status. congruence. }
    destruct (existsb (has_status triggered) recs) eqn:Eany.
    + apply existsb_has_status in Eany. tauto.
    + assert (¬ Exists (λ r, bs_status r = triggered) recs) as Hany.
      { intros H%existsb_has_status. congruence. }
      tauto.
Qed.

(** ** What a status query shows *)

(** X6. In every state the server reaches, a status query for an
    identifier that names no job is answered 404, and a query for a job
    is answered 200 with one record for each batch of the job, in the
    order of the job, none of them missing, each under its own batch
    identifier; and the status shown for the job is the one the rule of
    line 92 gives on the statuses shown for the batches. It is assumed
    that [uuidv4] returns identifiers that are new. *)
Theorem status_query_shows_consistent_job (s : System) (id : uuid) :
  reachable s →
  match ingestionJobs (store s) !! id with
  | None =>
      get_status id (store s)
      = {| res_status := 404; res_json := ErrorJson "Ingestion ID not found" |}
  | Some job =>
      ∃ recs : list BatchStatus,
        get_status id (store s)
        = {| res_status := 200;
             res_json := StatusJson id (j_status job) (Some <$> recs) |}
        ∧ j_ingestion_id job = id
        ∧ bs_batch_id <$> recs = j_batches job
        ∧ (Forall (λ r, bs_status r = yet_to_start) recs →
           j_status job = yet_to_start)
        ∧ (¬ Forall (λ r, bs_status r = yet_to_start) recs →
           Exists (λ r, bs_status r = triggered) recs → j_status job = triggered)
        ∧ (¬ Forall (λ r, bs_status r = yet_to_start) recs →
           ¬ Exists (λ r, bs_status r = triggered) recs → j_status job = completed)
  end.
Proof.
  intros Hreach.
  destruct (reachable_sound s Hreach) as [(_ & Hkeys & _ & Hjobs & _) _].
  unfold get_status. destruct (ingestionJobs (store s) !! id) as [job|] eqn:Hj; [|done].
  destruct (Hjobs id job Hj) as [Hid (recs & Hrecs & Hst)].
  exists recs. unfold records_read in Hrecs. rewrite Hrecs.
  split; [done|]. split; [done|]. split.
  - clear Hst. revert recs Hrecs.
    induction (j_batches job) as [|u us IH]; intros [|r recs] [=]; [done|].
    rewrite fmap_cons. f_equal; [by apply Hkeys|by apply IH].
  - rewrite Hst. apply roll_up_cases.
Qed.

Lemma reachable_after l s :
  do_actions l initial_system = Some s → reachable (after l).
Proof.
  intros H. unfold after. rewrite H. simpl.
  apply (steps_reachable initial_system l); [constructor|].
  by apply do_actions_steps.
Qed.

Lemma status_query_shows_consistent_job_sample :
  ∃ recs : list BatchStatus,
    get_status "A-a" (store (after overlap))
    = {| res_status := 200; res_json := StatusJson "A-a" completed (Some <$> recs) |}
    ∧ bs_batch_id <$> recs = ["A-b"].
Proof.
  destruct (do_actions overlap initial_system) as [s|] eqn:Hrun;
    [|vm_compute in Hrun; discriminate Hrun].
  pose proof (status_query_shows_consistent_job (after overlap) "A-a"
                (reachable_after overlap s Hrun)) as H.
  destruct (ingestionJobs (store (after overlap)) !! "A-a") as [job|] eqn:Hj;
    [|vm_compute in Hj; discriminate Hj].
  destruct H as (recs & Hget & _ & Hids & _).
  exists recs. vm_compute in Hj. injection Hj as <-. split; [exact Hget|exact Hids].
Defined.

(** ** What never changes *)

(** X7. Along every run of the server, a record of [batchStatuses]
    keeps its batch identifier and its list of ids, and a job keeps its
    identifier, its list of batches, its priority and its
    [created_time]: after creation only the two status fields are ever
    written. It is assumed that [uuidv4] returns identifiers that are
    new. *)
Theorem records_and_jobs_keep_their_data
    (s : System) (l : list (Action * Z)) (s' : System) :
  reachable s → steps s l s' →
  (∀ u r, batchStatuses (store s) !! u = Some r →
     ∃ r', batchStatuses (store s') !! u = Some r'
           ∧ bs_batch_id r' = bs_batch_id r ∧ bs_ids r' = bs_ids r)
  ∧ (∀ id job, ingestionJobs (store s) !! id = Some job →
       ∃ job', ingestionJobs (store s') !! id = Some job'
               ∧ j_ingestion_id job' = j_ingestion_id job
               ∧ j_batches job' = j_batches job
               ∧ j_priority job' = j_priority job
               ∧ j_created_time job' = j_created_time job).
Proof.
  intros Hreach Hsteps.
  destruct (steps_keep_sound s l s' (reachable_sound s Hreach) Hsteps)
    as (_ & Hr & Hj).
  split.
  - intros u r Hu. destruct (Hr u r Hu) as (r' & Hr' & Hk & Hi & _). by exists r'.
  - intros id job Hid. destruct (Hj id job Hid) as [st Hjob']. by eexists.
Qed.

Lemma records_and_jobs_keep_their_data_sample :
  ∃ r', batchStatuses (store (after overlap)) !! "A-b" = Some r'
        ∧ bs_batch_id r' = "A-b" ∧ bs_ids r' = [1].
Proof.
  destruct (proj1 (records_and_jobs_keep_their_data
                     (after (take 2 overlap)) (drop 2 overlap) (after overlap)
                     ltac:(apply (reachable_after (take 2 overlap)
                                    (after (take 2 overlap)));
                           vm_compute; reflexivity)
                     ltac:(apply do_actions_steps; vm_compute; reflexivity))
              "A-b"
              {| bs_batch_id := "A-b"; bs_ids := [1]; bs_status := triggered |}
              ltac:(vm_compute; reflexivity))
    as (r' & Hr' & Hk & Hi).
  exists r'. split; [exact Hr'|]. split; [exact Hk|exact Hi].
Defined.

(** ** What the dispatcher never does *)

(** X8. In every state the server reaches, no batch has been marked
    [triggered] twice, whatever runs of [processBatches] overlap: the
    batches dispatched so far are pairwise distinct, each has its record,
    and none of them is in the queue. It is assumed that [uuidv4] returns
    identifiers that are new. *)
Theorem no_batch_is_dispatched_twice (s : System) :
  reachable s →
  NoDup (dispatches (trace (store s))).*1
  ∧ Forall (λ b, (b ∉ batch_id <$> items (queue (store s)))
                 ∧ is_Some (batchStatuses (store s) !! b))
           (dispatches (trace (store s))).*1.
Proof.
  intros Hreach.
  by destruct (reachable_sound s Hreach) as [(_ & _ & _ & _ & Hd) _].
Qed.

Lemma no_batch_is_dispatched_twice_sample :
  NoDup (dispatches (trace (store (after overlap)))).*1.
Proof.
  destruct (do_actions overlap initial_system) as [s|] eqn:Hrun;
    [|vm_compute in Hrun; discriminate Hrun].
  exact (proj1 (no_batch_is_dispatched_twice (after overlap)
                  (reachable_after overlap s Hrun))).
Defined.

(** X9. In every state the server reaches, a queue that is not empty
    comes with a run of [processBatches] that is suspended, at the gate
    or on an external call, and so will come back to the head of the
    loop: a run ends only when it finds the queue empty, and no run
    throws while entries are queued. It is assumed that [uuidv4] returns
    identifiers that are new. *)
Theorem queued_batches_have_a_run (s : System) :
  reachable s → items (queue (store s)) ≠ [] → runs s ≠ [].
Proof. apply reachable_has_worker. Qed.

Lemma queued_batches_have_a_run_sample :
  runs (after [(PostIngest body_A (sample_uuid "A-"), 1700000000000)]) ≠ [].
Proof.
  apply queued_batches_have_a_run.
  - apply (reachable_after _ (after [(PostIngest body_A (sample_uuid "A-"),
                                      1700000000000)])).
    vm_compute. reflexivity.
  - vm_compute. discriminate.
Defined.

(** ** The spacing of one run *)

Lemma head_app {A} (l1 l2 : list A) :
  head (l1 ++ l2) = match head l1 with Some x => Some x | None => head l2 end.
Proof. by destruct l1. Qed.

Lemma completion_time_app tr1 tr2 b :
  completion_time (tr1 ++ tr2) b
  = match completion_time tr1 b with
    | Some t => Some t
    | None => completion_time tr2 b
    end.
Proof. unfold completion_time. by rewrite omap_app, head_app. Qed.

Lemma completion_time_grows tr e b tc :
  completion_time tr b = Some tc → completion_time (tr ++ [e]) b = Some tc.
Proof. intros H. by rewrite completion_time_app, H. Qed.

Lemma spaced_grows tr e :
  dispatches (tr ++ [e]) = dispatches tr → spaced tr → spaced (tr ++ [e]).
Proof.
  intros Ed Hsp i b1 t1 b2 t2. rewrite Ed. intros H1 H2.
  destruct (Hsp i b1 t1 b2 t2 H1 H2) as (tc & Htc & Hle).
  exists tc. split; [by apply completion_time_grows|done].
Qed.

Lemma last_done_grows tr e :
  dispatches (tr ++ [e]) = dispatches tr → last_done tr → last_done (tr ++ [e]).
Proof.
  intros Ed Hld b t. rewrite Ed. intros H. destruct (Hld b t H) as [tc Htc].
  exists tc. by apply completion_time_grows.
Qed.

Lemma paced_trace_log tr lastT e :
  is_log e → paced_trace tr lastT →
  paced_trace (tr ++ [e]) lastT
  ∧ dispatches (tr ++ [e]) = dispatches tr
  ∧ (last_done tr → last_done (tr ++ [e])).
Proof.
  intros He [Hsp Hct].
  assert (dispatches (tr ++ [e]) = dispatches tr) as Ed.
  { rewrite dispatches_app. destruct e; try done; simpl; by rewrite app_nil_r. }
  split; [|split; [done|by apply last_done_grows]].
  split; [by apply spaced_grows|].
  intros b tc. rewrite completion_time_app.
  destruct (completion_time tr b) as [t|] eqn:E.
  - intros [= <-]. by apply (Hct b).
  - by destruct e.
Qed.

Lemma paced_trace_dispatch tr lastT b now :
  paced_trace tr lastT → last_done tr → lastT + RATE_LIMIT_MS ≤ now →
  paced_trace (tr ++ [Dispatched b now]) lastT
  ∧ last (dispatches (tr ++ [Dispatched b now])) = Some (b, now).
Proof.
  intros [Hsp Hct] Hld Hgate.
  assert (dispatches (tr ++ [Dispatched b now]) = dispatches tr ++ [(b, now)]) as Ed.
  { by rewrite dispatches_app. }
  split; [|by rewrite Ed, last_snoc]. split.
  - intros i b1 t1 b2 t2. rewrite Ed. intros H1 H2.
    destruct (decide (S i < length (dispatches tr))%nat) as [Hlt|Hge].
    + rewrite lookup_app_l in H1 by lia. rewrite lookup_app_l in H2 by lia.
      destruct (Hsp i b1 t1 b2 t2 H1 H2) as (tc & Htc & Hle).
      exists tc. split; [by apply completion_time_grows|done].
    + assert (S i = length (dispatches tr)) as Hi.
      { apply lookup_lt_Some in H2. rewrite length_app in H2. simpl in H2. lia. }
      rewrite lookup_app_l in H1 by lia.
      rewrite lookup_app_r, Hi, Nat.sub_diag in H2 by lia.
      injection H2 as <- <-.
      assert (last (dispatches tr) = Some (b1, t1)) as Hlast.
      { rewrite last_lookup, <- Hi. exact H1. }
      destruct (Hld b1 t1 Hlast) as [tc Htc]. exists tc.
      split; [by apply completion_time_grows|]. specialize (Hct b1 tc Htc). lia.
  - intros b' tc. rewrite completion_time_app.
    destruct (completion_time tr b') as [t|] eqn:E; [|done].
    intros [= <-]. by apply (Hct b').
Qed.

Lemma paced_trace_complete tr lastT b now :
  paced_trace tr lastT → lastT ≤ now →
  paced_trace (tr ++ [Completed b now]) now
  ∧ dispatches (tr ++ [Completed b now]) = dispatches tr
  ∧ is_Some (completion_time (tr ++ [Completed b now]) b).
Proof.
  intros [Hsp Hct] Hle.
  assert (dispatches (tr ++ [Completed b now]) = dispatches tr) as Ed.
  { rewrite dispatches_app. simpl. by rewrite app_nil_r. }
  split; [|split; [done|]].
  - split; [by apply spaced_grows|].
    intros b' tc. rewrite completion_time_app.
    destruct (completion_time tr b') as [t|] eqn:E.
    + intros [= <-]. specialize (Hct b' t E). lia.
    + unfold completion_time. simpl. case_decide; [|done]. simpl. intros [= <-]. lia.
  - rewrite completion_time_app. destruct (completion_time tr b); [done|].
    unfold completion_time. simpl. by rewrite decide_True.
Qed.

Lemma store_paced_log now e st :
  is_log e → store_paced now st →
  store_paced now (emit e st)
  ∧ dispatches (trace (emit e st)) = dispatches (trace st)
  ∧ (last_done (trace st) → last_done (trace (emit e st))).
Proof.
  intros He (Hp & Hle & Hne & Hrec).
  destruct (paced_trace_log (trace st) (lastProcessedTime st) e He Hp)
    as (Hp' & Ed & Hld).
  split; [|split; [exact Ed|exact Hld]]. by split.
Qed.

Lemma item_loop_paced fuel now st b rest :
  (2 ≤ fuel)%nat → store_paced now st →
  (∃ t, last (dispatches (trace st)) = Some (batch_id b, t)) →
  stretch_paced now (run_sync fuel (ItemLoop b rest) now st).
Proof.
  intros Hfuel (Hp & Hle & Hne & Hrec) [t Hlast]. destruct rest as [|id rest].
  - destruct (round_end fuel b now st Hfuel Hrec)
      as (st' & -> & _ & Hq & Hl & Ht & Hrec').
    destruct (paced_trace_complete (trace st) (lastProcessedTime st)
                (batch_id b) now Hp Hle) as (Hp' & Ed & Hdone).
    assert (last_done (trace st')) as Hld.
    { intros b' t'. rewrite Ht, Ed, Hlast. intros [= <- <-]. exact Hdone. }
    split.
    + cbn [fst]. split; [by rewrite Ht, Hl|]. split; [lia|].
      split; [|done]. unfold nonempty_batches. by rewrite Hq.
    + cbn [fst snd]. case_bool_decide; [|done]. simpl. split; [done|lia].
  - destruct fuel as [|fuel]; [lia|]. cbn [run_sync].
    destruct (store_paced_log now (FetchCall id) st I) as (Hsp & Ed & _); [done|].
    split; [exact Hsp|]. cbn [fst snd]. simpl. exists t.
    change (trace st ++ [FetchCall id]) with (trace (emit (FetchCall id) st)).
    by rewrite Ed.
Qed.

Lemma after_gate_paced fuel now st :
  (3 ≤ fuel)%nat → store_paced now st → last_done (trace st) →
  lastProcessedTime st + RATE_LIMIT_MS ≤ now →
  stretch_paced now (run_sync fuel AfterGate now st).
Proof.
  intros Hfuel (Hp & Hle & Hne & Hrec) Hld Hgate.
  destruct fuel as [|fuel]; [lia|].
  destruct (dequeue (queue st)) as [[b|] q'] eqn:Hdeq.
  - rewrite (run_sync_after_gate fuel now st b q' Hdeq). cbn zeta.
    set (st2 := emit (Dispatched (batch_id b) now)
                  (set_batch b triggered (set_queue q' st))).
    assert (jobs_recorded st2) as Hrec2 by by apply emit_recorded, set_batch_recorded.
    destruct (updateIngestionStatus_defined (ingestion_id b) st2 Hrec2) as [st3 Hu].
    rewrite Hu.
    destruct (updateIngestionStatus_frame _ _ _ Hu) as (_ & Hq3 & Hl3 & Ht3 & _).
    destruct (paced_trace_dispatch (trace st) (lastProcessedTime st)
                (batch_id b) now Hp Hld Hgate) as [Hp' Hlast].
    apply item_loop_paced; [lia| |exists now; by rewrite Ht3].
    split; [by rewrite Ht3, Hl3|]. split; [by rewrite Hl3|]. split.
    + unfold nonempty_batches. rewrite Hq3. simpl.
      apply dequeue_some in Hdeq. unfold nonempty_batches in Hne.
      rewrite Hdeq in Hne. by apply Forall_cons in Hne as [_ ?].
    + by eapply updateIngestionStatus_recorded.
  - cbn [run_sync]. rewrite Hdeq. by split.
Qed.

Lemma loop_head_paced fuel now st :
  (4 ≤ fuel)%nat → store_paced now st → last_done (trace st) →
  stretch_paced now (run_sync fuel LoopHead now st).
Proof.
  intros Hfuel Hsp Hld. destruct fuel as [|fuel]; [lia|]. cbn [run_sync].
  case_bool_decide; [|by split].
  destruct (now - lastProcessedTime st <? RATE_LIMIT_MS) eqn:Hgate.
  - split; [done|]. simpl. split; [done|lia].
  - apply Z.ltb_ge in Hgate. apply after_gate_paced; [lia|done|done|lia].
Qed.

Lemma run_sync_loop_head fuel now st :
  run_sync (S fuel) LoopHead now st
  = if bool_decide (0 < queue_length (queue st))%nat then
      if now - lastProcessedTime st <? RATE_LIMIT_MS then
        (st, Suspended (AwaitRateLimit
               (now + (RATE_LIMIT_MS - (now - lastProcessedTime st)))))
      else run_sync fuel AfterGate now st
    else (st, Returned).
Proof. reflexivity. Qed.

Lemma loop_head_suspends now st :
  jobs_recorded st → nonempty_batches st → items (queue st) ≠ [] →
  ∃ k, (run_sync sync_fuel LoopHead now st).2 = Suspended k.
Proof.
  intros Hrec Hne Hq. unfold sync_fuel. rewrite run_sync_loop_head.
  rewrite bool_decide_eq_true_2
    by (unfold queue_length; destruct (items (queue st)); [done|simpl; lia]).
  destruct (now - lastProcessedTime st <? RATE_LIMIT_MS); [by eexists|].
  destruct (items (queue st)) as [|b rest] eqn:Hitems; [done|].
  assert (dequeue (queue st) = (Some b, {| items := rest |})) as Hdeq.
  { unfold dequeue. by rewrite Hitems. }
  rewrite (run_sync_after_gate _ now st b _ Hdeq). cbn zeta.
  set (st2 := emit (Dispatched (batch_id b) now)
                (set_batch b triggered (set_queue {| items := rest |} st))).
  assert (jobs_recorded st2) as Hrec2 by by apply emit_recorded, set_batch_recorded.
  destruct (updateIngestionStatus_defined (ingestion_id b) st2 Hrec2) as [st3 Hu].
  rewrite Hu. unfold nonempty_batches in Hne. rewrite Hitems in Hne.
  apply Forall_cons in Hne as [Hb _].
  destruct (ids b) as [|id ids']; [done|]. by eexists.
Qed.

Lemma run_paced_same st st' rs :
  trace st' = trace st → lastProcessedTime st' = lastProcessedTime st →
  run_paced st rs → run_paced st' rs.
Proof. intros Et El. unfold run_paced. by rewrite Et, El. Qed.

Lemma settle_paced i now st2 o rs :
  stretch_paced now (st2, o) →
  (i = None ∧ rs = []) ∨ (∃ k0, i = Some 0%nat ∧ rs = [k0]) →
  store_paced now (settle i (st2, o) rs).1
  ∧ run_paced (settle i (st2, o) rs).1 (settle i (st2, o) rs).2.
Proof.
  intros [Hsp Hout] Hi. cbn [fst snd] in *.
  assert (match i with Some i => delete i rs | None => rs end = []) as Hdel.
  { by destruct Hi as [[-> ->]|(k0 & -> & ->)]. }
  destruct o as [k| | |]; cbn [settle fst snd]; rewrite ?Hdel.
  - split; [done|]. by destruct Hi as [[-> ->]|(k0 & -> & ->)].
  - by split.
  - destruct (store_paced_log now RunError st2 I Hsp) as (Hsp' & _ & Hld).
    split; [done|]. by apply Hld.
  - done.
Qed.

Lemma nonempty_job_items nums p now uuidv4 :
  Forall (λ e, ids e ≠ []) (job_items nums p now uuidv4).
Proof.
  unfold job_items. apply Forall_fmap, Forall_forall. intros k Hk.
  apply elem_of_seq in Hk. change (group k nums ≠ []). intros E.
  pose proof (groups_sizes nums) as Hg. rewrite Forall_lookup in Hg.
  assert (groups nums !! k = Some (group k nums)) as Hk'.
  { apply groups_lookup. split; [lia|done]. }
  apply Hg in Hk'. rewrite E in Hk'. simpl in Hk'. lia.
Qed.

Lemma step_paced s a now s' :
  reachable s → paced s → solo s → step s a now s' → solo s' → paced s'.
Proof.
  intros Hreach [Hsp Hrun] Hsolo Hstep Hsolo'.
  pose proof (reachable_ok s Hreach) as [Hok _].
  destruct Hsp as (Hp & Hle & Hne & Hrec).
  destruct Hstep as [s body uuidv4 now resp st' t st'' rs'' Hclock Hfresh Hing Hset
                    |s id now Hclock
                    |s i wake now st' rs' Hclock Hrun' Hwake Hset
                    |s i batch id rest ok now st' rs' Hclock Hrun' Hset];
    unfold paced, solo in *; cbn [store runs clock] in *.
  - destruct (ingest_cases body now uuidv4 (store s))
      as [(nums & p & Hnn & Hrange & Hids & Hpr & E)|(_ & msg & E)];
      rewrite E in Hing; injection Hing as <- <- <-.
    + unfold draws in Hfresh. rewrite Hids, length_fmap in Hfresh.
      destruct (create_job_ok nums p now uuidv4 (store s) Hok Hfresh)
        as ((_ & _ & Hrec1) & _).
      pose proof (create_job_lengths nums p now uuidv4 (store s)) as Hlen.
      revert Hrec1 Hlen Hset. rewrite create_job_rounds. cbn [fst snd].
      set (es := job_items nums p now uuidv4).
      set (st1 := set_ingestionJobs _ (foldl add_batch (store s) es)).
      intros Hrec1 Hlen Hset.
      assert (trace st1 = trace (store s)
              ∧ lastProcessedTime st1 = lastProcessedTime (store s)) as [Et El].
      { unfold st1. simpl. by destruct (add_batches_time es (store s)) as [-> ->]. }
      assert (store_paced now st1) as Hsp1.
      { split; [by rewrite Et, El|]. split; [rewrite El; lia|]. split; [|done].
        unfold nonempty_batches, st1. cbn [queue set_ingestionJobs].
        rewrite (add_batches_items es (store s)). apply Forall_app.
        split; [done|apply nonempty_job_items]. }
      unfold trigger in Hset. case_bool_decide as Heq.
      * unfold processBatches in Hset.
        destruct (runs s) as [|k0 [|k1 rs]] eqn:Hrs; [| |simpl in Hsolo; lia].
        -- pose proof (loop_head_paced sync_fuel now st1
                         ltac:(unfold sync_fuel; lia) Hsp1) as Hst.
           destruct (run_sync sync_fuel LoopHead now st1) as [st2 o].
           cbn [fst snd] in Hset.
           destruct (settle_paced None now st2 o []) as [H1 H2].
           { apply Hst. rewrite Et. exact Hrun. }
           { by left. }
           by rewrite <- Hset in *.
        -- exfalso.
           destruct (loop_head_suspends now st1 Hrec1) as [k Hk].
           { apply Hsp1. }
           { intros Hq. unfold queue_length in Heq. rewrite Hq in Heq.
             simpl in Heq. symmetry in Heq. apply length_zero_iff_nil in Heq.
             apply fmap_nil_inv in Heq. unfold es, job_items in Heq.
             apply fmap_nil_inv in Heq.
             assert (0 < group_count nums)%nat as Hgc.
             { apply group_count_lt. destruct nums; [done|simpl; lia]. }
             destruct (group_count nums); [lia|done]. }
           destruct (run_sync sync_fuel LoopHead now st1) as [st2 o].
           cbn [fst snd] in *. subst o. cbn [settle] in Hset.
           injection Hset as -> ->. simpl in Hsolo'. lia.
      * cbn [fst snd] in Hset. injection Hset as -> ->.
        split; [done|]. by apply (run_paced_same (store s)).
    + injection Hset as -> ->. split; [|done].
      split; [done|]. split; [lia|done].
  - split; [|done]. split; [done|]. split; [lia|done].
  - destruct (runs s) as [|k0 [|k1 rs]] eqn:Hrs; [done| |simpl in Hsolo; lia].
    destruct i as [|i]; [|done]. injection Hrun' as ->.
    destruct Hrun as [Hld Hwk]. unfold resume in Hset.
    pose proof (after_gate_paced sync_fuel now (store s)
                  ltac:(unfold sync_fuel; lia)) as Hst.
    destruct (run_sync sync_fuel AfterGate now (store s)) as [st2 o].
    destruct (settle_paced (Some 0%nat) now st2 o [AwaitRateLimit wake]) as [H1 H2].
    { apply Hst; [|done|lia]. split; [done|]. split; [lia|done]. }
    { right. by eexists. }
    by rewrite <- Hset in *.
  - destruct (runs s) as [|k0 [|k1 rs]] eqn:Hrs; [done| |simpl in Hsolo; lia].
    destruct i as [|i]; [|done]. injection Hrun' as ->.
    destruct Hrun as [t0 Hlast]. unfold resume in Hset.
    set (st1 := if ok then store s else emit (ConsoleError id) (store s)) in *.
    assert (store_paced now st1
            ∧ dispatches (trace st1) = dispatches (trace (store s))) as [Hsp1 Ed].
    { assert (store_paced now (store s)) as H0.
      { split; [done|]. split; [lia|done]. }
      unfold st1. destruct ok; [done|].
      by destruct (store_paced_log now (ConsoleError id) (store s) I H0) as (? & ? & _). }
    pose proof (item_loop_paced sync_fuel now st1 batch rest
                  ltac:(unfold sync_fuel; lia) Hsp1) as Hst.
    destruct (run_sync sync_fuel (ItemLoop batch rest) now st1) as [st2 o].
    destruct (settle_paced (Some 0%nat) now st2 o [AwaitFetch batch id rest])
      as [H1 H2].
    { apply Hst. exists t0. by rewrite Ed. }
    { right. by eexists. }
    by rewrite <- Hset in *.
Qed.

Lemma initial_system_paced : paced initial_system.
Proof.
  split; [|by intros b t].
  split; [split|split; [done|split; [constructor|]]].
  - intros i b1 t1 b2 t2 H.
    change (([] : list (uuid * Z)) !! i = Some (b1, t1)) in H.
    by rewrite lookup_nil in H.
  - by intros b tc.
  - intros id job H. change ((∅ : gmap string Job) !! id = Some job) in H.
    by rewrite lookup_empty in H.
Qed.

Lemma solo_steps_paced s l s' :
  reachable s → paced s → solo s → solo_steps s l s' →
  reachable s' ∧ paced s' ∧ solo s'.
Proof.
  intros Hreach Hp Hsolo Hsteps.
  induction Hsteps as [s|s a now s' l s'' Hstep Hsolo' _ IH]; [done|].
  apply IH; [by econstructor|by eapply step_paced|done].
Qed.

Lemma do_solo_actions_steps l s s' : do_solo_actions l s = Some s' → solo_steps s l s'.
Proof.
  revert s. induction l as [|[a now] l IH]; intros s; simpl.
  - intros [= <-]. constructor.
  - destruct (do_action a now s) as [s1|] eqn:Hs1; [|done].
    case_bool_decide as Hsolo; [|done]. intros H.
    econstructor; [by apply do_action_step|done|by apply IH].
Qed.

(** ** The rate limit of one run *)

(** X10. As long as no step leaves two runs of [processBatches]
    suspended at once, the spacing holds: of two batches dispatched one
    after the other the first has been completed, and the second is
    marked [triggered] no sooner than 5000 ms after the time recorded at
    that completion. It is assumed that a timer does not fire early,
    that the clock does not run backwards and that [uuidv4] returns
    identifiers that are new. *)
Theorem one_run_at_a_time_is_spaced (l : list (Action * Z)) (s : System) :
  solo_steps initial_system l s → spaced (trace (store s)).
Proof.
  intros Hsteps.
  assert (solo initial_system) as Hsolo by (unfold solo; simpl; lia).
  destruct (solo_steps_paced initial_system l s reachable_initial
              initial_system_paced Hsolo Hsteps) as (_ & [[[Hsp _] _] _] & _).
  exact Hsp.
Qed.

Lemma one_run_at_a_time_is_spaced_sample :
  ∃ s, do_solo_actions alone initial_system = Some s
       ∧ dispatches (trace (store s))
         = [("A-b", 1700000000000); ("A-c", 1700000008000)]
       ∧ completion_time (trace (store s)) "A-b" = Some 1700000003000
       ∧ spaced (trace (store s)).
Proof.
  destruct (do_solo_actions alone initial_system) as [s|] eqn:Hrun;
    [|vm_compute in Hrun; discriminate Hrun].
  exists s. split; [reflexivity|].
  pose proof (one_run_at_a_time_is_spaced alone s (do_solo_actions_steps _ _ _ Hrun))
    as Hsp.
  vm_compute in Hrun. injection Hrun as <-.
  split; [reflexivity|]. split; [reflexivity|exact Hsp].
Defined.

(** ** A submission on an empty queue *)

Lemma insert_sorted_tied_id k x l :
  tied rank_time k x → Forall (tied rank_time k) l →
  insert_sorted queue_comparator x l = x :: l.
Proof.
  intros Hx Hl. destruct l as [|y l]; [done|]. simpl.
  apply Forall_cons in Hl as [Hy _].
  assert (queue_comparator x y ≤ 0) as Hle.
  { apply queue_comparator_tie. unfold tied in *. congruence. }
  apply Z.leb_le in Hle. by rewrite Hle.
Qed.

Lemma sort_tied_id k l :
  Forall (tied rank_time k) l → sort queue_comparator l = l.
Proof.
  induction 1 as [|x l Hx Hl IH]; [done|]. simpl. rewrite IH.
  by apply (insert_sorted_tied_id k).
Qed.

Lemma run_ops_enqueue_tied k es q :
  Forall (tied rank_time k) (items q ++ es) →
  items (run_ops (Enqueue <$> es) q).1 = items q ++ es.
Proof.
  revert q. induction es as [|e es IH]; intros q Hall.
  - simpl. by rewrite app_nil_r.
  - rewrite fmap_cons. simpl.
    assert (items (enqueue queue_comparator e q) = items q ++ [e]) as E.
    { simpl. apply (sort_tied_id k). apply Forall_app in Hall as [Hq He].
      apply Forall_cons in He as [He _]. apply Forall_app. split; [done|].
      by constructor. }
    rewrite IH; rewrite E, <- app_assoc; done.
Qed.

Lemma create_job_on_empty_queue nums p now uuidv4 st :
  items (queue st) = [] →
  items (queue (create_job nums p now uuidv4 st).2) = job_items nums p now uuidv4.
Proof.
  intros Hq. rewrite create_job_rounds. cbn [snd queue set_ingestionJobs].
  rewrite add_batches_queue, (run_ops_enqueue_tied (p, now)); rewrite Hq; [done|].
  apply job_items_tied.
Qed.

Lemma group_length k nums :
  length (group k nums) = ((length nums - k * BATCH_SIZE) `min` BATCH_SIZE)%nat.
Proof. unfold group. rewrite length_take, length_drop. lia. Qed.

(** X11. When the queue is empty, lines 108-121 leave it holding one
    entry per group of the submission, in the order of the groups, under
    the identifiers the job lists: there are as many as the length of
    [ids] divided by three, rounded up; every entry but the last holds
    exactly three ids, and the last holds the ids that remain. *)
Theorem submission_fills_an_empty_queue
    (nums : list Z) (p : Priority) (now : Z) (uuidv4 : nat → uuid) (st : Store) :
  items (queue st) = [] →
  let q := items (queue (create_job nums p now uuidv4 st).2) in
  ids <$> q = groups nums
  ∧ concat (ids <$> q) = nums
  ∧ batch_id <$> q = (create_job nums p now uuidv4 st).1.2
  ∧ length q = ((length nums + 2) / 3)%nat
  ∧ (∀ k g, (ids <$> q) !! k = Some g → (S k < length q)%nat → length g = 3%nat)
  ∧ (∀ g, last (ids <$> q) = Some g →
       length g = (length nums - 3 * (length q - 1))%nat ∧ (1 ≤ length g ≤ 3)%nat).
Proof.
  intros Hq q. unfold q. rewrite create_job_on_empty_queue by done.
  assert (ids <$> job_items nums p now uuidv4 = groups nums) as Hg.
  { unfold job_items, groups. by rewrite <- list_fmap_compose. }
  assert (length (job_items nums p now uuidv4) = group_count nums) as Hlen.
  { unfold job_items. by rewrite length_fmap, length_seq. }
  rewrite Hg, Hlen. split; [done|]. split; [apply groups_concat|].
  split; [by rewrite create_job_rounds|]. split; [done|]. split.
  - intros k g [Hk ->]%groups_lookup Hlt. rewrite group_length.
    apply group_count_lt in Hlt. unfold BATCH_SIZE in *. lia.
  - intros g. rewrite last_lookup, groups_length. intros [Hk ->]%groups_lookup.
    rewrite group_length.
    destruct (group_count nums) as [|n] eqn:E; [simpl in Hk; lia|]. simpl.
    assert (n < group_count nums)%nat as Hn1 by lia.
    assert (¬ (S n < group_count nums)%nat) as Hn2 by lia.
    rewrite group_count_lt in Hn1, Hn2. unfold BATCH_SIZE in *. lia.
Qed.

Lemma submission_fills_an_empty_queue_scenario_A :
  ids <$> items (queue store_A) = [[1; 2; 3]; [4]].
Proof.
  destruct (submission_fills_an_empty_queue [1; 2; 3; 4] HIGH 1000000
              (sample_uuid "A-") initial_store eq_refl) as (Hg & _).
  unfold store_A. rewrite Hg. reflexivity.
Defined.

(** ** The status of a job when its submission is answered *)

Lemma created_records nums p now uuidv4 st :
  fresh uuidv4 (S (length nums)) st →
  NoDup (batch_id <$> job_items nums p now uuidv4)
  ∧ ∀ e, e ∈ job_items nums p now uuidv4 →
      batchStatuses (create_job nums p now uuidv4 st).2 !! batch_id e
      = Some (record_of e yet_to_start).
Proof.
  intros Hfresh.
  destruct (fresh_batch_ids uuidv4 nums (length nums) st) as (Hnd & _ & _); [done..|].
  rewrite <- job_items_batch_ids with (p := p) (now := now) in Hnd.
  split; [done|]. intros e He. rewrite create_job_rounds.
  exact (add_batches_lookup _ st e Hnd He).
Qed.

Lemma created_job nums p now uuidv4 st :
  ingestionJobs (create_job nums p now uuidv4 st).2 !! uuidv4 0%nat
  = Some {| j_ingestion_id := uuidv4 0%nat; j_status := yet_to_start;
            j_batches := batch_id <$> job_items nums p now uuidv4;
            j_priority := p; j_created_time := now |}.
Proof. rewrite create_job_rounds. simpl. by rewrite lookup_insert_eq. Qed.

Lemma none_started_read (es : list QueueItem) (m : gmap string BatchStatus) :
  (∀ e, e ∈ es → m !! batch_id e = Some (record_of e yet_to_start)) →
  (λ b, m !! b) <$> (batch_id <$> es) = Some <$> none_started es.
Proof.
  intros H. unfold none_started. rewrite <- !list_fmap_compose.
  apply list_fmap_ext. intros i e He. simpl. apply H.
  by eapply list_elem_of_lookup_2.
Qed.

Lemma first_triggered_read (es : list QueueItem) (m : gmap string BatchStatus) e0 tl :
  es = e0 :: tl → NoDup (batch_id <$> es) →
  (∀ e, e ∈ es → m !! batch_id e = Some (record_of e yet_to_start)) →
  (λ b, <[batch_id e0 := record_of e0 triggered]> m !! b) <$> (batch_id <$> es)
  = Some <$> first_triggered es.
Proof.
  intros -> Hnd H. rewrite !fmap_cons in *. simpl.
  rewrite lookup_insert_eq. f_equal.
  apply NoDup_cons in Hnd as [Hout _].
  rewrite <- !list_fmap_compose. apply list_fmap_ext. intros i e He. simpl.
  assert (e ∈ tl) as Hin by by eapply list_elem_of_lookup_2.
  rewrite lookup_insert_ne.
  - apply H. by right.
  - intros E. apply Hout. rewrite E. apply list_elem_of_fmap. by exists e.
Qed.

Lemma status_of_created nums p now uuidv4 st :
  fresh uuidv4 (S (length nums)) st →
  get_status (uuidv4 0%nat) (create_job nums p now uuidv4 st).2
  = {| res_status := 200;
       res_json := StatusJson (uuidv4 0%nat) yet_to_start
                     (Some <$> none_started (job_items nums p now uuidv4)) |}.
Proof.
  intros Hfresh. destruct (created_records nums p now uuidv4 st Hfresh) as [_ Hrec].
  unfold get_status. rewrite created_job. simpl.
  by rewrite (none_started_read _ _ Hrec).
Qed.

(** The first stretch of a run that finds the gate open on the queue a
    submission has just filled. *)
Lemma first_dispatch nums p now uuidv4 st :
  nums ≠ [] →
  fresh uuidv4 (S (length nums)) st →
  items (queue st) = [] →
  RATE_LIMIT_MS ≤ now - lastProcessedTime st →
  get_status (uuidv4 0%nat)
    (processBatches now (create_job nums p now uuidv4 st).2).1
  = {| res_status := 200;
       res_json := StatusJson (uuidv4 0%nat) triggered
                     (Some <$> first_triggered (job_items nums p now uuidv4)) |}.
Proof.
  intros Hne Hfresh Hq Hgate.
  destruct (created_records nums p now uuidv4 st Hfresh) as [Hnd Hrec].
  pose proof (created_job nums p now uuidv4 st) as Hjob.
  pose proof (create_job_on_empty_queue nums p now uuidv4 st Hq) as Hitems.
  pose proof (nonempty_job_items nums p now uuidv4) as Hids.
  assert (lastProcessedTime (create_job nums p now uuidv4 st).2
          = lastProcessedTime st) as Hl.
  { rewrite create_job_rounds. simpl. apply add_batches_time. }
  set (st1 := (create_job nums p now uuidv4 st).2) in *.
  set (es := job_items nums p now uuidv4) in *.
  assert (Forall (λ e, ingestion_id e = uuidv4 0%nat) es) as Hing.
  { unfold es, job_items. apply Forall_fmap, Forall_forall. done. }
  destruct es as [|e0 tl] eqn:Hes.
  { exfalso. unfold es, job_items in Hes. apply fmap_nil_inv in Hes.
    assert (0 < group_count nums)%nat as Hgc.
    { apply group_count_lt. destruct nums; [done|simpl; lia]. }
    destruct (group_count nums); [lia|done]. }
  apply Forall_cons in Hids as [Hids0 _]. apply Forall_cons in Hing as [Hing0 _].
  unfold processBatches, sync_fuel. rewrite run_sync_loop_head.
  rewrite bool_decide_eq_true_2 by (unfold queue_length; rewrite Hitems; simpl; lia).
  assert ((now - lastProcessedTime st1 <? RATE_LIMIT_MS) = false) as ->.
  { apply Z.ltb_ge. rewrite Hl. lia. }
  assert (dequeue (queue st1) = (Some e0, {| items := tl |})) as Hdeq.
  { unfold dequeue. by rewrite Hitems. }
  rewrite (run_sync_after_gate _ now st1 e0 _ Hdeq). cbn zeta.
  set (st2 := emit (Dispatched (batch_id e0) now)
                (set_batch e0 triggered (set_queue {| items := tl |} st1))).
  pose proof (first_triggered_read (e0 :: tl) (batchStatuses st1) e0 tl
                eq_refl Hnd Hrec) as Hread.
  assert (updateIngestionStatus (ingestion_id e0) st2
          = Some (set_ingestionJobs
                    (<[uuidv4 0%nat :=
                        with_status triggered
                          {| j_ingestion_id := uuidv4 0%nat; j_status := yet_to_start;
                             j_batches := batch_id <$> (e0 :: tl);
                             j_priority := p; j_created_time := now |}]>
                       (ingestionJobs st2)) st2)) as Hu.
  { unfold updateIngestionStatus. rewrite Hing0.
    change (ingestionJobs st2) with (ingestionJobs st1). rewrite Hjob.
    cbn [j_batches].
    change (batchStatuses st2)
      with (<[batch_id e0 := record_of e0 triggered]> (batchStatuses st1)).
    rewrite Hread, !js_every_defined, js_some_defined. reflexivity. }
  rewrite Hu. destruct (ids e0) as [|id rest] eqn:Hids0'; [done|].
  cbn [run_sync fst]. unfold get_status.
  cbn [ingestionJobs emit set_ingestionJobs batchStatuses].
  rewrite lookup_insert_eq. cbn [j_status with_status j_batches].
  change (batchStatuses st2)
    with (<[batch_id e0 := record_of e0 triggered]> (batchStatuses st1)).
  by rewrite Hread.
Qed.

(** X12. What a status query shows when the handler has just answered a
    valid submission. If the queue was empty and 5000 ms or more have
    passed since [lastProcessedTime], the handler has already started the
    dispatcher, which has dispatched the first batch: the job and its
    first batch are [triggered], the other batches [yet_to_start]. In
    every other case the job and all its batches are [yet_to_start]. The
    batches shown carry the groups of the submitted ids in order. It is
    assumed that [uuidv4] returns identifiers that are new. *)
Theorem status_when_submission_is_answered
    (nums : list Z) (p : Priority) (body : Body) (now : Z)
    (uuidv4 : nat → uuid) (st : Store) :
  nums ≠ [] →
  Forall (λ n, 1 ≤ n ≤ 1000000007) nums →
  body_ids body = JsArray (JsInt <$> nums) →
  priority_of (body_priority body) p →
  fresh uuidv4 (draws body) st →
  let st' := (ingest body now uuidv4 st).1.2 in
  let es := job_items nums p now uuidv4 in
  (items (queue st) = [] → RATE_LIMIT_MS ≤ now - lastProcessedTime st →
   get_status (uuidv4 0%nat) st'
   = {| res_status := 200;
        res_json := StatusJson (uuidv4 0%nat) triggered
                      (Some <$> first_triggered es) |})
  ∧ (items (queue st) ≠ [] ∨ now - lastProcessedTime st < RATE_LIMIT_MS →
     get_status (uuidv4 0%nat) st'
     = {| res_status := 200;
          res_json := StatusJson (uuidv4 0%nat) yet_to_start
                        (Some <$> none_started es) |})
  ∧ bs_ids <$> first_triggered es = groups nums
  ∧ bs_ids <$> none_started es = groups nums.
Proof.
  intros Hne Hrange Hids Hp Hfresh st' es.
  unfold draws in Hfresh. rewrite Hids, length_fmap in Hfresh.
  assert (st' = (trigger (create_job nums p now uuidv4 st).1.2 now
                         (create_job nums p now uuidv4 st).2).1) as ->.
  { unfold st'. by rewrite (ingest_accepts nums p). }
  pose proof (create_job_lengths nums p now uuidv4 st) as Hlen.
  assert (ids <$> es = groups nums) as Hg.
  { unfold es, job_items, groups. by rewrite <- list_fmap_compose. }
  split; [|split; [|split]].
  - intros Hq Hgate. unfold trigger.
    rewrite bool_decide_eq_true_2
      by (rewrite Hlen; unfold queue_length; rewrite Hq; simpl; lia).
    destruct (processBatches now _) as [st2 o] eqn:Hrun. cbn [fst].
    change st2 with (st2, o).1. rewrite <- Hrun. by apply first_dispatch.
  - intros Hcase. unfold trigger. case_bool_decide as Heq.
    + assert (items (queue st) = []) as Hq.
      { rewrite Hlen in Heq. unfold queue_length in Heq.
        destruct (items (queue st)); [done|simpl in Heq; lia]. }
      destruct Hcase as [Hcase|Hcase]; [done|].
      assert (lastProcessedTime (create_job nums p now uuidv4 st).2
              = lastProcessedTime st) as Hl.
      { rewrite create_job_rounds. simpl. apply add_batches_time. }
      unfold processBatches, sync_fuel.
      rewrite gate_holds_the_run by (rewrite Hl; lia). cbn [fst].
      by apply status_of_created.
    + cbn [fst]. by apply status_of_created.
  - rewrite <- Hg. destruct es as [|e0 tl]; [done|]. simpl. f_equal.
    by rewrite <- list_fmap_compose.
  - rewrite <- Hg. unfold none_started. by rewrite <- list_fmap_compose.
Qed.

Lemma status_when_submission_is_answered_scenario_A :
  get_status "A-a" (ingest body_A 1700000000000 (sample_uuid "A-") initial_store).1.2
  = {| res_status := 200;
       res_json := StatusJson "A-a" triggered
         [ Some {| bs_batch_id := "A-b"; bs_ids := [1; 2; 3]; bs_status := triggered |};
           Some {| bs_batch_id := "A-c"; bs_ids := [4]; bs_status := yet_to_start |} ] |}.
Proof.
  destruct (status_when_submission_is_answered [1; 2; 3; 4] HIGH body_A
              1700000000000 (sample_uuid "A-") initial_store)
    as (Hopen & _).
  - discriminate.
  - repeat constructor; lia.
  - reflexivity.
  - right. reflexivity.
  - apply (bool_decide_unpack _). vm_compute. reflexivity.
  - exact (Hopen eq_refl ltac:(vm_compute; discriminate)).
Defined.

(** ** One run at a time never throws *)

Lemma quiet_emit e st : e ≠ RunError → quiet st → quiet (emit e st).
Proof.
  intros He Hq. unfold quiet. simpl. rewrite elem_of_app, list_elem_of_singleton.
  intros [H|H]; [done|]. by subst e.
Qed.

Lemma item_loop_calm fuel now st b rest :
  (2 ≤ fuel)%nat → jobs_recorded st → quiet st →
  stretch_calm (run_sync fuel (ItemLoop b rest) now st).
Proof.
  intros Hfuel Hrec Hq. destruct rest as [|id rest].
  - destruct (round_end fuel b now st Hfuel Hrec)
      as (st' & -> & _ & Hq' & _ & Ht & _).
    split; cbn [fst snd].
    + unfold quiet. rewrite Ht, elem_of_app, list_elem_of_singleton.
      by intros [H|H].
    + case_bool_decide as Hlen; [|done]. rewrite Hq'. intros E.
      unfold queue_length in Hlen. rewrite E in Hlen. simpl in Hlen. lia.
  - destruct fuel; [lia|]. split; [by apply quiet_emit|done].
Qed.

Lemma after_gate_calm fuel now st :
  (3 ≤ fuel)%nat → jobs_recorded st → quiet st → items (queue st) ≠ [] →
  stretch_calm (run_sync fuel AfterGate now st).
Proof.
  intros Hfuel Hrec Hq Hne. destruct fuel as [|fuel]; [lia|].
  destruct (items (queue st)) as [|b rest] eqn:Hitems; [done|].
  assert (dequeue (queue st) = (Some b, {| items := rest |})) as Hdeq.
  { unfold dequeue. by rewrite Hitems. }
  rewrite (run_sync_after_gate fuel now st b _ Hdeq). cbn zeta.
  set (st2 := emit (Dispatched (batch_id b) now)
                (set_batch b triggered (set_queue {| items := rest |} st))).
  assert (jobs_recorded st2) as Hrec2 by by apply emit_recorded, set_batch_recorded.
  destruct (updateIngestionStatus_defined (ingestion_id b) st2 Hrec2) as [st3 Hu].
  rewrite Hu. destruct (updateIngestionStatus_frame _ _ _ Hu) as (_ & _ & _ & Ht3 & _).
  apply item_loop_calm; [lia|by eapply updateIngestionStatus_recorded|].
  unfold quiet. rewrite Ht3. by apply (quiet_emit _ (set_batch b triggered _)).
Qed.

Lemma loop_head_calm fuel now st :
  (4 ≤ fuel)%nat → jobs_recorded st → quiet st →
  stretch_calm (run_sync fuel LoopHead now st).
Proof.
  intros Hfuel Hrec Hq. destruct fuel as [|fuel]; [lia|].
  rewrite run_sync_loop_head.
  assert (bool_decide (0 < queue_length (queue st))%nat = true
          → items (queue st) ≠ []) as Hne.
  { intros H%bool_decide_eq_true E. unfold queue_length in H. rewrite E in H.
    simpl in H. lia. }
  destruct (bool_decide (0 < queue_length (queue st))%nat); [|by split].
  destruct (now - lastProcessedTime st <? RATE_LIMIT_MS).
  - split; [done|]. by apply Hne.
  - apply after_gate_calm; [lia|done|done|by apply Hne].
Qed.

Lemma settle_calm i st2 o rs :
  stretch_calm (st2, o) →
  (i = None ∧ rs = []) ∨ (∃ k0, i = Some 0%nat ∧ rs = [k0]) →
  quiet (settle i (st2, o) rs).1
  ∧ ∀ wake, (settle i (st2, o) rs).2 = [AwaitRateLimit wake] →
      items (queue (settle i (st2, o) rs).1) ≠ [].
Proof.
  intros [Hq Hout] Hi. cbn [fst snd] in *.
  assert (match i with Some i => delete i rs | None => rs end = []) as Hdel.
  { by destruct Hi as [[-> ->]|(k0 & -> & ->)]. }
  destruct o as [k| | |]; cbn [settle fst snd]; rewrite ?Hdel; try done.
  split; [done|]. intros wake Hk.
  assert (k = AwaitRateLimit wake) as ->.
  { destruct Hi as [[-> ->]|(k0 & -> & ->)]; simpl in Hk; congruence. }
  exact Hout.
Qed.

Lemma step_calm s a now s' :
  reachable s → calm s → solo s → step s a now s' → solo s' → calm s'.
Proof.
  intros Hreach [Hq Hgate] Hsolo Hstep Hsolo'.
  pose proof (reachable_ok s Hreach) as [Hok _].
  pose proof (proj2 (proj2 Hok)) as Hrec.
  destruct Hstep as [s body uuidv4 now resp st' t st'' rs'' Hclock Hfresh Hing Hset
                    |s id now Hclock
                    |s i wake now st' rs' Hclock Hrun' Hwake Hset
                    |s i batch id rest ok now st' rs' Hclock Hrun' Hset];
    unfold calm, solo in *; cbn [store runs clock] in *.
  - destruct (ingest_cases body now uuidv4 (store s))
      as [(nums & p & Hnn & Hrange & Hids & Hpr & E)|(_ & msg & E)];
      rewrite E in Hing; injection Hing as <- <- <-.
    + unfold draws in Hfresh. rewrite Hids, length_fmap in Hfresh.
      destruct (create_job_ok nums p now uuidv4 (store s) Hok Hfresh)
        as ((_ & _ & Hrec1) & _).
      revert Hrec1 Hset. rewrite create_job_rounds. cbn [fst snd].
      set (es := job_items nums p now uuidv4).
      set (st1 := set_ingestionJobs _ (foldl add_batch (store s) es)).
      intros Hrec1 Hset.
      assert (quiet st1) as Hq1.
      { unfold quiet, st1. simpl. by rewrite (proj2 (add_batches_time es (store s))). }
      assert (items (queue (store s)) ≠ [] → items (queue st1) ≠ []) as Hgrow.
      { intros Hne E'. apply Hne. unfold st1 in E'. cbn [queue set_ingestionJobs] in E'.
        pose proof (add_batches_items es (store s)) as Hperm. rewrite E' in Hperm.
        symmetry in Hperm. apply Permutation_nil_r in Hperm.
        by apply app_eq_nil in Hperm as [? _]. }
      unfold trigger in Hset. case_bool_decide as Heq.
      * unfold processBatches in Hset.
        pose proof (loop_head_calm sync_fuel now st1
                      ltac:(unfold sync_fuel; lia) Hrec1 Hq1) as Hst.
        destruct (run_sync sync_fuel LoopHead now st1) as [st2 o].
        cbn [fst snd] in Hset.
        destruct (runs s) as [|k0 [|k1 rs]] eqn:Hrs; [| |simpl in Hsolo; lia].
        -- destruct (settle_calm None st2 o [] Hst) as [H1 H2]; [by left|].
           by rewrite <- Hset in *.
        -- assert (∀ wake, k0 ≠ AwaitRateLimit wake) as Hk0.
           { intros wake ->. apply (Hgate wake eq_refl).
             pose proof (create_job_lengths nums p now uuidv4 (store s)) as Hlen.
             rewrite create_job_rounds in Hlen. cbn [fst snd] in Hlen.
             fold es in Hlen. fold st1 in Hlen. rewrite Hlen in Heq.
             unfold queue_length in Heq.
             destruct (items (queue (store s))); [done|exfalso; simpl in Heq; lia]. }
           destruct o as [k| | |]; cbn [settle] in Hset;
             injection Hset as -> ->; try (by destruct Hst);
             try (simpl in Hsolo'; lia).
           split; [apply Hst|]. intros wake [= ->]. by destruct (Hk0 wake).
      * cbn [fst snd] in Hset. injection Hset as -> ->.
        split; [done|]. intros wake Hw. by apply Hgrow, (Hgate wake).
    + injection Hset as -> ->. done.
  - done.
  - destruct (runs s) as [|k0 [|k1 rs]] eqn:Hrs; [done| |simpl in Hsolo; lia].
    destruct i as [|i]; [|done]. injection Hrun' as ->.
    unfold resume in Hset.
    pose proof (after_gate_calm sync_fuel now (store s)
                  ltac:(unfold sync_fuel; lia) Hrec Hq (Hgate wake eq_refl)) as Hst.
    destruct (run_sync sync_fuel AfterGate now (store s)) as [st2 o].
    destruct (settle_calm (Some 0%nat) st2 o [AwaitRateLimit wake] Hst) as [H1 H2];
      [right; by eexists|].
    by rewrite <- Hset in *.
  - destruct (runs s) as [|k0 [|k1 rs]] eqn:Hrs; [done| |simpl in Hsolo; lia].
    destruct i as [|i]; [|done]. injection Hrun' as ->.
    unfold resume in Hset.
    set (st1 := if ok then store s else emit (ConsoleError id) (store s)) in *.
    assert (jobs_recorded st1 ∧ quiet st1) as [Hrec1 Hq1].
    { unfold st1. destruct ok; [done|]. split; [done|by apply quiet_emit]. }
    pose proof (item_loop_calm sync_fuel now st1 batch rest
                  ltac:(unfold sync_fuel; lia) Hrec1 Hq1) as Hst.
    destruct (run_sync sync_fuel (ItemLoop batch rest) now st1) as [st2 o].
    destruct (settle_calm (Some 0%nat) st2 o [AwaitFetch batch id rest] Hst)
      as [H1 H2]; [right; by eexists|].
    by rewrite <- Hset in *.
Qed.

Lemma solo_steps_calm s l s' :
  reachable s → calm s → solo s → solo_steps s l s' → calm s'.
Proof.
  intros Hreach Hc Hsolo Hsteps.
  induction Hsteps as [s|s a now s' l s'' Hstep Hsolo' _ IH]; [done|].
  apply IH; [by econstructor|by eapply step_calm|done].
Qed.

(** X13. As long as no step leaves two runs of [processBatches]
    suspended at once, no run ever throws: the error line of the
    [.catch] of line 125 is never written, and a run that waits at the
    gate always finds an entry to take when its timer fires. It is
    assumed that [uuidv4] returns identifiers that are new. *)
Theorem one_run_at_a_time_never_throws (l : list (Action * Z)) (s : System) :
  solo_steps initial_system l s →
  (RunError ∉ trace (store s))
  ∧ ∀ wake, runs s = [AwaitRateLimit wake] → items (queue (store s)) ≠ [].
Proof.
  intros Hsteps.
  apply (solo_steps_calm initial_system l s reachable_initial); [| |done].
  - split; [apply not_elem_of_nil|done].
  - unfold solo. simpl. lia.
Qed.

Lemma one_run_at_a_time_never_throws_sample :
  ∃ s, do_solo_actions alone initial_system = Some s
       ∧ RunError ∉ trace (store s).
Proof.
  destruct (do_solo_actions alone initial_system) as [s|] eqn:Hrun;
    [|vm_compute in Hrun; discriminate Hrun].
  exists s. split; [reflexivity|].
  exact (proj1 (one_run_at_a_time_never_throws alone s
                  (do_solo_actions_steps _ _ _ Hrun))).
Defined.

(** ** The dispatcher runs out of work *)

Lemma run_sync_work fuel :
  ∀ pt now st,
    (outcome_work (run_sync fuel pt now st).2 + queue_work (run_sync fuel pt now st).1
     ≤ point_work pt + queue_work st)%nat.
Proof.
  induction fuel as [|fuel IH]; intros pt now st; [simpl; lia|].
  destruct pt as [| |b [|id rest]]; cbn [run_sync].
  - case_bool_decide; [|simpl; lia].
    destruct (now - lastProcessedTime st <? RATE_LIMIT_MS); [simpl; lia|].
    specialize (IH AfterGate now st). simpl in *. lia.
  - destruct (dequeue (queue st)) as [[b|] q'] eqn:Hdeq; [|simpl; lia].
    apply dequeue_some in Hdeq. cbn zeta.
    destruct (updateIngestionStatus (ingestion_id b) _) as [st3|] eqn:Hu.
    + specialize (IH (ItemLoop b (ids b)) now st3).
      destruct (updateIngestionStatus_frame _ _ _ Hu) as (_ & Hq3 & _).
      unfold queue_work in *. rewrite Hq3 in IH. rewrite Hdeq.
      simpl in *. unfold item_work in *. lia.
    + unfold queue_work. rewrite Hdeq. simpl. lia.
  - cbn zeta.
    destruct (updateIngestionStatus (ingestion_id b) _) as [st2|] eqn:Hu.
    + destruct (updateIngestionStatus_frame _ _ _ Hu) as (_ & Hq2 & _).
      match goal with |- context [run_sync fuel LoopHead now ?st3] =>
        specialize (IH LoopHead now st3) end.
      unfold queue_work in *. simpl in IH. rewrite Hq2 in IH. simpl in *. lia.
    + unfold queue_work. simpl. lia.
  - unfold queue_work. simpl. lia.
Qed.

(** A resumption uses up some of the work. *)
Lemma resume_work k ok now st :
  (outcome_work (resume k ok now st).2 + queue_work (resume k ok now st).1
   < run_work k + queue_work st)%nat.
Proof.
  destruct k as [wake|b id rest]; unfold resume.
  - pose proof (run_sync_work sync_fuel AfterGate now st). simpl in *. lia.
  - match goal with |- context [run_sync sync_fuel _ now ?st1] =>
      pose proof (run_sync_work sync_fuel (ItemLoop b rest) now st1) as H;
      assert (queue_work st1 = queue_work st) as E by (by destruct ok)
    end.
    rewrite E in H. simpl in *. lia.
Qed.

Lemma settle_work i k st o rs :
  rs !! i = Some k →
  (sum_list_with run_work (settle (Some i) (st, o) rs).2 + run_work k
   = sum_list_with run_work rs + outcome_work o)%nat
  ∧ queue_work (settle (Some i) (st, o) rs).1 = queue_work st.
Proof.
  intros Hk. pose proof (lookup_lt_Some _ _ _ Hk) as Hlt.
  pose proof (take_drop_middle _ _ _ Hk) as Hmid.
  assert (sum_list_with run_work rs
          = (sum_list_with run_work (take i rs) + run_work k
             + sum_list_with run_work (drop (S i) rs))%nat) as Hsum.
  { rewrite <- Hmid at 1. rewrite sum_list_with_app. simpl. lia. }
  destruct o as [k'| | |]; cbn [settle fst snd outcome_work];
    (split; [|done]);
    rewrite ?delete_take_drop, ?insert_take_drop by done;
    rewrite sum_list_with_app; simpl; lia.
Qed.

Lemma step_work s a now s' :
  step s a now s' → is_event a → (work s' < work s)%nat.
Proof.
  intros Hstep Hev.
  destruct Hstep as [s body uuidv4 now resp st' t st'' rs'' Hclock Hfresh Hing Hset
                    |s id now Hclock
                    |s i wake now st' rs' Hclock Hrun Hwake Hset
                    |s i batch id rest ok now st' rs' Hclock Hrun Hset];
    [done|done|..]; unfold work; cbn [store runs].
  - pose proof (resume_work (AwaitRateLimit wake) true now (store s)) as Hres.
    destruct (resume (AwaitRateLimit wake) true now (store s)) as [st2 o].
    destruct (settle_work i _ st2 o (runs s) Hrun) as [Hruns Hq].
    rewrite <- Hset in Hruns, Hq. cbn [fst snd] in *. lia.
  - pose proof (resume_work (AwaitFetch batch id rest) ok now (store s)) as Hres.
    destruct (resume (AwaitFetch batch id rest) ok now (store s)) as [st2 o].
    destruct (settle_work i _ st2 o (runs s) Hrun) as [Hruns Hq].
    rewrite <- Hset in Hruns, Hq. cbn [fst snd] in *. lia.
Qed.

Lemma steps_use_work s l s' :
  steps s l s' → Forall (λ x : Action * Z, is_event x.1) l →
  (length l + work s' ≤ work s)%nat.
Proof.
  induction 1 as [s|s a now s' l s'' Hstep _ IH]; intros Hl; [simpl; lia|].
  apply Forall_cons in Hl as [Ha Hl].
  pose proof (step_work _ _ _ _ Hstep Ha). specialize (IH Hl). simpl. lia.
Qed.

(** A suspended run can always be resumed. *)
Lemma pending_run_resumes s :
  runs s ≠ [] → ∃ a now s', is_event a ∧ step s a now s'.
Proof.
  destruct (runs s) as [|k rs] eqn:Hruns; [done|]. intros _.
  destruct k as [wake|b id rest].
  - exists (TimerFires 0), (Z.max (clock s) wake).
    eexists {| store := _; runs := _; clock := _ |}. split; [done|].
    apply step_timer with (wake := wake);
      [lia|by rewrite Hruns|lia|symmetry; apply surjective_pairing].
  - exists (FetchSettles 0 true), (clock s).
    eexists {| store := _; runs := _; clock := _ |}. split; [done|].
    apply step_fetch with (batch := b) (id := id) (rest := rest);
      [lia|by rewrite Hruns|symmetry; apply surjective_pairing].
Qed.

Lemma drains n :
  ∀ s, (work s ≤ n)%nat →
    ∃ l s', Forall (λ x : Action * Z, is_event x.1) l ∧ steps s l s' ∧ runs s' = [].
Proof.
  induction n as [|n IH]; intros s Hn;
    (destruct (runs s) as [|k rs] eqn:Hruns;
     [exists [], s; split; [constructor|]; split; [constructor|done]|]);
    destruct (pending_run_resumes s) as (a & now & s1 & Hev & Hstep);
    try (by rewrite Hruns);
    pose proof (step_work _ _ _ _ Hstep Hev) as Hlt; [lia|].
  destruct (IH s1) as (l & s' & Hl & Hsteps & Hidle); [lia|].
  exists ((a, now) :: l), s'. split; [by constructor|].
  split; [by econstructor|done].
Qed.

(** ** Every record is accounted for *)

Lemma accounted_for_impl st (P Q : uuid → Prop) :
  (∀ u, P u → Q u) → accounted_for st P → accounted_for st Q.
Proof.
  intros HPQ [Hrec Hjobs]. split; [|done]. intros u r Hr.
  specialize (Hrec u r Hr). destruct (bs_status r); auto.
Qed.

Lemma accounted_for_update id st st' P :
  updateIngestionStatus id st = Some st' → accounted_for st P → accounted_for st' P.
Proof.
  intros Hu [Hrec Hjobs].
  destruct (updateIngestionStatus_frame _ _ _ Hu) as (Hb & Hq & _ & _ & Hback).
  split.
  - unfold queue_ids. rewrite Hb, Hq. exact Hrec.
  - intros j job' Hj. destruct (Hback j job' Hj) as (job & Hjob & ->).
    by eapply Hjobs.
Qed.

(** Lines 61-64. *)
Lemma accounted_for_dispatch st b q' P :
  items (queue st) = b :: items q' →
  accounted_for st P →
  accounted_for (set_batch b triggered (set_queue q' st)) (λ u, P u ∨ batch_id b = u).
Proof.
  intros Hdeq [Hrec Hjobs]. split; [|done].
  intros u r. simpl. rewrite lookup_insert. case_decide as Hu.
  - intros [= <-]. simpl. by right.
  - intros Hr. specialize (Hrec u r Hr). destruct (bs_status r); [|by left|done].
    unfold queue_ids in *. simpl. rewrite Hdeq, fmap_cons in Hrec.
    apply elem_of_cons in Hrec as [->|]; done.
Qed.

(** Line 76. *)
Lemma accounted_for_complete st b P :
  accounted_for st (λ u, P u ∨ batch_id b = u) →
  accounted_for (set_batch b completed st) P.
Proof.
  intros [Hrec Hjobs]. split; [|done].
  intros u r. simpl. rewrite lookup_insert. case_decide as Hu.
  - by intros [= <-].
  - intros Hr. specialize (Hrec u r Hr). destruct (bs_status r); [done| |done].
    by destruct Hrec.
Qed.

Lemma run_sync_accounted fuel :
  ∀ pt now st (P : uuid → Prop),
    jobs_recorded st →
    accounted_for st (λ u, P u ∨ at_point pt u) →
    (run_sync fuel pt now st).2 = OutOfFuel
    ∨ accounted_for (run_sync fuel pt now st).1
        (λ u, P u ∨ at_outcome (run_sync fuel pt now st).2 u).
Proof.
  induction fuel as [|fuel IH]; intros pt now st P Hrec Hacc; [by left|].
  destruct pt as [| |b [|id rest]]; cbn [run_sync].
  - case_bool_decide; [|right; exact Hacc].
    destruct (now - lastProcessedTime st <? RATE_LIMIT_MS); [right; exact Hacc|].
    by apply IH.
  - destruct (dequeue (queue st)) as [[b|] q'] eqn:Hdeq; [|right; exact Hacc].
    apply dequeue_some in Hdeq. cbn zeta.
    set (st2 := emit (Dispatched (batch_id b) now)
                  (set_batch b triggered (set_queue q' st))).
    assert (jobs_recorded st2) as Hrec2 by by apply emit_recorded, set_batch_recorded.
    destruct (updateIngestionStatus_defined (ingestion_id b) st2 Hrec2) as [st3 Hu].
    rewrite Hu. apply IH; [by eapply updateIngestionStatus_recorded|].
    eapply accounted_for_update; [exact Hu|].
    apply (accounted_for_dispatch st b q' P Hdeq).
    eapply accounted_for_impl; [|exact Hacc]. by intros u [|[]].
  - cbn zeta. set (st1 := set_batch b completed st).
    assert (jobs_recorded st1) as Hrec1 by by apply set_batch_recorded.
    destruct (updateIngestionStatus_defined (ingestion_id b) st1 Hrec1) as [st2 Hu].
    assert (jobs_recorded st2) as Hrec2 by (by eapply updateIngestionStatus_recorded).
    rewrite Hu. apply IH; [exact Hrec2|].
    assert (accounted_for st2 P) as Hacc2.
    { eapply accounted_for_update; [exact Hu|]. by apply accounted_for_complete. }
    eapply accounted_for_impl; [|exact Hacc2]. by left.
  - right. exact Hacc.
Qed.

Lemma sending_other rs i k u :
  rs !! i = Some k → sending rs u →
  sending (delete i rs) u ∨ at_outcome (Suspended k) u.
Proof.
  intros Hk (b & id & rest & Hin & Hu).
  rewrite <- (take_drop_middle _ _ _ Hk) in Hin.
  rewrite elem_of_app, elem_of_cons in Hin.
  destruct Hin as [Hin|[<-|Hin]]; [left|by right|left];
    exists b, id, rest; (split; [|done]);
    rewrite delete_take_drop, elem_of_app; auto.
Qed.

Lemma settle_accounted i st o rs :
  (∀ j, i = Some j → is_Some (rs !! j)) →
  accounted_for st
    (λ u, sending (match i with Some i => delete i rs | None => rs end) u
          ∨ at_outcome o u) →
  accounted_for (settle i (st, o) rs).1 (sending (settle i (st, o) rs).2).
Proof.
  intros Hi Hacc.
  destruct o as [k| | |]; cbn [settle fst snd];
    try (eapply accounted_for_impl; [|exact Hacc]; by intros u [|[]]).
  eapply accounted_for_impl; [|exact Hacc]. intros u [(b & id & rest & Hin & Hu)|Hk].
  - exists b, id, rest. split; [|done]. destruct i as [j|].
    + destruct (Hi j eq_refl) as [k0 Hk0].
      rewrite insert_take_drop by (by eapply lookup_lt_Some).
      rewrite delete_take_drop, elem_of_app in Hin.
      rewrite elem_of_app, elem_of_cons. tauto.
    + apply elem_of_app. by left.
  - destruct k as [|b id rest]; [done|]. exists b, id, rest. split; [|done].
    destruct i as [j|].
    + destruct (Hi j eq_refl) as [k0 Hk0].
      apply list_elem_of_insert. by eapply lookup_lt_Some.
    + apply elem_of_app. right. by apply list_elem_of_singleton.
Qed.

(** Lines 108-121: the new records are [yet_to_start] and in the queue,
    and the new job has at least one batch. *)
Lemma create_job_accounted nums p now uuidv4 st P :
  nums ≠ [] → fresh uuidv4 (S (length nums)) st →
  accounted_for st P → accounted_for (create_job nums p now uuidv4 st).2 P.
Proof.
  intros Hne Hfresh [Hrec Hjobs].
  destruct (fresh_batch_ids uuidv4 nums (length nums) st) as (Hnd & Hnew & _);
    [done..|].
  rewrite <- job_items_batch_ids with (p := p) (now := now) in Hnd, Hnew.
  rewrite create_job_rounds. cbn [snd].
  set (es := job_items nums p now uuidv4) in *.
  split.
  - intros u r. cbn [batchStatuses set_ingestionJobs]. intros Hr.
    assert (∀ v, v ∈ queue_ids st ∨ v ∈ batch_id <$> es →
                 v ∈ queue_ids (set_ingestionJobs
                   (<[uuidv4 0%nat :=
                       {| j_ingestion_id := uuidv4 0%nat; j_status := yet_to_start;
                          j_batches := batch_id <$> es; j_priority := p;
                          j_created_time := now |}]>
                      (ingestionJobs (foldl add_batch st es)))
                   (foldl add_batch st es))) as Hin.
    { intros v Hv. unfold queue_ids at 1. cbn [queue set_ingestionJobs].
      fold (queue_ids (foldl add_batch st es)).
      rewrite add_batches_queue_ids. by apply elem_of_app. }
    destruct (batchStatuses st !! u) as [r0|] eqn:Hold.
    + rewrite (add_batches_kept es st u r0 Hnew Hold) in Hr. injection Hr as <-.
      specialize (Hrec u r0 Hold). destruct (bs_status r0); [|done..].
      apply Hin. by left.
    + destruct (add_batches_new es st u r Hnd Hold Hr) as [Hu ->].
      apply Hin. by right.
  - intros j job. cbn [ingestionJobs set_ingestionJobs].
    rewrite add_batches_jobs, lookup_insert. case_decide as Hj.
    + intros [= <-]. cbn [j_batches]. unfold es, job_items.
      assert (0 < group_count nums)%nat as Hpos.
      { apply group_count_lt. destruct nums; [done|]. simpl. lia. }
      destruct (group_count nums); [lia|]. done.
    + apply Hjobs.
Qed.

Lemma step_accounted s a now s' :
  system_ok s → accounted s → step s a now s' → accounted s'.
Proof.
  intros [Hok Hruns] Hacc Hstep. unfold accounted in *.
  destruct Hstep as [s body uuidv4 now resp st' t st'' rs'' Hclock Hfresh Hing Hset
                    |s id now Hclock
                    |s i wake now st' rs' Hclock Hrun Hwake Hset
                    |s i batch id rest ok now st' rs' Hclock Hrun Hset];
    cbn [store runs].
  - destruct (ingest_cases body now uuidv4 (store s))
      as [(nums & p & Hne & Hrange & Hids & Hp & E)|(_ & msg & E)];
      rewrite E in Hing; injection Hing as <- <- <-.
    + unfold draws in Hfresh. rewrite Hids, length_fmap in Hfresh.
      destruct (create_job_ok nums p now uuidv4 (store s) Hok Hfresh)
        as ((_ & _ & Hrec1) & _).
      pose proof (create_job_accounted nums p now uuidv4 (store s) _
                    Hne Hfresh Hacc) as Hacc1.
      set (st1 := (create_job nums p now uuidv4 (store s)).2) in *.
      unfold trigger in Hset. case_bool_decide.
      * unfold processBatches in Hset.
        pose proof (sync_fuel_enough LoopHead now st1 Hrec1) as Hfuel.
        destruct (run_sync_accounted sync_fuel LoopHead now st1
                    (sending (runs s)) Hrec1) as [Hout|Hacc2]; [|done|].
        { eapply accounted_for_impl; [|exact Hacc1]. by left. }
        destruct (run_sync sync_fuel LoopHead now st1) as [st2 o].
        cbn [fst snd] in *.
        pose proof (settle_accounted None st2 o (runs s)
                      ltac:(by intros j [=]) Hacc2) as Hacc'.
        by rewrite <- Hset in Hacc'.
      * cbn [fst snd] in Hset. by injection Hset as -> ->.
    + by injection Hset as -> ->.
  - exact Hacc.
  - unfold resume in Hset.
    pose proof (sync_fuel_enough AfterGate now (store s) (proj2 (proj2 Hok))) as Hfuel.
    destruct (run_sync_accounted sync_fuel AfterGate now (store s)
                (sending (delete i (runs s))) (proj2 (proj2 Hok)))
      as [Hout|Hacc2]; [|done|].
    { eapply accounted_for_impl; [|exact Hacc]. intros u Hu.
      by apply (sending_other _ _ _ _ Hrun) in Hu. }
    destruct (run_sync sync_fuel AfterGate now (store s)) as [st2 o].
    cbn [fst snd] in *.
    pose proof (settle_accounted (Some i) st2 o (runs s)
                  ltac:(intros j [= <-]; by eexists) Hacc2) as Hacc'.
    by rewrite <- Hset in Hacc'.
  - unfold resume in Hset.
    set (st1 := if ok then store s else emit (ConsoleError id) (store s)) in *.
    assert (jobs_recorded st1) as Hrec1.
    { unfold st1. destruct ok; apply Hok. }
    pose proof (sync_fuel_enough (ItemLoop batch rest) now st1 Hrec1) as Hfuel.
    destruct (run_sync_accounted sync_fuel (ItemLoop batch rest) now st1
                (sending (delete i (runs s))) Hrec1)
      as [Hout|Hacc2]; [|done|].
    { assert (accounted_for st1 (sending (runs s))) as Hacc1.
      { unfold st1. by destruct ok. }
      eapply accounted_for_impl; [|exact Hacc1]. intros u Hu.
      by apply (sending_other _ _ _ _ Hrun) in Hu. }
    destruct (run_sync sync_fuel (ItemLoop batch rest) now st1) as [st2 o].
    cbn [fst snd] in *.
    pose proof (settle_accounted (Some i) st2 o (runs s)
                  ltac:(intros j [= <-]; by eexists) Hacc2) as Hacc'.
    by rewrite <- Hset in Hacc'.
Qed.

Lemma reachable_accounted s : reachable s → accounted s.
Proof.
  induction 1 as [|s a now s' Hreach IH Hstep].
  - split.
    + intros u r H. change ((∅ : gmap string BatchStatus) !! u = Some r) in H.
      by rewrite lookup_empty in H.
    + intros id job H. change ((∅ : gmap string Job) !! id = Some job) in H.
      by rewrite lookup_empty in H.
  - eapply step_accounted; [by apply reachable_ok|exact IH|exact Hstep].
Qed.

(** The roll-up of line 92 on records that are all [completed]. *)
Lemma read_completed (m : gmap string BatchStatus) (us : list uuid) recs :
  (∀ u r, m !! u = Some r → bs_status r = completed) →
  (λ b, m !! b) <$> us = Some <$> recs → us ≠ [] → roll_up recs = completed.
Proof.
  intros Hall Hread Hne.
  assert (Forall (λ r, bs_status r = completed) recs) as Hrecs.
  { clear Hne. revert recs Hread.
    induction us as [|u us IH]; intros [|r recs] [=]; constructor.
    - by eapply Hall.
    - by apply IH. }
  destruct us as [|u us]; [done|]. destruct recs as [|r recs]; [done|].
  unfold roll_up. apply Forall_cons in Hrecs as [Hr Hrecs].
  cbn [forallb]. unfold has_status at 1. rewrite Hr.
  rewrite bool_decide_eq_false_2 by done. cbn [andb].
  replace (existsb (has_status triggered) (r :: recs)) with false; [done|].
  symmetry. apply not_true_is_false. intros Hex.
  apply existsb_exists in Hex as (x & Hx & Hs).
  assert (bs_status x = completed) as Hc.
  { assert (Forall (λ r, bs_status r = completed) (r :: recs)) as Hf by by constructor.
    rewrite Forall_forall in Hf. apply Hf. by apply list_elem_of_In. }
  unfold has_status in Hs. rewrite Hc in Hs. by apply bool_decide_eq_true in Hs.
Qed.

(** With no run left, nothing is left to do. *)
Lemma idle_all_completed s :
  reachable s → runs s = [] →
  items (queue (store s)) = [] ∧ all_completed (store s).
Proof.
  intros Hreach Hidle.
  assert (items (queue (store s)) = []) as Hq.
  { destruct (items (queue (store s))) as [|e q] eqn:E; [done|].
    destruct (reachable_has_worker s Hreach); [by rewrite E|done]. }
  split; [done|].
  destruct (reachable_accounted s Hreach) as [Hrec Hjobs].
  assert (∀ u r, batchStatuses (store s) !! u = Some r → bs_status r = completed)
    as Hall.
  { intros u r Hr. specialize (Hrec u r Hr). destruct (bs_status r); [| |done].
    - unfold queue_ids in Hrec. rewrite Hq in Hrec. by apply elem_of_nil in Hrec.
    - destruct Hrec as (b & id & rest & Hin & _). rewrite Hidle in Hin.
      by apply elem_of_nil in Hin. }
  split; [done|]. intros id job Hj.
  destruct (reachable_sound s Hreach) as [(_ & _ & _ & Hok & _) _].
  destruct (Hok id job Hj) as [_ (recs & Hread & ->)].
  eapply read_completed; [exact Hall|exact Hread|by eapply Hjobs].
Qed.

(** ** Once submissions stop *)

(** X14. Without new submissions the runs of [processBatches] come to
    an end, in any state of the server and whatever runs overlap: each
    timer that fires and each call that settles uses up at least one
    unit of [work], which counts, for every queued batch, one resumption
    for each of its ids and one for the wait at the gate, for every run
    that waits on a call the call, the ids still to come and the wait
    after them, and one for every run at the gate. So no more than
    [work s] resumptions can follow the state [s]. *)
Theorem resumptions_use_up_the_work
    (s : System) (l : list (Action * Z)) (s' : System) :
  steps s l s' → Forall (λ x : Action * Z, is_event x.1) l →
  (length l + work s' ≤ work s)%nat.
Proof. apply steps_use_work. Qed.

Lemma resumptions_use_up_the_work_sample :
  (length (drop 1 alone) + work (after alone) ≤ work (after (take 1 alone)))%nat.
Proof.
  apply resumptions_use_up_the_work.
  - apply do_actions_steps. vm_compute. reflexivity.
  - repeat constructor.
Defined.

(** X15. In every state the server reaches in which no run of
    [processBatches] is suspended, nothing is left undone: the queue is
    empty, every record of [batchStatuses] is [completed] and every job
    reads [completed]. In particular no batch stays [triggered] or
    [yet_to_start] behind a run that has ended or thrown. It is assumed
    that [uuidv4] returns identifiers that are new. *)
Theorem idle_server_has_completed_everything (s : System) :
  reachable s → runs s = [] →
  items (queue (store s)) = []
  ∧ (∀ u r, batchStatuses (store s) !! u = Some r → bs_status r = completed)
  ∧ (∀ id job, ingestionJobs (store s) !! id = Some job → j_status job = completed).
Proof.
  intros Hreach Hidle.
  by destruct (idle_all_completed s Hreach Hidle) as [Hq [Hrecs Hjobs]].
Qed.

Lemma idle_server_has_completed_everything_sample :
  ∃ job, ingestionJobs (store (after alone)) !! "A-a" = Some job
         ∧ j_status job = completed.
Proof.
  destruct (do_actions alone initial_system) as [s|] eqn:Hrun;
    [|vm_compute in Hrun; discriminate Hrun].
  destruct (idle_server_has_completed_everything (after alone)
              (reachable_after alone s Hrun) ltac:(vm_compute; reflexivity))
    as (_ & _ & Hjobs).
  destruct (ingestionJobs (store (after alone)) !! "A-a") as [job|] eqn:Hj;
    [|vm_compute in Hj; discriminate Hj].
  exists job. split; [reflexivity|]. exact (Hjobs "A-a" job Hj).
Defined.

(** X16. From every state the server reaches, the timers and calls
    that are pending can be let come back, without any new submission,
    until no run is left; the queue is then empty and every job the
    server had accepted reads [completed], with the batches it had. No
    accepted job is left behind, whatever runs overlapped and whether the
    calls were fulfilled or rejected before. It is assumed that [uuidv4]
    returns identifiers that are new. *)
Theorem accepted_jobs_get_completed (s : System) :
  reachable s →
  ∃ (l : list (Action * Z)) (s' : System),
    Forall (λ x : Action * Z, is_event x.1) l
    ∧ steps s l s'
    ∧ runs s' = []
    ∧ items (queue (store s')) = []
    ∧ ∀ id job, ingestionJobs (store s) !! id = Some job →
        ∃ job', ingestionJobs (store s') !! id = Some job'
                ∧ j_batches job' = j_batches job
                ∧ j_status job' = completed.
Proof.
  intros Hreach.
  destruct (drains (work s) s (le_n _)) as (l & s' & Hl & Hsteps & Hidle).
  exists l, s'. split; [done|]. split; [done|]. split; [done|].
  pose proof (steps_reachable s l s' Hreach Hsteps) as Hreach'.
  destruct (idle_all_completed s' Hreach' Hidle) as [Hq [_ Hjobs]].
  split; [done|]. intros id job Hj.
  destruct (steps_keep_sound s l s' (reachable_sound s Hreach) Hsteps)
    as (_ & _ & Hkept).
  destruct (Hkept id job Hj) as [st Hj']. eexists. split; [exact Hj'|].
  split; [done|]. exact (Hjobs id _ Hj').
Qed.

Lemma accepted_jobs_get_completed_sample :
  ∃ (l : list (Action * Z)) (s' : System),
    Forall (λ x : Action * Z, is_event x.1) l
    ∧ steps (after (take 1 alone)) l s'
    ∧ runs s' = [].
Proof.
  destruct (accepted_jobs_get_completed (after (take 1 alone))
              ltac:(apply (reachable_after (take 1 alone) (after (take 1 alone)));
                    vm_compute; reflexivity))
    as (l & s' & Hl & Hsteps & Hidle & _).
  exists l, s'. split; [exact Hl|]. split; [exact Hsteps|exact Hidle].
Defined.

(** ** The queue of the server *)










(** ** When a second run starts *)

Lemma settle_length i st o rs :
  (length (settle (Some i) (st, o) rs).2 ≤ length rs)%nat.
Proof.
  destruct o; cbn [settle snd];
    rewrite ?length_insert, ?delete_take_drop, ?length_app, ?length_take,
      ?length_drop; lia.
Qed.

(** A submission that finds the queue empty starts a run, and the run
    is suspended before the handler answers. *)
Lemma trigger_on_empty_queue nums p now uuidv4 st :
  nums ≠ [] → store_ok st → fresh uuidv4 (S (length nums)) st →
  items (queue st) = [] →
  ∃ st2 k,
    trigger (create_job nums p now uuidv4 st).1.2 now (create_job nums p now uuidv4 st).2
    = (st2, Started (Suspended k)).
Proof.
  intros Hne Hok Hfresh Hq.
  destruct (create_job_ok nums p now uuidv4 st Hok Hfresh) as ((_ & _ & Hrec1) & _).
  pose proof (create_job_lengths nums p now uuidv4 st) as Hlen.
  pose proof (create_job_on_empty_queue nums p now uuidv4 st Hq) as Hitems.
  set (st1 := (create_job nums p now uuidv4 st).2) in *.
  unfold trigger. rewrite bool_decide_eq_true_2
    by (rewrite Hlen; unfold queue_length; by rewrite Hq).
  destruct (loop_head_suspends now st1 Hrec1) as [k Hk].
  - unfold nonempty_batches. rewrite Hitems. apply nonempty_job_items.
  - rewrite Hitems. unfold job_items.
    assert (0 < group_count nums)%nat as Hpos.
    { apply group_count_lt. destruct nums; [done|]. simpl. lia. }
    destruct (group_count nums); [lia|]. done.
  - unfold processBatches.
    destruct (run_sync sync_fuel LoopHead now st1) as [st2 o]. simpl in Hk.
    subst o. by exists st2, k.
Qed.

(** X18. The check of line 124 fails to keep the dispatcher single in
    one case exactly. From a state the server reaches with at most one
    suspended run, a step leaves two runs if and only if it is a valid
    submission that finds the queue empty while a run is still
    suspended, that is, while the run is busy with the last batch it
    took. No timer, settled call, status query or other submission ever
    adds a run to one that is there. It is assumed that [uuidv4]
    returns identifiers that are new. *)
Theorem second_run_starts_exactly_when
    (s : System) (a : Action) (now : Z) (s' : System) :
  reachable s → solo s → step s a now s' →
  (¬ solo s' ↔
   ∃ body uuidv4 k,
     a = PostIngest body uuidv4 ∧ valid_submission body
     ∧ items (queue (store s)) = [] ∧ runs s = [k]).
Proof.
  intros Hreach Hsolo Hstep.
  pose proof (reachable_ok s Hreach) as [Hok _].
  destruct Hstep as [s body uuidv4 now resp st' t st'' rs'' Hclock Hfresh Hing Hset
                    |s id now Hclock
                    |s i wake now st' rs' Hclock Hrun Hwake Hset
                    |s i batch id rest ok now st' rs' Hclock Hrun Hset];
    unfold solo in *; cbn [runs].
  - destruct (ingest_cases body now uuidv4 (store s))
      as [(nums & p & Hne & Hrange & Hids & Hp & E)|(Hinvalid & msg & E)];
      rewrite E in Hing; injection Hing as <- <- <-.
    + assert (valid_submission body) as Hvalid.
      { apply valid_submission_spec. by exists nums, p. }
      unfold draws in Hfresh. rewrite Hids, length_fmap in Hfresh.
      pose proof (create_job_lengths nums p now uuidv4 (store s)) as Hlen.
      destruct (items (queue (store s))) as [|e q] eqn:Hq.
      * destruct (trigger_on_empty_queue nums p now uuidv4 (store s)
                    Hne Hok Hfresh Hq) as (st2 & k' & Htr).
        rewrite Htr in Hset. cbn [settle fst snd] in Hset.
        injection Hset as -> ->. rewrite length_app. simpl. split.
        -- intros Hnot. destruct (runs s) as [|k [|k2 rs]] eqn:Hruns;
             [simpl in Hnot; lia| |simpl in Hsolo; lia].
           by exists body, uuidv4, k.
        -- intros (_ & _ & k & _ & _ & _ & ->). simpl. lia.
      * unfold trigger in Hset. rewrite bool_decide_eq_false_2 in Hset
          by (rewrite Hlen; unfold queue_length; rewrite Hq; simpl; lia).
        cbn [fst snd] in Hset. injection Hset as -> ->. split; [done|].
        by intros (_ & _ & _ & _ & _ & [=] & _).
    + injection Hset as -> ->. split; [done|].
      intros (body' & uuidv4' & _ & [= <- <-] & Hvalid & _). done.
  - split; [done|]. by intros (_ & _ & _ & [=] & _).
  - pose proof (settle_length i (resume (AwaitRateLimit wake) true now (store s)).1
                  (resume (AwaitRateLimit wake) true now (store s)).2 (runs s)) as Hl.
    rewrite <- surjective_pairing, <- Hset in Hl. cbn [snd] in Hl.
    split; [lia|]. by intros (_ & _ & _ & [=] & _).
  - pose proof (settle_length i
                  (resume (AwaitFetch batch id rest) ok now (store s)).1
                  (resume (AwaitFetch batch id rest) ok now (store s)).2 (runs s)) as Hl.
    rewrite <- surjective_pairing, <- Hset in Hl. cbn [snd] in Hl.
    split; [lia|]. by intros (_ & _ & _ & [=] & _).
Qed.

Lemma second_run_starts_exactly_when_sample :
  ¬ solo (after (take 2 overlap)).
Proof.
  apply (second_run_starts_exactly_when
           (after (take 1 overlap)) (PostIngest body_two (sample_uuid "B-"))
           1700000000500 (after (take 2 overlap))).
  - apply (reachable_after (take 1 overlap) (after (take 1 overlap))).
    vm_compute. reflexivity.
  - vm_compute. lia.
  - apply do_action_step. vm_compute. reflexivity.
  - exists body_two, (sample_uuid "B-").
    eexists. split; [reflexivity|]. split.
    + exists [2], LOW. split; [done|]. split; [|split; [reflexivity|by left]].
      repeat constructor; lia.
    + split; vm_compute; reflexivity.
Defined.
